(** * ShinagawaPrinceHotel-AR: compositing and overlay pipeline

    A shallow embedding of the parts of the photo application that carry
    algorithmic content:

    - [face-filter.js]: the exponential smoothing store ([smoothVal],
      [resetSmoothing]) and the detection callback [onFaceResults];
    - [filter.js]: the pixel passes [applyGrain], [applyWatercolor],
      [applySketch] and the canvas-driven passes [applyVignette],
      [applyGlow];
    - [capture.js]: the crop and scale arithmetic and the layered
      composition of [captureImage], and the caption of
      [drawMessageOnCanvas].

    JavaScript numbers are modelled by exact rationals ([Q]); the smoothing
    store is written once over an arbitrary number type and is also
    instantiated with IEEE 754 binary64 ([PrimFloat]) so that it can be run
    with the rounding the browser performs.  Canvas contents that the
    source only reaches through the 2D context API (paths, text, blur,
    blending) are kept as a log of drawing commands or as parameters of a
    section. *)

From Stdlib Require Import ZArith QArith Qround Qabs Qminmax Qpower Lqa Lia.
From Stdlib Require Import Floats.PrimFloat.
From Stdlib Require Floats.FloatOps Floats.SpecFloat.
From Stdlib Require Import DecimalString DecimalNat DecimalFacts.
From stdpp Require Import base option list gmap strings.

Set Default Proof Using "Type".
#[local] Set Warnings "-inexact-float".

(* ====================================================================== *)
(** * Part I: the model *)
(* ====================================================================== *)

(** ** JavaScript number helpers (exact arithmetic) *)

Module Js.

Local Open Scope Q_scope.

(** [Math.round]: nearest integer, ties towards plus infinity. *)
Definition Math_round (x : Q) : Z := Qfloor (x + 0.5).

(** [Math.min] and [Math.max] on two numbers. *)
Definition Math_min (x y : Q) : Q := if Qle_bool x y then x else y.
Definition Math_max (x y : Q) : Q := if Qle_bool x y then y else x.

(** [Math.abs]. *)
Definition Math_abs (x : Q) : Q := Qabs x.

(** Storing a number into a [Uint8ClampedArray] cell: clamp to [0, 255],
    then round to the nearest integer, ties to even. *)
Definition ToUint8Clamp (x : Q) : Z :=
  if Qle_bool x 0 then 0%Z
  else if Qle_bool 255 x then 255%Z
  else
    let f := Qfloor x in
    let d := x - inject_Z f in
    if Qle_bool d 0.5
    then (if Qle_bool 0.5 d then (if Z.even f then f else f + 1)%Z else f)
    else (f + 1)%Z.

(** The values a [Uint8ClampedArray] cell can hold. *)
Definition is_byte (z : Z) : Prop := (0 <= z <= 255)%Z.

End Js.

(** ** Smoothing store ([face-filter.js], [_s], [smoothVal],
       [resetSmoothing])

    [_s] is a JavaScript object used as a map from coordinate keys to
    numbers.  A key can be absent ([undefined]), present with [null]
    (after [resetSmoothing]) or present with a number; [_s[key] == null]
    holds in the first two cases.

    [Smoothing] is the store of the entries of [_s] itself, for any
    number type; it is what [_s[key]] reads at every key that
    [Object.prototype] does not define, the twelve keys of
    [onFaceResults] among them.  [SmoothingJs] below follows the read
    through the prototype as well, on binary64 numbers. *)

Module Smoothing.

Section Store.

(** The number type and the three operations [smoothVal] uses. *)
Variable num : Type.
Variables (add sub mul : num -> num -> num).
Variable one : num.
(** [SMOOTH_ALPHA]; a variable here so that the recurrence can be
    studied for any factor, fixed to 0.38 below. *)
Variable alpha : num.

Local Abbreviation store := (gmap string (option num)).

(** [_s[key] == null] *)
Definition is_null (s : store) (key : string) : bool :=
  match s !! key with
  | Some (Some _) => false
  | _ => true
  end.

(** The value the assignment in [smoothVal] computes. *)
Definition smoothed (s : store) (key : string) (v : num) : num :=
  match s !! key with
  | Some (Some prev) => add (mul prev (sub one alpha)) (mul v alpha)
  | _ => v
  end.

(** [function smoothVal(key, v)]: the returned value and the store
    after the assignment. *)
Definition smoothVal (key : string) (v : num) (s : store) : num * store :=
  let r := smoothed s key v in (r, <[key := Some r]> s).

(** [function resetSmoothing()]: every existing key is set to [null]. *)
Definition resetSmoothing (s : store) : store := (fun _ => None) <$> s.

(** [n + 1] successive calls [smoothVal(key, v)] with the same arguments:
    the value returned by the last one, call number [n] counting from 0. *)
Fixpoint nth_return (n : nat) (key : string) (v : num) (s : store) : num :=
  match n with
  | O => fst (smoothVal key v s)
  | S n' => nth_return n' key v (snd (smoothVal key v s))
  end.

End Store.

(** [const SMOOTH_ALPHA = 0.38], exact arithmetic. *)
Definition SMOOTH_ALPHA : Q := 0.38%Q.

(** The store in exact arithmetic with an arbitrary factor. *)
Definition smoothValQ (alpha : Q) :=
  smoothVal Q Qplus Qminus Qmult 1%Q alpha.
Definition nth_returnQ (alpha : Q) :=
  nth_return Q Qplus Qminus Qmult 1%Q alpha.

(** What [smoothVal] makes of an initialised value [prev], in exact
    arithmetic. *)
Definition ema (alpha v prev : Q) : Q := (prev * (1 - alpha) + v * alpha)%Q.

(** The store as the browser runs it: binary64 numbers and the literal
    0.38. *)
Definition smoothVal_f64 :=
  smoothVal float PrimFloat.add PrimFloat.sub PrimFloat.mul
    1%float 0.38%float.

End Smoothing.

(** ** The store as a plain object ([const _s = {}])

    [_s] is created by an object literal, so a read [_s[key]] that finds
    no entry goes on to [Object.prototype].  Values are binary64
    numbers, [null], [undefined], or an object (a method of
    [Object.prototype], or [Object.prototype] itself for [__proto__]). *)

Module SmoothingJs.

(** The property names of [Object.prototype]. *)
Definition Object_prototype_names : list string :=
  [ "constructor"; "hasOwnProperty"; "isPrototypeOf"; "propertyIsEnumerable";
    "toLocaleString"; "toString"; "valueOf"; "__proto__";
    "__defineGetter__"; "__defineSetter__"; "__lookupGetter__"; "__lookupSetter__" ].

Inductive JsValue :=
  | Undefined
  | Null
  | Number (x : float)
  | Object.

(** [_s[key]] *)
Definition get (s : gmap string (option float)) (key : string) : JsValue :=
  match s !! key with
  | Some (Some x) => Number x
  | Some None => Null
  | None => if bool_decide (key ∈ Object_prototype_names) then Object else Undefined
  end.

(** [x == null] *)
Definition eq_null (x : JsValue) : bool :=
  match x with
  | Undefined | Null => true
  | _ => false
  end.

(** The conversion [*] applies to its operand: a function or
    [Object.prototype] gives NaN. *)
Definition ToNumber (x : JsValue) : float :=
  match x with
  | Number f => f
  | Null => 0%float
  | Undefined | Object => PrimFloat.nan
  end.

(** [_s[key] = x] with a number [x]: an entry of [_s], also where the
    prototype has a method of that name; [__proto__] is an accessor whose
    setter ignores a number. *)
Definition set (s : gmap string (option float)) (key : string) (x : float)
    : gmap string (option float) :=
  if String.eqb key "__proto__" then s else <[key := Some x]> s.

(** [function smoothVal(key, v)] *)
Definition smoothVal (key : string) (v : float) (s : gmap string (option float))
    : JsValue * gmap string (option float) :=
  let x := if eq_null (get s key) then v
           else PrimFloat.add
                  (PrimFloat.mul (ToNumber (get s key))
                     (PrimFloat.sub 1%float 0.38%float))
                  (PrimFloat.mul v 0.38%float) in
  let s' := set s key x in
  (get s' key, s').

(** [function resetSmoothing()]: [Object.keys] lists the entries of [_s]
    itself. *)
Definition resetSmoothing (s : gmap string (option float))
    : gmap string (option float) :=
  Smoothing.resetSmoothing float s.

End SmoothingJs.

(** ** The store in rounded arithmetic

    A floating-point operation returns the exact result rounded to the
    format.  [fl] is that rounding; the store with every [+], [-] and [*]
    followed by [fl] is the store as a floating-point machine runs it. *)

Module Rounded.

Section Arithmetic.

Variable fl : Q -> Q.

Definition add (x y : Q) : Q := fl (x + y).
Definition sub (x y : Q) : Q := fl (x - y).
Definition mul (x y : Q) : Q := fl (x * y).

(** [smoothVal] and its successive returns, with the factor [alpha]. *)
Definition smoothVal (alpha : Q) :=
  Smoothing.smoothVal Q add sub mul 1%Q alpha.
Definition nth_return (alpha : Q) :=
  Smoothing.nth_return Q add sub mul 1%Q alpha.

(** The value the assignment of [smoothVal] computes from an initialised
    value [prev]. *)
Definition blend (alpha v prev : Q) : Q :=
  add (mul prev (sub 1%Q alpha)) (mul v alpha).

End Arithmetic.

(** The standard model of floating-point arithmetic: the rounding of [x]
    differs from [x] by at most [u] times its magnitude (binary64, to
    nearest, away from overflow and underflow: [u] is 2 to the -53). *)
Definition standard (fl : Q -> Q) (u : Q) : Prop :=
  forall x : Q, (Qabs (fl x - x) <= u * Qabs x)%Q.

(** The relative error accumulated by three roundings in a row. *)
Definition gamma3 (u : Q) : Q := ((1 + u) * (1 + u) * (1 + u) - 1)%Q.

End Rounded.

(** ** Binary64 rounding on the rationals

    The numbers of JavaScript are binary64: 53 significant bits,
    operations rounded to nearest, ties to even.  [fl64] is that rounding
    with an unbounded exponent, so it is the rounding of the code for
    every result that neither overflows nor falls into the subnormal
    range; [run64] and [runR] are one run of the store on the primitive
    floats and on the rationals rounded by [fl64]. *)

Module Binary64.

(** The exponent of the leading bit of [a > 0]: the [e] with
    [2^e <= a < 2^(e+1)]. *)
Definition ilog2 (a : Q) : Z :=
  let e0 := (Z.log2 (Qnum a) - Z.log2 (Zpos (Qden a)))%Z in
  if Qle_bool (2 ^ e0) a then e0 else (e0 - 1)%Z.

(** The nearest integer, ties to even. *)
Definition nearestEven (y : Q) : Z :=
  let f := Qfloor y in
  let d := (y - inject_Z f)%Q in
  if Qle_bool d (1 # 2)
  then (if Qle_bool (1 # 2) d then (if Z.even f then f else f + 1)%Z else f)
  else (f + 1)%Z.

(** Rounding to 53 significant bits, to nearest, ties to even. *)
Definition fl64 (x : Q) : Q :=
  if Qeq_bool x 0 then 0%Q
  else
    let a := Qabs x in
    let ulp := (2 ^ (ilog2 a - 52))%Q in
    let m := nearestEven (a / ulp) in
    ((if Qle_bool 0 x then 1 else -1) * (inject_Z m * ulp))%Q.

(** The unit roundoff of binary64. *)
Definition u64 : Q := (2 ^ (-53))%Q.

(** The value of a finite binary64 number. *)
Definition of_float (f : float) : option Q :=
  match FloatOps.Prim2SF f with
  | SpecFloat.S754_zero _ => Some 0%Q
  | SpecFloat.S754_finite s m e =>
      Some ((if s then -1 else 1) * (inject_Z (Zpos m) * 2 ^ e))%Q
  | _ => None
  end.

End Binary64.

(** ** The two models of a run *)

Module Runs.

(** Whether a binary64 number has the given value. *)
Definition agree (f : float) (q : Q) : bool :=
  match Binary64.of_float f with
  | Some x => Qeq_bool x q
  | None => false
  end.

(** Call number [n] of [smoothVal('bx', v)] with [prev] stored, on the
    primitive floats. *)
Definition run64 (n : nat) (prev v : float) : float :=
  Smoothing.nth_return float PrimFloat.add PrimFloat.sub PrimFloat.mul
    1%float 0.38%float n "bx" v {[ "bx" := Some prev ]}.

(** The same call on the rationals rounded by [fl64], the decimal
    literals rounded as the parser rounds them. *)
Definition runR (n : nat) (prev v : Q) : Q :=
  Rounded.nth_return Binary64.fl64 (Binary64.fl64 0.38) n "bx" (Binary64.fl64 v)
    {[ "bx" := Some (Binary64.fl64 prev) ]}.

End Runs.

(** ** Pixel passes ([filter.js])

    An [ImageData] buffer is a list of channel values, four per pixel
    (red, green, blue, alpha), row by row.  [Math.random] is an oracle
    [rnd : nat -> Q] read through a cursor that advances by one at each
    call.  What the source leaves to the browser's rasteriser (gradient
    fill, blur, brightness, screen blending) is a parameter of the section
    giving the ideal channel value; the canvas keeps it as an 8-bit
    value. *)

Module Filter.

Import Js.
Local Open Scope Q_scope.

(** [data[i]] read as a number. *)
Definition rd (data : list Z) (i : nat) : Q :=
  inject_Z (default 0%Z (data !! i)).

(** [data[i] = x] on a [Uint8ClampedArray]. *)
Definition wr (data : list Z) (i : nat) (x : Q) : list Z :=
  <[i := ToUint8Clamp x]> data.

(** The indices visited by [for (let i = 0; i < data.length; i += 4)]. *)
Definition pixelIndices (len : nat) : list nat :=
  (fun p => (4 * p)%nat) <$> seq 0 ((len + 3) / 4).

(** One iteration of the loop of [applyGrain]. *)
Definition grainPixel (intensity : Q) (colorGrain : bool) (rnd : nat -> Q)
    (st : list Z * nat) (i : nat) : list Z * nat :=
  let '(data, cur) := st in
  let base := (rnd cur - 0.5) * intensity * 2 in
  if colorGrain then
    let d1 := wr data i
      (Math_min 255 (Math_max 0
         (rd data i + base + (rnd (cur + 1)%nat - 0.5) * intensity * 0.6))) in
    let d2 := wr d1 (i + 1)
      (Math_min 255 (Math_max 0
         (rd d1 (i + 1) + base + (rnd (cur + 2)%nat - 0.5) * intensity * 0.6))) in
    let d3 := wr d2 (i + 2)
      (Math_min 255 (Math_max 0
         (rd d2 (i + 2) + base + (rnd (cur + 3)%nat - 0.5) * intensity * 0.6))) in
    (d3, (cur + 4)%nat)
  else
    let d1 := wr data i (Math_min 255 (Math_max 0 (rd data i + base))) in
    let d2 := wr d1 (i + 1) (Math_min 255 (Math_max 0 (rd d1 (i + 1) + base))) in
    let d3 := wr d2 (i + 2) (Math_min 255 (Math_max 0 (rd d2 (i + 2) + base))) in
    (d3, (cur + 1)%nat).

(** What one iteration stores in colour channel [c] of its pixel, from the
    old value of the channel and the cursor at the start of the
    iteration. *)
Definition grainCell (intensity : Q) (colorGrain : bool) (rnd : nat -> Q)
    (cur : nat) (old : Q) (c : nat) : Q :=
  let base := (rnd cur - 0.5) * intensity * 2 in
  if colorGrain
  then Math_min 255 (Math_max 0
         (old + base + (rnd (cur + 1 + c)%nat - 0.5) * intensity * 0.6))
  else Math_min 255 (Math_max 0 (old + base)).

(** The number of calls of [Math.random] in one iteration. *)
Definition drawsPerPixel (colorGrain : bool) : nat :=
  if colorGrain then 4%nat else 1%nat.

(** [function applyGrain(ctx, w, h, intensity, colorGrain)] on the buffer
    returned by [getImageData(0, 0, w, h)]. *)
Definition applyGrain (intensity : Q) (colorGrain : bool) (rnd : nat -> Q)
    (st : list Z * nat) : list Z * nat :=
  foldl (grainPixel intensity colorGrain rnd) st (pixelIndices (length (fst st))).

(** The coordinates visited by the two nested loops of [applySketch],
    [for (y = 1; y < h - 1; y++) for (x = 1; x < w - 1; x++)], in order. *)
Definition interior (w h : nat) : list (nat * nat) :=
  y ← seq 1 (h - 2); x ← seq 1 (w - 2); [(x, y)].

Section Canvas2D.

(** [Math.sqrt]. *)
Variable Math_sqrt : Q -> Q.

(** [fillRect(0, 0, w, h)] with the radial gradient of [applyVignette]
    (centre, inner and outer radius, alpha of the outer stop): the ideal
    value of channel [i] over the old value. *)
Variable radialFill : Q -> Q -> Q -> Q -> Q -> nat -> nat -> nat -> Z -> Q.

(** [drawImage(tmp, 0, 0)] under [filter = blur(..) brightness(..)],
    [globalCompositeOperation = 'screen'] and [globalAlpha]: the ideal
    value of channel [i] over the old value, from the snapshot. *)
Variable screenDraw : Q -> Q -> Q -> list Z -> nat -> nat -> nat -> Z -> Q.

(** [clearRect] then [drawImage(tmp, 0, 0)] under [filter = blur(..)]: the
    ideal value of channel [i], from the snapshot. *)
Variable blurDraw : Q -> list Z -> nat -> nat -> nat -> Q.

(** [function applyVignette(ctx, w, h, strength)]. *)
Definition applyVignette (w h : nat) (strength : Q) (data : list Z) : list Z :=
  let cx := inject_Z (Z.of_nat w) / 2 in
  let cy := inject_Z (Z.of_nat h) / 2 in
  let inner := Math_min cx cy * 0.5 in
  let outer := Math_sqrt (cx * cx + cy * cy) * 1.05 in
  imap (fun i old =>
          ToUint8Clamp (radialFill cx cy inner outer (Math_min 1 strength) w h i old))
       data.

(** One [drawImage] of [applyGlow]. *)
Definition glowLayer (blur brightness alpha : Q) (snapshot : list Z)
    (w h : nat) (data : list Z) : list Z :=
  imap (fun i old => ToUint8Clamp (screenDraw blur brightness alpha snapshot w h i old))
       data.

(** [function applyGlow(ctx, w, h)]. *)
Definition applyGlow (w h : nat) (data : list Z) : list Z :=
  let snapshot := data in
  let d1 := glowLayer 20 1.7 0.45 snapshot w h data in
  let d2 := glowLayer 9 1.4 0.32 snapshot w h d1 in
  glowLayer 3 1.15 0.18 snapshot w h d2.

(** One iteration of the saturation loop of [applyWatercolor]. *)
Definition saturatePixel (data : list Z) (i : nat) : list Z :=
  let r := rd data i in
  let g := rd data (i + 1) in
  let b := rd data (i + 2) in
  let avg := (r + g + b) / 3 in
  let d1 := wr data i
    (Math_min 255 (inject_Z (Math_round (avg + (r - avg) * 1.9)))) in
  let d2 := wr d1 (i + 1)
    (Math_min 255 (inject_Z (Math_round (avg + (g - avg) * 1.9)))) in
  wr d2 (i + 2)
    (Math_min 255 (inject_Z (Math_round (avg + (b - avg) * 1.9)))).

(** [function applyWatercolor(ctx, w, h)]. *)
Definition applyWatercolor (w h : nat) (rnd : nat -> Q) (st : list Z * nat)
    : list Z * nat :=
  let '(data, cur) := st in
  let snapshot := data in
  let blurred := imap (fun i _ => ToUint8Clamp (blurDraw 5 snapshot w h i)) data in
  let saturated := foldl saturatePixel blurred (pixelIndices (length blurred)) in
  applyGrain 7 false rnd (saturated, cur).

(** [const gray = (idx) => (copy[idx] + copy[idx + 1] + copy[idx + 2]) / 3] *)
Definition gray (copy : list Z) (idx : nat) : Q :=
  (rd copy idx + rd copy (idx + 1) + rd copy (idx + 2)) / 3.

(** The value [val] that [applySketch] computes for the pixel at [(x, y)]. *)
Definition sketchVal (copy : list Z) (w : nat) (xy : nat * nat) : Q :=
  let '(x, y) := xy in
  let i := ((y * w + x) * 4)%nat in
  let stride := (w * 4)%nat in
  let tl := gray copy (i - stride - 4) in
  let tc := gray copy (i - stride) in
  let tr := gray copy (i - stride + 4) in
  let ml := gray copy (i - 4) in
  let mr := gray copy (i + 4) in
  let bl := gray copy (i + stride - 4) in
  let bc := gray copy (i + stride) in
  let br := gray copy (i + stride + 4) in
  let gx := - tl - 2 * ml - bl + tr + 2 * mr + br in
  let gy := - tl - 2 * tc - tr + bl + 2 * bc + br in
  let edge := Math_min 255 (Math_sqrt (gx * gx + gy * gy) * 1.6) in
  Math_max 0 (255 - edge * 2.8).

(** The body of the inner loop of [applySketch]:
    [data[i] = data[i + 1] = data[i + 2] = val]. *)
Definition sketchPixel (copy : list Z) (w : nat) (data : list Z)
    (xy : nat * nat) : list Z :=
  let i := ((snd xy * w + fst xy) * 4)%nat in
  let val := sketchVal copy w xy in
  wr (wr (wr data (i + 2) val) (i + 1) val) i val.

(** [function applySketch(ctx, w, h)]. *)
Definition applySketch (w h : nat) (data : list Z) : list Z :=
  let copy := data in
  foldl (sketchPixel copy w) data (interior w h).

(** The five pixel passes with their arguments. *)
Inductive Pass :=
  | Grain (intensity : Q) (colorGrain : bool)
  | Vignette (strength : Q)
  | Glow
  | Watercolor
  | Sketch.

(** A pass run on the [w] by [h] surface of the context. *)
Definition runPass (p : Pass) (w h : nat) (rnd : nat -> Q)
    (st : list Z * nat) : list Z * nat :=
  match p with
  | Grain intensity colorGrain => applyGrain intensity colorGrain rnd st
  | Vignette strength => (applyVignette w h strength (fst st), snd st)
  | Glow => (applyGlow w h (fst st), snd st)
  | Watercolor => applyWatercolor w h rnd st
  | Sketch => (applySketch w h (fst st), snd st)
  end.

(** The [apply] callbacks of the [FILTERS] table, by filter id. *)
Definition FILTERS : list (string * list Pass) :=
  [ ("none", []);
    ("film", [Grain 44 true; Vignette 0.58]);
    ("mono", [Vignette 0.62]);
    ("sepia", [Grain 22 false; Vignette 0.52]);
    ("soft", [Glow]);
    ("warm", [Vignette 0.42]);
    ("cool", []);
    ("watercolor", [Watercolor]);
    ("noise", [Grain 72 false]);
    ("sketch", [Sketch]) ].

(** [filter.apply(ctx, w, h)] for the filter with the given id. *)
Definition applyFilter (id : string) (w h : nat) (rnd : nat -> Q)
    (st : list Z * nat) : list Z * nat :=
  match list_find (fun f => bool_decide (fst f = id)) FILTERS with
  | Some (_, (_, passes)) => foldl (fun s p => runPass p w h rnd s) st passes
  | None => st
  end.

End Canvas2D.

(** A [w] by [h] surface filled with one opaque grey level. *)
Definition uniform (w h : nat) (v : Z) : list Z :=
  mjoin (replicate (w * h) [v; v; v; 255%Z]).

(** The grain pass as the specification words it for the default mode:
    every channel of every pixel gets a noise value of its own. *)
Definition grainPixel_independent (intensity : Q) (rnd : nat -> Q)
    (st : list Z * nat) (i : nat) : list Z * nat :=
  let '(data, cur) := st in
  let n1 := (rnd cur - 0.5) * intensity * 2 in
  let n2 := (rnd (cur + 1)%nat - 0.5) * intensity * 2 in
  let n3 := (rnd (cur + 2)%nat - 0.5) * intensity * 2 in
  let d1 := wr data i (Math_min 255 (Math_max 0 (rd data i + n1))) in
  let d2 := wr d1 (i + 1) (Math_min 255 (Math_max 0 (rd d1 (i + 1) + n2))) in
  let d3 := wr d2 (i + 2) (Math_min 255 (Math_max 0 (rd d2 (i + 2) + n3))) in
  (d3, (cur + 3)%nat).

Definition applyGrain_independent (intensity : Q) (rnd : nat -> Q)
    (st : list Z * nat) : list Z * nat :=
  foldl (grainPixel_independent intensity rnd) st (pixelIndices (length (fst st))).

End Filter.

(** ** Capture ([capture.js]) *)

Module Capture.

Import Js.
Local Open Scope Q_scope.

(** *** Crop and output size *)

Record Crop := { srcX : Z; srcY : Z; srcW : Z; srcH : Z }.

(** [const targetAspect = 4 / 3] *)
Definition targetAspect : Q := 4 / 3.

(** The crop rectangle [captureImage] computes from [videoW], [videoH]. *)
Definition cropRect (videoW videoH : Z) : Crop :=
  let videoAspect := inject_Z videoW / inject_Z videoH in
  if negb (Qle_bool videoAspect targetAspect) then
    let srcH := videoH in
    let srcW := Math_round (inject_Z videoH * targetAspect) in
    let srcX := Math_round ((inject_Z videoW - inject_Z srcW) / 2) in
    let srcY := 0%Z in
    {| srcX := srcX; srcY := srcY; srcW := srcW; srcH := srcH |}
  else
    let srcW := videoW in
    let srcH := Math_round (inject_Z videoW / targetAspect) in
    let srcX := 0%Z in
    let srcY := Math_round ((inject_Z videoH - inject_Z srcH) / 2) in
    {| srcX := srcX; srcY := srcY; srcW := srcW; srcH := srcH |}.

(** [const scale = Math.min(1920 / srcW, 1920 / srcH, 1)] *)
Definition outputScale (c : Crop) : Q :=
  Math_min (Math_min (1920 / inject_Z (srcW c)) (1920 / inject_Z (srcH c))) 1.

(** [outW], [outH] *)
Definition outputSize (c : Crop) : Z * Z :=
  let scale := outputScale c in
  (Math_round (inject_Z (srcW c) * scale), Math_round (inject_Z (srcH c) * scale)).

(** *** Caption ([drawMessageOnCanvas]) *)

Record Field := { enabled : bool; value : string }.

(** [messageConfig]; a field can be missing. *)
Record MessageConfig :=
  { date : option Field; text : option Field; location : option Field }.

(** [cfg.f && cfg.f.enabled && cfg.f.value] as a condition: a string is
    truthy when it is not empty. *)
Definition has (f : option Field) : bool :=
  match f with
  | Some f => enabled f && negb (String.eqb (value f) "")
  | None => false
  end.


(** The calls made on the 2D context. *)
Inductive CtxOp :=
  | Save
  | Restore
  | FillStyle (s : string)
  | StrokeStyle (s : string)
  | LineWidth (q : Q)
  | BeginPath
  | RoundRect (x y w h r : Q)
  | Rect (x y w h : Q)
  | Fill
  | Stroke
  | TextAlign (s : string)
  | TextBaseline (s : string)
  | Font (px : Z)
  | FillText (line : string) (x y : Q).


Section Caption.

(** [new Date(s)]: [None] when the result is an invalid date
    ([isNaN(d)]); and the template that prints year, month and day. *)
Variable JsDate : Type.
Variable newDate : string -> option JsDate.
Variable formatDate : JsDate -> string.
(** Whether the context has [roundRect]. *)
Variable hasRoundRect : bool.

(** The [lines] array. *)
Definition captionLines (cfg : MessageConfig) : list string :=
  (if has (date cfg) then
     match newDate (from_option value "" (date cfg)) with
     | Some d => [formatDate d]
     | None => []
     end
   else []) ++
  (if has (text cfg) then [from_option value "" (text cfg)] else []) ++
  (if has (location cfg) then [from_option value "" (location cfg)] else []).

(** The body of [lines.forEach((line, i) => ...)]. *)
Definition drawLine (width : Q) (baseFontSize : Z) (boxY lineH : Q)
    (i : nat) (line : string) : list CtxOp :=
  let y := boxY + inject_Z baseFontSize * 0.9
           + (inject_Z (Z.of_nat i) + 0.5) * lineH in
  [ Font baseFontSize;
    FillStyle "rgba(0,0,0,0.6)";
    FillText line (width / 2 + 1) (y + 1);
    FillStyle (if Nat.eqb i 0 then "#D4AF37" else "#FAF9F6");
    FillText line (width / 2) y ].

(** [function drawMessageOnCanvas(ctx, width, height)]: the calls made on
    [ctx], in order. *)
Definition drawMessageOnCanvas (messageConfig : option MessageConfig)
    (width height : Z) : list CtxOp :=
  match messageConfig with
  | None => []
  | Some cfg =>
      if negb (has (date cfg)) && negb (has (text cfg)) && negb (has (location cfg))
      then []
      else
        let baseFontSize := Math_round (inject_Z height * 0.028) in
        let lineH := inject_Z baseFontSize * 1.7 in
        let lines := captionLines cfg in
        if Nat.eqb (length lines) 0 then [Save; Restore]
        else
          let totalH := inject_Z (Z.of_nat (length lines)) * lineH
                        + inject_Z baseFontSize * 1.4 in
          let boxW := inject_Z width * 0.88 in
          let boxH := totalH + inject_Z baseFontSize in
          let boxX := (inject_Z width - boxW) / 2 in
          let boxY := inject_Z height - boxH - inject_Z height * 0.04 in
          [ Save;
            FillStyle "rgba(26, 35, 50, 0.72)";
            BeginPath;
            (if hasRoundRect then RoundRect boxX boxY boxW boxH 14
             else Rect boxX boxY boxW boxH);
            Fill;
            StrokeStyle "rgba(212, 175, 55, 0.7)";
            LineWidth 1.5;
            Stroke;
            TextAlign "center";
            TextBaseline "middle" ]
          ++ mjoin (imap (drawLine (inject_Z width) baseFontSize boxY lineH) lines)
          ++ [Restore]
  end.

End Caption.

(** *** Layered composition ([captureImage]) *)

(** How a call ends: normally, or by throwing. *)
Inductive outcome := Done | Thrown.

Inductive Alert :=
  | CameraNotReady   (* the alert of the precondition check *)
  | CaptureFailed.   (* the alert of the [catch] block *)

Section Compose.

(** The raster content of a canvas.  A drawing call returns the surface it
    leaves, which keeps what was drawn before a throw, and how it ended. *)
Variable Surface : Type.

Record Env := {
  (** [cameraVideo]: [videoWidth] and [videoHeight], [None] when the
      element is missing *)
  cameraVideo : option (Z * Z);
  (** [currentFacingMode === 'user'] *)
  userFacing : bool;
  (** [getCanvasFilterString()] *)
  filterStr : string;
  (** a new canvas of the given size *)
  blank : Z -> Z -> Surface;
  (** [ctx.drawImage(cameraVideo, srcX, srcY, srcW, srcH, 0, 0, outW, outH)]
      under [ctx.filter], mirrored or not *)
  drawVideo : bool -> string -> Crop -> Z -> Z -> Surface -> Surface * outcome;
  (** [getCurrentFilter().apply]; [None] when the filter has none or when
      [applyFilterToCanvas] or [getCurrentFilter] is not defined *)
  filterApply : option (Z -> Z -> Surface -> Surface * outcome);
  (** [drawFaceFilterOnCanvas(ctx, outW, outH)] *)
  drawFaceFilterOnCanvas : Z -> Z -> Surface -> Surface * outcome;
  (** [frameImage && frameImage.complete && frameImage.naturalWidth > 0] *)
  frameReady : bool;
  (** [ctx.drawImage(frameImage, 0, 0, outW, outH)] *)
  drawFrame : Z -> Z -> Surface -> Surface * outcome;
  (** one call on the 2D context *)
  execOp : CtxOp -> Surface -> Surface * outcome;
  (** [rCtx.drawImage(canvas, 0, 0)] onto the resized result canvas *)
  drawToResult : Surface -> Surface -> Surface * outcome
}.

(** What [captureImage] changes outside its own canvas. *)
Record App := {
  resultCanvas : Surface;
  screen : string;
  alerts : list Alert;
  captureBtn_disabled : bool
}.

(** A sequence of context calls, stopped by the first throw. *)
Fixpoint runOps (e : Env) (ops : list CtxOp) (s : Surface) : Surface * outcome :=
  match ops with
  | [] => (s, Done)
  | op :: ops' =>
      match execOp e op s with
      | (s', Done) => runOps e ops' s'
      | (s', Thrown) => (s', Thrown)
      end
  end.

(** [try { call } catch (_) {}] *)
Definition swallow (r : Surface * outcome) : Surface := fst r.

(** The [catch] block of [captureImage]. *)
Definition onError (app : App) : App :=
  {| resultCanvas := resultCanvas app;
     screen := screen app;
     alerts := alerts app ++ [CaptureFailed];
     captureBtn_disabled := false |}.

(** A call inside the [try] block: the rest runs only if it did not
    throw. *)
Definition guarded (r : Surface * outcome) (app : App) (k : Surface -> App) : App :=
  match r with
  | (s, Done) => k s
  | (_, Thrown) => onError app
  end.

Notation "'try!' s ':=' r 'of' app 'in' k" := (guarded r app (fun s => k))
  (at level 10, s name, r at level 100, app at level 0, k at level 200).

(** [function captureImage()], with the caption layer as an argument. *)
Definition compose (caption : Z -> Z -> Surface -> Surface * outcome)
    (e : Env) (app : App) : App :=
  match cameraVideo e with
  | Some (videoW, videoH) =>
      if (videoW =? 0)%Z || (videoH =? 0)%Z then
        {| resultCanvas := resultCanvas app; screen := screen app;
           alerts := alerts app ++ [CameraNotReady];
           captureBtn_disabled := false |}
      else
        let c := cropRect videoW videoH in
        let '(outW, outH) := outputSize c in
        let canvas := blank e outW outH in
        (* layer 1: camera frame *)
        try! canvas := drawVideo e (userFacing e) (filterStr e) c outW outH canvas of app in
        (* layer 1b: pixel pass *)
        try! canvas := match filterApply e with
                       | Some f => f outW outH canvas
                       | None => (canvas, Done)
                       end of app in
        (* layer 2: face decoration *)
        let canvas := swallow (drawFaceFilterOnCanvas e outW outH canvas) in
        (* layer 3: frame image *)
        let canvas := if frameReady e
                      then swallow (drawFrame e outW outH canvas)
                      else canvas in
        (* layer 4: caption *)
        let canvas := swallow (caption outW outH canvas) in
        (* transfer to the result canvas, resized first *)
        let resized := {| resultCanvas := blank e outW outH; screen := screen app;
                          alerts := alerts app;
                          captureBtn_disabled := captureBtn_disabled app |} in
        try! result := drawToResult e canvas (blank e outW outH) of resized in
        {| resultCanvas := result; screen := "result";
           alerts := alerts app;
           captureBtn_disabled := captureBtn_disabled app |}
  | None =>
      {| resultCanvas := resultCanvas app; screen := screen app;
         alerts := alerts app ++ [CameraNotReady];
         captureBtn_disabled := false |}
  end.

Section WithCaption.

Variable JsDate : Type.
Variable newDate : string -> option JsDate.
Variable formatDate : JsDate -> string.
Variable hasRoundRect : bool.

(** [function captureImage()] *)
Definition captureImage (messageConfig : option MessageConfig)
    (e : Env) (app : App) : App :=
  compose
    (fun w h s =>
       runOps e (drawMessageOnCanvas JsDate newDate formatDate hasRoundRect
                   messageConfig w h) s)
    e app.

End WithCaption.

End Compose.

Arguments cameraVideo {Surface} _.
Arguments userFacing {Surface} _.
Arguments filterStr {Surface} _.
Arguments blank {Surface} _ _ _.
Arguments drawVideo {Surface} _ _ _ _ _ _ _.
Arguments filterApply {Surface} _.
Arguments drawFaceFilterOnCanvas {Surface} _ _ _ _.
Arguments frameReady {Surface} _.
Arguments drawFrame {Surface} _ _ _ _.
Arguments execOp {Surface} _ _ _.
Arguments drawToResult {Surface} _ _ _.
Arguments resultCanvas {Surface} _.
Arguments screen {Surface} _.
Arguments alerts {Surface} _.
Arguments captureBtn_disabled {Surface} _.
Arguments runOps {Surface} _ _ _.
Arguments swallow {Surface} _.
Arguments onError {Surface} _.
Arguments guarded {Surface} _ _ _.
Arguments compose {Surface} _ _ _.
Arguments captureImage {Surface JsDate} _ _ _ _ _ _.

End Capture.

(** ** A capture session used in the examples

    Surfaces are the list of what has been drawn on them, oldest first. *)

Module Scenario.

Import Capture.

(** The environment of a capture on a 1920 by 1080 front camera with a
    frame image loaded and no pixel pass; [decoThrows] makes
    [drawFaceFilterOnCanvas] throw after its first strokes. *)
Definition env (decoThrows : bool) : Env (list string) :=
  {| cameraVideo := Some (1920%Z, 1080%Z);
     userFacing := true;
     filterStr := "none";
     blank := fun _ _ => [];
     drawVideo := fun _ _ _ _ _ s => (s ++ ["camera frame"], Done);
     filterApply := None;
     drawFaceFilterOnCanvas := fun _ _ s =>
       if decoThrows
       then (s ++ ["decoration, first strokes only"], Thrown)
       else (s ++ ["decoration"], Done);
     frameReady := true;
     drawFrame := fun _ _ s => (s ++ ["frame image"], Done);
     execOp := fun _ s => (s ++ ["caption call"], Done);
     drawToResult := fun src dst => (dst ++ src, Done) |}.

(** The same with a camera frame that cannot be drawn. *)
Definition envCameraThrows : Env (list string) :=
  {| cameraVideo := Some (1920%Z, 1080%Z);
     userFacing := true;
     filterStr := "none";
     blank := fun _ _ => [];
     drawVideo := fun _ _ _ _ _ s => (s, Thrown);
     filterApply := None;
     drawFaceFilterOnCanvas := fun _ _ s => (s ++ ["decoration"], Done);
     frameReady := true;
     drawFrame := fun _ _ s => (s ++ ["frame image"], Done);
     execOp := fun _ s => (s ++ ["caption call"], Done);
     drawToResult := fun src dst => (dst ++ src, Done) |}.

(** The same with a result canvas that cannot be drawn on. *)
Definition envTransferThrows : Env (list string) :=
  {| cameraVideo := Some (1920%Z, 1080%Z);
     userFacing := true;
     filterStr := "none";
     blank := fun _ _ => [];
     drawVideo := fun _ _ _ _ _ s => (s ++ ["camera frame"], Done);
     filterApply := None;
     drawFaceFilterOnCanvas := fun _ _ s => (s ++ ["decoration"], Done);
     frameReady := true;
     drawFrame := fun _ _ s => (s ++ ["frame image"], Done);
     execOp := fun _ s => (s ++ ["caption call"], Done);
     drawToResult := fun src dst => (dst, Thrown) |}.

(** The application when the countdown calls [captureImage]: the result
    canvas still holds the previous photo. *)
Definition app0 : App (list string) :=
  {| resultCanvas := ["previous photo"];
     screen := "camera";
     alerts := [];
     captureBtn_disabled := true |}.

(** A date parser that accepts exactly one string. *)
Definition newDate (s : string) : option string :=
  if String.eqb s "2026-02-19" then Some "2026-2-19" else None.

Definition formatDate (d : string) : string := d.



End Scenario.

(** ** Detection callback ([face-filter.js], [onFaceResults]) *)

Module Face.

Import Js.
Local Open Scope Q_scope.

Record BoundingBox := { xCenter : Q; yCenter : Q; width : Q; height : Q }.

Record Point := { x : Q; y : Q }.

(** [det.landmarks]: right eye, left eye, nose, mouth, right ear, left
    ear, as the detector delivers them. *)
Record Landmarks :=
  { lm0 : Point; lm1 : Point; lm2 : Point; lm3 : Point; lm4 : Point; lm5 : Point }.

Record Detection := { boundingBox : BoundingBox; landmarks : option Landmarks }.

(** [results.detections], possibly missing. *)
Record Results := { detections : option (list Detection) }.

(** The object handed to [drawDecoration]. *)
Record Frame := {
  bx : Q; by_ : Q; bw : Q; bh : Q;
  rex : Q; rey : Q; lex : Q; ley : Q;
  nx : Q; ny : Q; mx : Q; my : Q;
  eyeMidX : Q; eyeMidY : Q; eyeSep : Q;
  faceTop : Q; faceBot : Q; faceLeft : Q; faceRight : Q;
  W : Q; H : Q
}.

(** One call [drawDecoration(faceCtx, id, p)], under the mirroring
    transform or not. *)
Record Drawing := { decoration : string; frame : Frame; flipped : bool }.

(** The overlay canvas: its size and what has been drawn on it since it
    was last cleared. *)
Record FaceCanvas := { fc_width : Z; fc_height : Z; drawn : list Drawing }.

Record State := {
  (** [faceCanvas] with its context [faceCtx]; [None] when either is
      missing *)
  faceCanvas : option FaceCanvas;
  (** [_s] *)
  store : gmap string (option Q);
  currentDecorationId : string;
  (** [currentFacingMode === 'user'] *)
  userFacing : bool
}.

(** Computations that read and update [_s]. *)
Definition Smooth (A : Type) : Type :=
  gmap string (option Q) -> A * gmap string (option Q).

Definition ret {A} (a : A) : Smooth A := fun s => (a, s).

Definition bind {A B} (m : Smooth A) (k : A -> Smooth B) : Smooth B :=
  fun s => let '(a, s') := m s in k a s'.

Notation "'let*' a ':=' m 'in' k" := (bind m (fun a => k))
  (at level 10, a name, m at level 100, k at level 200).

(** [smoothVal] with [SMOOTH_ALPHA]. *)
Definition smoothVal (key : string) (v : Q) : Smooth Q :=
  Smoothing.smoothVal Q Qplus Qminus Qmult 1 Smoothing.SMOOTH_ALPHA key v.

(** [resetSmoothing] *)
Definition resetSmoothing (s : gmap string (option Q)) : gmap string (option Q) :=
  Smoothing.resetSmoothing Q s.

(** The body of [results.detections.forEach(det => ...)] up to the frame
    passed to [drawDecoration]. *)
Definition canonicalFrame (W H : Q) (det : Detection) : Smooth Frame :=
  let box := boundingBox det in
  let lm := landmarks det in
  let rBx := xCenter box * W in
  let rBy := yCenter box * H in
  let rBw := width box * W in
  let rBh := height box * H in
  let rRex := match lm with Some l => x (lm0 l) * W | None => rBx - rBw * 0.2 end in
  let rRey := match lm with Some l => y (lm0 l) * H | None => rBy - rBh * 0.1 end in
  let rLex := match lm with Some l => x (lm1 l) * W | None => rBx + rBw * 0.2 end in
  let rLey := match lm with Some l => y (lm1 l) * H | None => rBy - rBh * 0.1 end in
  let rNx := match lm with Some l => x (lm2 l) * W | None => rBx end in
  let rNy := match lm with Some l => y (lm2 l) * H | None => rBy + rBh * 0.07 end in
  let rMx := match lm with Some l => x (lm3 l) * W | None => rBx end in
  let rMy := match lm with Some l => y (lm3 l) * H | None => rBy + rBh * 0.28 end in
  let* bx := smoothVal "bx" rBx in
  let* by_ := smoothVal "by" rBy in
  let* bw := smoothVal "bw" rBw in
  let* bh := smoothVal "bh" rBh in
  let* rex := smoothVal "rex" rRex in
  let* rey := smoothVal "rey" rRey in
  let* lex := smoothVal "lex" rLex in
  let* ley := smoothVal "ley" rLey in
  let* nx := smoothVal "nx" rNx in
  let* ny := smoothVal "ny" rNy in
  let* mx := smoothVal "mx" rMx in
  let* my := smoothVal "my" rMy in
  let faceTop := by_ - bh * 0.5 in
  let faceBot := by_ + bh * 0.5 in
  let faceLeft := bx - bw * 0.5 in
  let faceRight := bx + bw * 0.5 in
  let eyeMidX := (rex + lex) / 2 in
  let eyeMidY := (rey + ley) / 2 in
  let eyeSep := Math_abs (rex - lex) in
  ret {| bx := bx; by_ := by_; bw := bw; bh := bh;
         rex := rex; rey := rey; lex := lex; ley := ley;
         nx := nx; ny := ny; mx := mx; my := my;
         eyeMidX := eyeMidX; eyeMidY := eyeMidY; eyeSep := eyeSep;
         faceTop := faceTop; faceBot := faceBot;
         faceLeft := faceLeft; faceRight := faceRight;
         W := W; H := H |}.

(** One iteration of the [forEach]: the frame is computed, then drawn. *)
Definition drawFace (id : string) (isFlipped : bool) (W H : Q)
    (acc : list Drawing * gmap string (option Q)) (det : Detection)
    : list Drawing * gmap string (option Q) :=
  let '(p, s') := canonicalFrame W H det (snd acc) in
  (fst acc ++ [{| decoration := id; frame := p; flipped := isFlipped |}], s').

(** [function onFaceResults(results)] *)
Definition onFaceResults (results : Results) (st : State) : State :=
  match faceCanvas st with
  | None => st
  | Some fc =>
      (* faceCtx.clearRect(0, 0, faceCanvas.width, faceCanvas.height) *)
      let cleared := {| fc_width := fc_width fc; fc_height := fc_height fc;
                        drawn := [] |} in
      match detections results with
      | None | Some [] =>
          {| faceCanvas := Some cleared;
             store := resetSmoothing (store st);
             currentDecorationId := currentDecorationId st;
             userFacing := userFacing st |}
      | Some dets =>
          if String.eqb (currentDecorationId st) "none" then
            {| faceCanvas := Some cleared;
               store := store st;
               currentDecorationId := currentDecorationId st;
               userFacing := userFacing st |}
          else
            let W := inject_Z (fc_width fc) in
            let H := inject_Z (fc_height fc) in
            let isFlipped := userFacing st in
            let '(drawings, s') :=
              foldl (drawFace (currentDecorationId st) isFlipped W H)
                    ([], store st) dets in
            {| faceCanvas := Some {| fc_width := fc_width fc;
                                     fc_height := fc_height fc;
                                     drawn := drawings |};
               store := s';
               currentDecorationId := currentDecorationId st;
               userFacing := userFacing st |}
      end
  end.

(** Successive detection cycles, oldest result first. *)
Definition cycles (rs : list Results) (st : State) : State :=
  foldl (fun st r => onFaceResults r st) st rs.

(** The overlay exists and shows nothing. *)
Definition overlayEmpty (st : State) : Prop :=
  match faceCanvas st with
  | Some fc => drawn fc = []
  | None => False
  end.

(** Every key of the store is uninitialised for [smoothVal]. *)
Definition storeCleared (st : State) : Prop :=
  forall key : string, Smoothing.is_null Q (store st) key = true.

(** Whether a result carries no detection. *)
Definition noDetections (r : Results) : bool :=
  match detections r with
  | None | Some [] => true
  | Some (_ :: _) => false
  end.

(** The keys of [_s] that [onFaceResults] uses, in the order of the calls
    of [smoothVal]. *)
Definition keys : list string :=
  ["bx"; "by"; "bw"; "bh"; "rex"; "rey"; "lex"; "ley"; "nx"; "ny"; "mx"; "my"].

(** The smoothed scalars of a frame, in the order of [keys]. *)
Definition smoothedFields (p : Frame) : list Q :=
  [bx p; by_ p; bw p; bh p; rex p; rey p; lex p; ley p; nx p; ny p; mx p; my p].

(** The raw pixel coordinates of a detection ([rBx], [rBy], ..., [rMy]),
    in the order of [keys]. *)
Definition rawFields (W H : Q) (det : Detection) : list Q :=
  let box := boundingBox det in
  let lm := landmarks det in
  let rBx := xCenter box * W in
  let rBy := yCenter box * H in
  let rBw := width box * W in
  let rBh := height box * H in
  [ rBx; rBy; rBw; rBh;
    match lm with Some l => x (lm0 l) * W | None => rBx - rBw * 0.2 end;
    match lm with Some l => y (lm0 l) * H | None => rBy - rBh * 0.1 end;
    match lm with Some l => x (lm1 l) * W | None => rBx + rBw * 0.2 end;
    match lm with Some l => y (lm1 l) * H | None => rBy - rBh * 0.1 end;
    match lm with Some l => x (lm2 l) * W | None => rBx end;
    match lm with Some l => y (lm2 l) * H | None => rBy + rBh * 0.07 end;
    match lm with Some l => x (lm3 l) * W | None => rBx end;
    match lm with Some l => y (lm3 l) * H | None => rBy + rBh * 0.28 end ].

(** Calls of [smoothVal] one after the other, on a list of keys with
    their raw values. *)
Fixpoint smoothAll (kvs : list (string * Q)) : Smooth (list Q) :=
  match kvs with
  | [] => ret []
  | (k, v) :: rest =>
      let* r := smoothVal k v in
      let* rs := smoothAll rest in
      ret (r :: rs)
  end.

(** The frames that the [forEach] computes for a list of detections,
    starting from a given store. *)
Fixpoint framesFrom (W H : Q) (s : gmap string (option Q))
    (dets : list Detection) : list Frame :=
  match dets with
  | [] => []
  | det :: dets' =>
      let '(p, s') := canonicalFrame W H det s in
      p :: framesFrom W H s' dets'
  end.

(** The store after the [forEach]. *)
Fixpoint storeAfter (W H : Q) (s : gmap string (option Q))
    (dets : list Detection) : gmap string (option Q) :=
  match dets with
  | [] => s
  | det :: dets' => storeAfter W H (snd (canonicalFrame W H det s)) dets'
  end.

(** The frames drawn on the overlay, in drawing order. *)
Definition frames (st : State) : list Frame :=
  match faceCanvas st with
  | Some fc => frame <$> drawn fc
  | None => []
  end.

(** A detection with no landmarks, from its box. *)
Definition boxOnly (xc yc w h : Q) : Detection :=
  {| boundingBox := {| xCenter := xc; yCenter := yc; width := w; height := h |};
     landmarks := None |}.

End Face.

(** ** Tracking loop control ([face-filter.js], [startFaceLoop],
       [stopFaceLoop], [syncFaceCanvas], [drawFaceFilterOnCanvas] and the
       click handler of [buildFaceFilterUI])

    The browser's animation-frame queue is the list of the handles that
    [requestAnimationFrame] has returned and that have neither run nor
    been cancelled. *)

Module FaceLoop.

Import Face.

Record Loop := {
  (** [faceCanvas], [faceCtx], [_s], [currentDecorationId] and the facing
      mode *)
  face : State;
  (** [faceDetector] is not null *)
  hasDetector : bool;
  faceFilterActive : bool;
  (** [faceAnimFrame]; a handle is never zero *)
  faceAnimFrame : option positive;
  (** the pending animation-frame callbacks *)
  pending : list positive;
  (** the handle the next [requestAnimationFrame] returns *)
  nextHandle : positive
}.

(** The overlay cleared by [faceCtx.clearRect(0, 0, width, height)], when
    context and canvas exist. *)
Definition clearOverlay (st : State) : State :=
  match faceCanvas st with
  | Some fc =>
      {| faceCanvas := Some {| fc_width := fc_width fc; fc_height := fc_height fc;
                               drawn := [] |};
         store := store st;
         currentDecorationId := currentDecorationId st;
         userFacing := userFacing st |}
  | None => st
  end.

(** [function stopFaceLoop()] *)
Definition stopFaceLoop (l : Loop) : Loop :=
  let cleared := clearOverlay (face l) in
  {| face := {| faceCanvas := faceCanvas cleared;
                store := resetSmoothing (store cleared);
                currentDecorationId := currentDecorationId cleared;
                userFacing := userFacing cleared |};
     hasDetector := hasDetector l;
     faceFilterActive := false;
     faceAnimFrame := None;
     pending := match faceAnimFrame l with
                | Some h => filter (fun h' => h' <> h) (pending l)
                | None => pending l
                end;
     nextHandle := nextHandle l |}.

(** [function startFaceLoop()], up to the registration of the callback. *)
Definition startFaceLoop (l : Loop) : Loop :=
  if negb (hasDetector l) || negb (faceFilterActive l) then l
  else
    {| face := face l;
       hasDetector := hasDetector l;
       faceFilterActive := faceFilterActive l;
       faceAnimFrame := Some (nextHandle l);
       pending := pending l ++ [nextHandle l];
       nextHandle := Pos.succ (nextHandle l) |}.

(** The click handler of a decoration item:
    [currentDecorationId = d.id], then [stopFaceLoop()] for 'none' and
    [faceFilterActive = true; startFaceLoop()] otherwise. *)
Definition selectDecoration (id : string) (l : Loop) : Loop :=
  let st := {| faceCanvas := faceCanvas (face l);
               store := store (face l);
               currentDecorationId := id;
               userFacing := userFacing (face l) |} in
  if String.eqb id "none" then
    stopFaceLoop {| face := st; hasDetector := hasDetector l;
                    faceFilterActive := faceFilterActive l;
                    faceAnimFrame := faceAnimFrame l;
                    pending := pending l; nextHandle := nextHandle l |}
  else
    startFaceLoop {| face := st; hasDetector := hasDetector l;
                     faceFilterActive := true;
                     faceAnimFrame := faceAnimFrame l;
                     pending := pending l; nextHandle := nextHandle l |}.

(** The detector delivering a result: [onFaceResults] on the tracked
    state. *)
Definition deliver (r : Results) (l : Loop) : Loop :=
  {| face := onFaceResults r (face l);
     hasDetector := hasDetector l;
     faceFilterActive := faceFilterActive l;
     faceAnimFrame := faceAnimFrame l;
     pending := pending l;
     nextHandle := nextHandle l |}.

(** [function syncFaceCanvas()]; [cameraVideo] gives [videoWidth] and
    [videoHeight], and assigning the size of a canvas clears it. *)
Definition syncFaceCanvas (cameraVideo : option (Z * Z)) (st : State) : State :=
  match faceCanvas st, cameraVideo with
  | Some fc, Some (videoWidth, videoHeight) =>
      let vw := if (videoWidth =? 0)%Z then fc_width fc else videoWidth in
      let vh := if (videoHeight =? 0)%Z then fc_height fc else videoHeight in
      if negb (fc_width fc =? vw)%Z || negb (fc_height fc =? vh)%Z then
        {| faceCanvas := Some {| fc_width := vw; fc_height := vh; drawn := [] |};
           store := store st;
           currentDecorationId := currentDecorationId st;
           userFacing := userFacing st |}
      else st
  | _, _ => st
  end.

(** A frame whose derived points are placed coherently around its
    smoothed box and eyes, on an overlay of size [W] by [H]: the eye
    midpoint lies between the eyes, the eye separation is not negative,
    and a box of non-negative size has its centre between its edges. *)
Definition consistent (W H : Q) (p : Frame) : Prop :=
  (0 <= eyeSep p
   /\ (Qmin (rex p) (lex p) <= eyeMidX p /\ eyeMidX p <= Qmax (rex p) (lex p))
   /\ (Qmin (rey p) (ley p) <= eyeMidY p /\ eyeMidY p <= Qmax (rey p) (ley p))
   /\ (0 <= bw p -> faceLeft p <= bx p /\ bx p <= faceRight p)
   /\ (0 <= bh p -> faceTop p <= by_ p /\ by_ p <= faceBot p)
   /\ (rex p <= lex p -> eyeSep p == lex p - rex p)
   /\ (lex p <= rex p -> eyeSep p == rex p - lex p))%Q
  /\ Face.W p = W /\ Face.H p = H.

(** [function drawFaceFilterOnCanvas(ctx, w, h)]: the overlay that is
    drawn, scaled to [w] by [h], onto the capture, if any. *)
Definition drawFaceFilterOnCanvas (st : State) : option FaceCanvas :=
  match faceCanvas st with
  | Some fc => if String.eqb (currentDecorationId st) "none" then None else Some fc
  | None => None
  end.

End FaceLoop.

(** ** Filter table look-up ([filter.js], [getCurrentFilter],
       [getCanvasFilterString], [applyFilterToPreview]) *)

Module FilterTable.

Import Filter.

Record FilterDef := { id : string; cssFilter : string; apply : list Pass }.

(** [const FILTERS]; an empty list of passes stands for [apply: null]. *)
Definition FILTER_DEFS : list FilterDef :=
  [ {| id := "none"; cssFilter := "none"; apply := [] |};
    {| id := "film";
       cssFilter := "contrast(1.5) saturate(0.72) brightness(0.85) sepia(38%)";
       apply := [Grain 44 true; Vignette 0.58] |};
    {| id := "mono";
       cssFilter := "grayscale(100%) contrast(1.8) brightness(1.05)";
       apply := [Vignette 0.62] |};
    {| id := "sepia";
       cssFilter := "sepia(100%) contrast(1.32) brightness(0.84) saturate(1.55)";
       apply := [Grain 22 false; Vignette 0.52] |};
    {| id := "soft";
       cssFilter := "brightness(1.42) saturate(1.65) contrast(0.76)";
       apply := [Glow] |};
    {| id := "warm";
       cssFilter := "sepia(58%) saturate(2.4) hue-rotate(-22deg) brightness(1.14) contrast(1.1)";
       apply := [Vignette 0.42] |};
    {| id := "cool";
       cssFilter := "hue-rotate(38deg) saturate(2.1) brightness(1.06) contrast(1.22)";
       apply := [] |};
    {| id := "watercolor";
       cssFilter := "saturate(2.5) brightness(1.2) contrast(0.7)";
       apply := [Watercolor] |};
    {| id := "noise";
       cssFilter := "contrast(1.38) brightness(0.88) saturate(0.65)";
       apply := [Grain 72 false] |};
    {| id := "sketch";
       cssFilter := "grayscale(100%) contrast(2.3) brightness(1.22)";
       apply := [Sketch] |} ].

(** [FILTERS.find(f => f.id === currentFilterId) || FILTERS[0]] *)
Definition getCurrentFilter (currentFilterId : string) : FilterDef :=
  match find (fun f => String.eqb (id f) currentFilterId) FILTER_DEFS with
  | Some f => f
  | None => {| id := "none"; cssFilter := "none"; apply := [] |}
  end.

(** [function getCanvasFilterString()] *)
Definition getCanvasFilterString (currentFilterId : string) : string :=
  let filter := getCurrentFilter currentFilterId in
  if String.eqb (cssFilter filter) "none" then "none" else cssFilter filter.

(** The value [applyFilterToPreview] assigns to [cameraVideo.style.filter]. *)
Definition previewFilter (currentFilterId : string) : string :=
  let filter := getCurrentFilter currentFilterId in
  if String.eqb (cssFilter filter) "none" then "" else cssFilter filter.

End FilterTable.

(** ** The earlier watercolor pass ([filter.js], first version of
       [applyWatercolor]): a 3 by 3 box blur read from a copy *)

Module BoxBlur.

Import Js Filter.
Local Open Scope Q_scope.

(** The mean of the nine cells around cell [i + c]. *)
Definition boxMean (copy : list Z) (w i c : nat) : Q :=
  let stride := (w * 4)%nat in
  (rd copy (i - stride - 4 + c) + rd copy (i - stride + c) + rd copy (i - stride + 4 + c) +
   rd copy (i - 4 + c)          + rd copy (i + c)          + rd copy (i + 4 + c) +
   rd copy (i + stride - 4 + c) + rd copy (i + stride + c) + rd copy (i + stride + 4 + c))
  / 9.

(** The body of the two outer loops: the loop over [c = 0, 1, 2]. *)
Definition blurPixel (copy : list Z) (w : nat) (data : list Z)
    (xy : nat * nat) : list Z :=
  let i := ((snd xy * w + fst xy) * 4)%nat in
  let d0 := wr data (i + 0) (inject_Z (Math_round (boxMean copy w i 0))) in
  let d1 := wr d0 (i + 1) (inject_Z (Math_round (boxMean copy w i 1))) in
  wr d1 (i + 2) (inject_Z (Math_round (boxMean copy w i 2))).

(** [function applyWatercolor(ctx, w, h)], first version. *)
Definition applyWatercolor (w h : nat) (data : list Z) : list Z :=
  let copy := data in
  foldl (blurPixel copy w) data (interior w h).

End BoxBlur.

(** ** Saving ([capture.js], [pad2], [downloadImage]) *)

Module Save.

(** [String(n)] for a natural number. *)
Definition String_of_nat (n : nat) : string :=
  DecimalString.NilZero.string_of_uint (Nat.to_uint n).

(** [s.padStart(targetLength, '0')] *)
Definition padStart0 (targetLength : nat) (s : string) : string :=
  String.concat "" (replicate (targetLength - String.length s) "0"%string) +:+ s.

(** [function pad2(n)] *)
Definition pad2 (n : nat) : string := padStart0 2 (String_of_nat n).

(** The fields of [new Date()] that the file name uses; [month] is
    [getMonth()], from 0. *)
Record Now := {
  fullYear : nat; month : nat; date : nat;
  hours : nat; minutes : nat; seconds : nat
}.

Definition dateStr (now : Now) : string :=
  String_of_nat (fullYear now) +:+ pad2 (month now + 1) +:+ pad2 (date now).

Definition timeStr (now : Now) : string :=
  pad2 (hours now) +:+ pad2 (minutes now) +:+ pad2 (seconds now).

(** [sessionStorage.getItem('restaurantName') || 'Photo'] *)
Definition restName (stored : option string) : string :=
  match stored with
  | Some name => if String.eqb name "" then "Photo" else name
  | None => "Photo"
  end.

Definition filename (stored : option string) (now : Now) : string :=
  "ShinagawaPrince_" +:+ restName stored +:+ "_" +:+ dateStr now
  +:+ "_" +:+ timeStr now +:+ ".jpg".

(** How [navigator.share] ends. *)
Inductive ShareOutcome := Shared | AbortError | OtherError.

Record SaveEnv := {
  (** [resultCanvas && resultCanvas.width] *)
  hasResult : bool;
  (** the download button exists *)
  hasBtn : bool;
  (** [toBlob] delivers a blob *)
  blobOk : bool;
  (** [navigator.canShare && navigator.canShare({ files: [file] })] *)
  canShare : bool;
  shareOutcome : ShareOutcome
}.

(** What the user sees of a run of [downloadImage]. *)
Inductive Effect :=
  | AlertNoImage
  | AlertSaveFailed
  | BtnSaving            (* disabled, label "saving" *)
  | BtnReady             (* enabled, label restored *)
  | ShareSheet (name : string)
  | DownloadLink (name : string).

(** [async function downloadImage()]: the effects, in order. *)
Definition downloadImage (e : SaveEnv) (stored : option string) (now : Now)
    : list Effect :=
  if negb (hasResult e) then [AlertNoImage]
  else
    let name := filename stored now in
    (if hasBtn e then [BtnSaving] else [])
    ++ (if negb (blobOk e) then [AlertSaveFailed]
        else if canShare e then
          match shareOutcome e with
          | Shared => [ShareSheet name]
          | AbortError => [ShareSheet name]
          | OtherError => [ShareSheet name; DownloadLink name]
          end
        else [DownloadLink name])
    ++ (if hasBtn e then [BtnReady] else []).

End Save.

(** ** Reading a decimal numeral back *)

Module Parse.

(** The number a string of decimal digits denotes; [None] for the empty
    string and for a string with another character. *)
Definition parseNat (s : string) : option nat :=
  Nat.of_uint <$> DecimalString.NilZero.uint_of_string s.

End Parse.

(** ** Reading a log of context calls *)

Module CaptionOps.

Import Capture.

Definition isSave (op : CtxOp) : bool :=
  match op with Save => true | _ => false end.

Definition isRestore (op : CtxOp) : bool :=
  match op with Restore => true | _ => false end.

Definition isFillText (op : CtxOp) : bool :=
  match op with FillText _ _ _ => true | _ => false end.

(** The number of calls of one kind. *)
Definition count (p : CtxOp -> bool) (ops : list CtxOp) : nat :=
  length (List.filter p ops).

(** The rectangle of the first [roundRect] or [rect] call. *)
Fixpoint panel (ops : list CtxOp) : option (Q * Q * Q * Q) :=
  match ops with
  | [] => None
  | RoundRect x y w h _ :: _ => Some (x, y, w, h)
  | Rect x y w h :: _ => Some (x, y, w, h)
  | _ :: ops' => panel ops'
  end.

(** The [fillText] calls of a log, each with the fill style in force
    when it is made: style, text, x, y.  [save] and [restore] keep the
    style on a stack. *)
Fixpoint textCalls (saved : list string) (style : string) (ops : list CtxOp)
    : list (string * string * Q * Q) :=
  match ops with
  | [] => []
  | Save :: ops' => textCalls (style :: saved) style ops'
  | Restore :: ops' =>
      match saved with
      | s :: saved' => textCalls saved' s ops'
      | [] => textCalls [] style ops'
      end
  | FillStyle s :: ops' => textCalls saved s ops'
  | FillText line x y :: ops' => (style, line, x, y) :: textCalls saved style ops'
  | _ :: ops' => textCalls saved style ops'
  end.

(** The texts written, in order, on a context in its initial state. *)
Definition written (ops : list CtxOp) : list string :=
  (fun c => snd (fst (fst c))) <$> textCalls [] "#000000" ops.

End CaptionOps.

(* ====================================================================== *)
(** * Part II: properties *)
(* ====================================================================== *)

(** ** Facts about the number helpers *)

Section JsFacts.

Import Js.
Local Open Scope Q_scope.

Lemma Math_round_bounds (q : Q) :
  inject_Z (Math_round q) <= q + 0.5 /\ q + 0.5 < inject_Z (Math_round q) + 1.
Proof.
  unfold Math_round. split.
  - apply Qfloor_le.
  - pose proof (Qlt_floor (q + 0.5)) as Hlt.
    rewrite inject_Z_plus in Hlt. exact Hlt.
Qed.

Lemma Math_round_unique (q : Q) (k : Z) :
  inject_Z k <= q + 0.5 -> q + 0.5 < inject_Z k + 1 -> Math_round q = k.
Proof.
  intros Hlo Hhi.
  destruct (Math_round_bounds q) as [Rlo Rhi].
  assert (H1 : inject_Z (Math_round q) < inject_Z (k + 1)).
  { rewrite inject_Z_plus. change (inject_Z 1) with 1. lra. }
  assert (H2 : inject_Z k < inject_Z (Math_round q + 1)).
  { rewrite inject_Z_plus. change (inject_Z 1) with 1. lra. }
  rewrite <- Zlt_Qlt in H1, H2. lia.
Qed.

Lemma Math_round_inject (z : Z) : Math_round (inject_Z z) = z.
Proof. apply Math_round_unique; lra. Qed.

Lemma Math_min_cases (a b : Q) :
  (a <= b /\ Math_min a b = a) \/ (b < a /\ Math_min a b = b).
Proof.
  unfold Math_min. destruct (Qle_bool a b) eqn:E.
  - left. split; [by apply Qle_bool_iff|done].
  - right. split; [|done].
    apply Qnot_le_lt. intros Hle. apply Qle_bool_iff in Hle. congruence.
Qed.

Lemma Math_max_cases (a b : Q) :
  (a <= b /\ Math_max a b = b) \/ (b < a /\ Math_max a b = a).
Proof.
  unfold Math_max. destruct (Qle_bool a b) eqn:E.
  - left. split; [by apply Qle_bool_iff|done].
  - right. split; [|done].
    apply Qnot_le_lt. intros Hle. apply Qle_bool_iff in Hle. congruence.
Qed.

(** Whatever is stored in a clamped byte array is a byte. *)
Lemma ToUint8Clamp_range (q : Q) : (0 <= ToUint8Clamp q <= 255)%Z.
Proof.
  unfold ToUint8Clamp.
  destruct (Qle_bool q 0) eqn:E0; [lia|].
  destruct (Qle_bool 255 q) eqn:E1; [lia|].
  assert (H0 : 0 < q).
  { apply Qnot_le_lt. intros Hle. apply Qle_bool_iff in Hle. congruence. }
  assert (H1 : q < 255).
  { apply Qnot_le_lt. intros Hle. apply Qle_bool_iff in Hle. congruence. }
  assert (Hf0 : (0 <= Qfloor q)%Z).
  { change 0%Z with (Qfloor 0). apply Qfloor_resp_le. lra. }
  assert (Hf1 : (Qfloor q <= 254)%Z).
  { pose proof (Qfloor_le q) as Hle.
    assert (Hlt : inject_Z (Qfloor q) < inject_Z 255)
      by (change (inject_Z 255) with 255; lra).
    rewrite <- Zlt_Qlt in Hlt. lia. }
  repeat match goal with |- context [if ?b then _ else _] => destruct b end; lia.
Qed.

(** A byte read back as a number is stored unchanged. *)
Lemma ToUint8Clamp_inject (z : Z) :
  (0 <= z <= 255)%Z -> ToUint8Clamp (inject_Z z) = z.
Proof.
  intros Hz. unfold ToUint8Clamp.
  destruct (Qle_bool (inject_Z z) 0) eqn:E0.
  { apply Qle_bool_iff in E0. change 0 with (inject_Z 0) in E0.
    rewrite <- Zle_Qle in E0. lia. }
  destruct (Qle_bool 255 (inject_Z z)) eqn:E1.
  { apply Qle_bool_iff in E1. change 255 with (inject_Z 255) in E1.
    rewrite <- Zle_Qle in E1. lia. }
  rewrite Qfloor_Z.
  assert (Hd : inject_Z z - inject_Z z == 0) by ring.
  destruct (Qle_bool (inject_Z z - inject_Z z) 0.5) eqn:E2.
  - destruct (Qle_bool 0.5 (inject_Z z - inject_Z z)) eqn:E3; [|done].
    apply Qle_bool_iff in E3. rewrite Hd in E3. lra.
  - assert (Hle : inject_Z z - inject_Z z <= 0.5) by (rewrite Hd; lra).
    apply Qle_bool_iff in Hle. congruence.
Qed.

End JsFacts.

(** ** The smoothing store *)

Section SmoothingFacts.

Import Smoothing.

(** Facts that hold for any number type. *)
Section Generic.

Context {num : Type} (add sub mul : num -> num -> num) (one alpha : num).

Local Abbreviation smoothVal' := (smoothVal num add sub mul one alpha).
Local Abbreviation smoothed' := (smoothed num add sub mul one alpha).
Local Abbreviation nth_return' := (nth_return num add sub mul one alpha).

Lemma is_null_reset (s : gmap string (option num)) (key : string) :
  is_null num (resetSmoothing num s) key = true.
Proof.
  unfold is_null, resetSmoothing. rewrite lookup_fmap.
  by destruct (s !! key).
Qed.

Lemma smoothed_null (s : gmap string (option num)) (key : string) (v : num) :
  is_null num s key = true -> smoothed' s key v = v.
Proof.
  unfold is_null, smoothed. by destruct (s !! key) as [[?|]|].
Qed.

Lemma smoothVal_lookup (s : gmap string (option num)) (key : string) (v : num) :
  snd (smoothVal' key v s) !! key = Some (Some (fst (smoothVal' key v s))).
Proof. unfold smoothVal. simpl. by rewrite lookup_insert_eq. Qed.

Lemma smoothVal_lookup_ne (s : gmap string (option num)) (key k : string) (v : num) :
  k <> key -> snd (smoothVal' key v s) !! k = s !! k.
Proof. intros Hne. unfold smoothVal. simpl. by rewrite lookup_insert_ne. Qed.

(** The value returned by call [n] of a constant run is the recurrence
    applied [n + 1] times to the stored value. *)
Lemma nth_return_iter (n : nat) (key : string) (v prev : num)
    (s : gmap string (option num)) :
  s !! key = Some (Some prev) ->
  nth_return' n key v s
  = Nat.iter (S n) (fun x => add (mul x (sub one alpha)) (mul v alpha)) prev.
Proof.
  revert prev s. induction n as [|n IH]; intros prev s Hs.
  - simpl. unfold smoothed. by rewrite Hs.
  - cbn [nth_return].
    rewrite (IH (add (mul prev (sub one alpha)) (mul v alpha))).
    + by rewrite !Nat.iter_succ_r.
    + rewrite smoothVal_lookup. simpl. unfold smoothed. by rewrite Hs.
Qed.

End Generic.

End SmoothingFacts.

Section PlainObject.

Import SmoothingJs.

Lemma not_proto (key : string) :
  key ∉ Object_prototype_names -> String.eqb key "__proto__" = false.
Proof.
  intros Hk. apply String.eqb_neq. intros ->. apply Hk.
  unfold Object_prototype_names. do 7 right. left.
Qed.

(** A read of a key that [Object.prototype] does not define sees the
    entries of [_s] only. *)
Lemma get_plain (s : gmap string (option float)) (key : string) :
  key ∉ Object_prototype_names ->
  get s key = match s !! key with
              | Some (Some x) => Number x
              | Some None => Null
              | None => Undefined
              end.
Proof.
  intros Hk. unfold get. destruct (s !! key) as [[x|]|]; try done.
  by rewrite bool_decide_false.
Qed.

(** On such a key the plain object and the store of its entries are the
    same function. *)
Lemma smoothVal_plain (s : gmap string (option float)) (key : string) (v : float) :
  key ∉ Object_prototype_names ->
  smoothVal key v s
  = (Number (fst (Smoothing.smoothVal_f64 key v s)),
     snd (Smoothing.smoothVal_f64 key v s)).
Proof.
  intros Hk. unfold smoothVal, Smoothing.smoothVal_f64, Smoothing.smoothVal,
    Smoothing.smoothed, set. cbv zeta. cbn [fst snd].
  rewrite (not_proto key Hk), !(get_plain _ key Hk), lookup_insert_eq.
  destruct (s !! key) as [[x|]|]; reflexivity.
Qed.

End PlainObject.

(** C3, as it holds of the code: for every key that [Object.prototype]
    does not define (the twelve keys of [onFaceResults] are such),
    [smoothVal(key, v)] returns [v] when the key is uninitialised (never
    used, or set to null by [resetSmoothing]), otherwise
    [previous * (1 - 0.38) + v * 0.38] as binary64 evaluates it, and
    stores what it returns under the key, leaving the other keys alone.
    The store in exact arithmetic, which the overlay geometry is stated
    in, has the same contract. *)
Theorem smoothVal_contract (s : gmap string (option float))
    (sq : gmap string (option Q)) (key : string) (v : float) (vq : Q) :
  key ∉ SmoothingJs.Object_prototype_names ->
  let x := match s !! key with
           | Some (Some previous) => (previous * (1 - 0.38) + v * 0.38)%float
           | _ => v
           end in
  let r := fst (Face.smoothVal key vq sq) in
  let s' := snd (Face.smoothVal key vq sq) in
  SmoothingJs.smoothVal key v s = (SmoothingJs.Number x, <[key := Some x]> s)
  /\ snd (SmoothingJs.smoothVal key v s) !! key = Some (Some x)
  /\ (forall k, k <> key -> snd (SmoothingJs.smoothVal key v s) !! k = s !! k)
  /\ fst (SmoothingJs.smoothVal key v ∅) = SmoothingJs.Number v
  /\ fst (SmoothingJs.smoothVal key v (SmoothingJs.resetSmoothing s))
     = SmoothingJs.Number v
  /\ fst (SmoothingJs.smoothVal key v
            (SmoothingJs.resetSmoothing (snd (SmoothingJs.smoothVal key v s))))
     = SmoothingJs.Number v
  /\ r = match sq !! key with
         | Some (Some previous) => (previous * (1 - 0.38) + vq * 0.38)%Q
         | _ => vq
         end
  /\ s' = <[key := Some r]> sq
  /\ s' !! key = Some (Some r)
  /\ fst (Face.smoothVal key vq ∅) = vq
  /\ fst (Face.smoothVal key vq (Face.resetSmoothing sq)) = vq
  /\ fst (Face.smoothVal key vq (Face.resetSmoothing s')) = vq.
Proof.
  intros Hk. cbv zeta.
  assert (Hcode : forall t,
    SmoothingJs.smoothVal key v t
    = (SmoothingJs.Number
         match t !! key with
         | Some (Some previous) => (previous * (1 - 0.38) + v * 0.38)%float
         | _ => v
         end,
       <[key := Some match t !! key with
                     | Some (Some previous) => (previous * (1 - 0.38) + v * 0.38)%float
                     | _ => v
                     end]> t)).
  { intros t. rewrite (smoothVal_plain t key v Hk).
    unfold Smoothing.smoothVal_f64, Smoothing.smoothVal, Smoothing.smoothed.
    cbn [fst snd]. destruct (t !! key) as [[x|]|]; reflexivity. }
  assert (Hreset : forall t,
    fst (SmoothingJs.smoothVal key v (SmoothingJs.resetSmoothing t))
    = SmoothingJs.Number v).
  { intros t. rewrite Hcode. cbn [fst].
    unfold SmoothingJs.resetSmoothing, Smoothing.resetSmoothing.
    rewrite lookup_fmap. by destruct (t !! key). }
  split; [apply Hcode|].
  split; [rewrite Hcode; apply lookup_insert_eq|].
  split; [intros k Hne; rewrite Hcode; by apply lookup_insert_ne|].
  split; [by rewrite Hcode, lookup_empty|].
  split; [apply Hreset|]. split; [apply Hreset|].
  repeat split.
  - apply lookup_insert_eq.
  - apply smoothed_null, is_null_reset.
  - apply smoothed_null, is_null_reset.
Qed.

(** The key "bx" with 10 stored and the raw value 20. *)
Lemma smoothVal_contract_witness :
  SmoothingJs.smoothVal "bx" 20%float {[ "bx" := Some 10%float ]}
  = (SmoothingJs.Number (10 * (1 - 0.38) + 20 * 0.38)%float,
     <["bx" := Some (10 * (1 - 0.38) + 20 * 0.38)%float]> {[ "bx" := Some 10%float ]})
  /\ fst (Face.smoothVal "bx" 20 {[ "bx" := Some 10%Q ]})
     = (10 * (1 - 0.38) + 20 * 0.38)%Q.
Proof.
  assert (Hk : "bx" ∉ SmoothingJs.Object_prototype_names).
  { apply (bool_decide_unpack _). vm_compute. exact I. }
  destruct (smoothVal_contract {[ "bx" := Some 10%float ]} {[ "bx" := Some 10%Q ]}
              "bx" 20%float 20%Q Hk) as (H1 & _ & _ & _ & _ & _ & H7 & _).
  split; [exact H1|exact H7].
Defined.

(** C3 as stated fails at the keys [Object.prototype] defines: on a
    fresh store [smoothVal('toString', 5)] finds the inherited method,
    which is not null, and returns NaN instead of the raw value; and
    [smoothVal('__proto__', 5)] returns [Object.prototype] and stores
    nothing. *)
Lemma smoothVal_inherited_key :
  SmoothingJs.smoothVal "toString" 5%float ∅
  = (SmoothingJs.Number PrimFloat.nan, {[ "toString" := Some PrimFloat.nan ]})
  /\ fst (SmoothingJs.smoothVal "toString" 5%float ∅) <> SmoothingJs.Number 5%float
  /\ SmoothingJs.smoothVal "__proto__" 5%float ∅ = (SmoothingJs.Object, ∅).
Proof.
  split; [|split].
  - vm_compute. reflexivity.
  - intros Heq.
    apply (f_equal (fun x => match x with
                             | SmoothingJs.Number f => PrimFloat.eqb f 5%float
                             | _ => false
                             end)) in Heq.
    vm_compute in Heq. discriminate Heq.
  - vm_compute. reflexivity.
Qed.

(** ** The recurrence of the store in exact arithmetic *)

Section Recurrence.

Import Smoothing.
Local Open Scope Q_scope.

Variables (alpha v : Q).
Hypothesis alpha_pos : 0 < alpha.
Hypothesis alpha_lt_1 : alpha < 1.

Local Abbreviation step := (ema alpha v).

Lemma ema_error (x : Q) : step x - v == (1 - alpha) * (x - v).
Proof. unfold ema. ring. Qed.

Lemma ema_abs_error (x : Q) : Qabs (step x - v) == (1 - alpha) * Qabs (x - v).
Proof using alpha_lt_1.
  rewrite ema_error, Qabs_Qmult, (Qabs_pos (1 - alpha)); [reflexivity|lra].
Qed.

Lemma ema_abs_error_le (x : Q) : Qabs (step x - v) <= Qabs (x - v).
Proof using alpha_pos alpha_lt_1.
  rewrite ema_abs_error. pose proof (Qabs_nonneg (x - v)). nra.
Qed.

Lemma ema_iter_abs_le (n : nat) (x : Q) :
  Qabs (Nat.iter n step x - v) <= Qabs (x - v).
Proof using alpha_pos alpha_lt_1.
  induction n as [|n IH]; [apply Qle_refl|]. rewrite Nat.iter_succ.
  eapply Qle_trans; [apply ema_abs_error_le|exact IH].
Qed.

(** Bernoulli's bound: after [n] steps the error is at most the initial
    error divided by [1 + n * alpha]. *)
Lemma ema_iter_bernoulli (n : nat) (x : Q) :
  Qabs (Nat.iter n step x - v) * (1 + inject_Z (Z.of_nat n) * alpha)
  <= Qabs (x - v).
Proof using alpha_pos alpha_lt_1.
  induction n as [|n IH].
  - change (Nat.iter 0 step x) with x. change (inject_Z (Z.of_nat 0)) with 0. lra.
  - rewrite Nat2Z.inj_succ. unfold Z.succ. rewrite inject_Z_plus.
    change (inject_Z 1) with 1. rewrite Nat.iter_succ.
    rewrite ema_abs_error.
    pose proof (ema_iter_abs_le n x) as Hle.
    pose proof (Qabs_nonneg (Nat.iter n step x - v)) as H0.
    set (e := Qabs (Nat.iter n step x - v)) in *.
    set (e0 := Qabs (x - v)) in *.
    set (m := inject_Z (Z.of_nat n)) in *.
    assert (Hm : 0 <= m).
    { subst m. change 0 with (inject_Z 0). rewrite <- Zle_Qle. lia. }
    nra.
Qed.

Lemma ema_iter_converges (x eps : Q) :
  0 < eps -> exists N : nat, forall n : nat, (N <= n)%nat ->
  Qabs (Nat.iter n step x - v) < eps.
Proof using alpha_pos alpha_lt_1.
  intros Heps.
  set (e0 := Qabs (x - v)).
  set (b := e0 / (eps * alpha)).
  exists (Z.to_nat (Qfloor b + 1)).
  intros n Hn.
  pose proof (ema_iter_bernoulli n x) as Hb. fold e0 in Hb.
  pose proof (Qabs_nonneg (Nat.iter n step x - v)) as H0.
  pose proof (Qabs_nonneg (x - v)) as He0. fold e0 in He0.
  set (e := Qabs (Nat.iter n step x - v)) in *.
  assert (Hbn : b < inject_Z (Z.of_nat n)).
  { pose proof (Qlt_floor b) as Hlt.
    eapply Qlt_le_trans; [exact Hlt|].
    rewrite <- Zle_Qle. lia. }
  assert (Hprod : e0 < inject_Z (Z.of_nat n) * (eps * alpha)).
  { assert (Hpos : 0 < eps * alpha) by nra.
    assert (Heq : e0 == b * (eps * alpha)).
    { subst b. field. nra. }
    rewrite Heq. nra. }
  set (m := inject_Z (Z.of_nat n)) in *.
  assert (Hm : 0 <= m).
  { subst m. change 0 with (inject_Z 0). rewrite <- Zle_Qle. lia. }
  apply Qnot_le_lt. intros Hge. nra.
Qed.

(** From below the values rise towards [v] without passing it, from above
    they fall. *)
Lemma ema_iter_below (n : nat) (x : Q) :
  x <= v -> Nat.iter n step x <= Nat.iter (S n) step x /\ Nat.iter (S n) step x <= v.
Proof using alpha_pos alpha_lt_1.
  intros Hx.
  assert (Hn : Nat.iter n step x <= v).
  { induction n as [|n IH]; [exact Hx|].
    rewrite Nat.iter_succ. set (y := Nat.iter n step x) in *. unfold ema. nra. }
  rewrite Nat.iter_succ. set (y := Nat.iter n step x) in *. unfold ema. split; nra.
Qed.

Lemma ema_iter_above (n : nat) (x : Q) :
  v <= x -> Nat.iter (S n) step x <= Nat.iter n step x /\ v <= Nat.iter (S n) step x.
Proof using alpha_pos alpha_lt_1.
  intros Hx.
  assert (Hn : v <= Nat.iter n step x).
  { induction n as [|n IH]; [exact Hx|].
    rewrite Nat.iter_succ. set (y := Nat.iter n step x) in *. unfold ema. nra. }
  rewrite Nat.iter_succ. set (y := Nat.iter n step x) in *. unfold ema. split; nra.
Qed.

Lemma ema_iter_fixed (n : nat) (x : Q) : x == v -> Nat.iter n step x == v.
Proof.
  intros Hx. induction n as [|n IH]; [exact Hx|].
  rewrite Nat.iter_succ. set (y := Nat.iter n step x) in *. unfold ema.
  rewrite IH. ring.
Qed.

End Recurrence.

Lemma nth_returnQ_iter (alpha : Q) (n : nat) (key : string) (v prev : Q)
    (s : gmap string (option Q)) :
  s !! key = Some (Some prev) ->
  Smoothing.nth_returnQ alpha n key v s
  = Nat.iter (S n) (Smoothing.ema alpha v) prev.
Proof. intros Hs. unfold Smoothing.nth_returnQ. by erewrite nth_return_iter. Qed.

(** The recurrence without rounding: in exact arithmetic, for every
    factor alpha strictly between 0 and 1, every key with a stored value
    and every constant input v, the error of the values returned by
    repeated [smoothVal(key, v)] is multiplied by (1 - alpha) at each
    call, its absolute value never grows and gets below any positive
    bound, the values stay on the side of v where the stored value was,
    and v is a fixed point ([==] is equality of rationals). *)
Lemma smoothing_converges_exact (alpha : Q) (key : string) (v x0 : Q)
    (s : gmap string (option Q)) :
  (0 < alpha)%Q -> (alpha < 1)%Q -> s !! key = Some (Some x0) ->
  let r := fun n => Smoothing.nth_returnQ alpha n key v s in
  (r 0%nat - v == (1 - alpha) * (x0 - v))%Q
  /\ (forall n, r (S n) - v == (1 - alpha) * (r n - v))%Q
  /\ (forall n, Qabs (r (S n) - v) == (1 - alpha) * Qabs (r n - v))%Q
  /\ (forall n, Qabs (r (S n) - v) <= Qabs (r n - v))%Q
  /\ (forall eps, 0 < eps -> exists N, forall n, (N <= n)%nat -> Qabs (r n - v) < eps)%Q
  /\ (x0 <= v -> forall n, r n <= r (S n) /\ r (S n) <= v)%Q
  /\ (v <= x0 -> forall n, r (S n) <= r n /\ v <= r (S n))%Q
  /\ (x0 == v -> forall n, r n == v)%Q.
Proof.
  intros Ha0 Ha1 Hs. cbv beta zeta.
  pose proof (fun n => nth_returnQ_iter alpha n key v x0 s Hs) as Hr.
  repeat split.
  - rewrite Hr. apply ema_error.
  - intros n. rewrite !Hr, (Nat.iter_succ (S n)). apply ema_error.
  - intros n. rewrite !Hr, (Nat.iter_succ (S n)). by apply ema_abs_error.
  - intros n. rewrite !Hr, (Nat.iter_succ (S n)). by apply ema_abs_error_le.
  - intros eps Heps.
    destruct (ema_iter_converges alpha v Ha0 Ha1 x0 eps Heps) as [N HN].
    exists N. intros n Hn. rewrite Hr. apply HN. lia.
  - rewrite !Hr. by apply ema_iter_below.
  - rewrite !Hr. by apply ema_iter_below.
  - rewrite !Hr. by apply ema_iter_above.
  - rewrite !Hr. by apply ema_iter_above.
  - intros Hx n. rewrite Hr. by apply ema_iter_fixed.
Qed.

(** With the factor of the code, a store holding 10 under "bx" and the
    constant input 20. *)
Lemma smoothing_converges_exact_example :
  let r := fun n => Smoothing.nth_returnQ Smoothing.SMOOTH_ALPHA n "bx" 20
                      {[ "bx" := Some 10%Q ]} in
  (r 0%nat - 20 == (1 - Smoothing.SMOOTH_ALPHA) * (10 - 20))%Q
  /\ (forall n, r (S n) - 20 == (1 - Smoothing.SMOOTH_ALPHA) * (r n - 20))%Q
  /\ (forall n, Qabs (r (S n) - 20) == (1 - Smoothing.SMOOTH_ALPHA) * Qabs (r n - 20))%Q
  /\ (forall n, Qabs (r (S n) - 20) <= Qabs (r n - 20))%Q
  /\ (forall eps, 0 < eps -> exists N, forall n, (N <= n)%nat -> Qabs (r n - 20) < eps)%Q
  /\ (10 <= 20 -> forall n, r n <= r (S n) /\ r (S n) <= 20)%Q
  /\ (20 <= 10 -> forall n, r (S n) <= r n /\ 20 <= r (S n))%Q
  /\ (10 == 20 -> forall n, r n == 20)%Q.
Proof.
  apply (smoothing_converges_exact Smoothing.SMOOTH_ALPHA "bx" 20 10
           {[ "bx" := Some 10%Q ]}).
  - reflexivity.
  - reflexivity.
  - reflexivity.
Defined.

Section RoundedFacts.

Import Smoothing.
Local Open Scope Q_scope.

Lemma Qabs_shift (x y a : Q) : Qabs (x - y) <= a -> Qabs x <= Qabs y + a.
Proof.
  intros H. assert (Hx : x == y + (x - y)) by ring.
  rewrite Hx at 1. eapply Qle_trans; [apply Qabs_triangle|]. lra.
Qed.

Lemma Qabs_chain (x y z a b : Q) :
  Qabs (x - y) <= a -> Qabs (y - z) <= b -> Qabs (x - z) <= a + b.
Proof.
  intros H1 H2. assert (Hx : x - z == (x - y) + (y - z)) by ring.
  rewrite Hx. eapply Qle_trans; [apply Qabs_triangle|]. lra.
Qed.

Lemma Qmult_le_left (a x y : Q) : 0 <= a -> x <= y -> a * x <= a * y.
Proof. intros Ha Hxy. nra. Qed.

Variables (fl : Q -> Q) (u alpha v : Q).
Hypothesis alpha_pos : 0 < alpha.
Hypothesis alpha_lt_1 : alpha < 1.
Hypothesis u_nonneg : 0 <= u.
Hypothesis fl_standard : Rounded.standard fl u.

Lemma gamma3_nonneg : 0 <= Rounded.gamma3 u.
Proof using u_nonneg.
  unfold Rounded.gamma3.
  assert (H : (1 + u) * (1 + u) * (1 + u) - 1 == u * (3 + u * (3 + u))) by ring.
  rewrite H. apply Qmult_le_0_compat; [done|].
  assert (0 <= u * (3 + u)) by (apply Qmult_le_0_compat; lra). lra.
Qed.

(** One blend: the rounded result against the exact one. *)
Lemma blend_error (p : Q) :
  Qabs (Rounded.blend fl alpha v p - (p * (1 - alpha) + v * alpha))
  <= Rounded.gamma3 u * ((1 - alpha) * Qabs p + alpha * Qabs v).
Proof using alpha_pos alpha_lt_1 u_nonneg fl_standard.
  unfold Rounded.blend, Rounded.add, Rounded.mul, Rounded.sub.
  set (A := 1 - alpha).
  assert (HA : 0 <= A) by (unfold A; lra).
  pose proof (Qabs_nonneg p) as HP. pose proof (Qabs_nonneg v) as HV.
  set (P := Qabs p) in *. set (V := Qabs v) in *.
  (* the factor 1 - alpha *)
  pose proof (fl_standard A) as E1. rewrite (Qabs_pos A HA) in E1.
  set (x1 := fl A) in *.
  pose proof (Qabs_shift x1 A _ E1) as X1. rewrite (Qabs_pos A HA) in X1.
  (* the first product *)
  assert (T1 : Qabs (p * x1) <= P * (A + u * A)).
  { rewrite Qabs_Qmult. fold P. by apply Qmult_le_left. }
  assert (D1 : Qabs (p * x1 - p * A) <= P * (u * A)).
  { assert (Hd : p * x1 - p * A == p * (x1 - A)) by ring.
    rewrite Hd, Qabs_Qmult. fold P. by apply Qmult_le_left. }
  pose proof (fl_standard (p * x1)) as E2.
  set (m1 := fl (p * x1)) in *.
  assert (E2' : Qabs (m1 - p * x1) <= u * (P * (A + u * A))).
  { eapply Qle_trans; [exact E2|]. by apply Qmult_le_left. }
  pose proof (Qabs_chain m1 (p * x1) (p * A) _ _ E2' D1) as M1d.
  assert (HpA : Qabs (p * A) == P * A).
  { rewrite Qabs_Qmult, (Qabs_pos A HA). reflexivity. }
  pose proof (Qabs_shift m1 (p * A) _ M1d) as M1. rewrite HpA in M1.
  (* the second product *)
  assert (Hva : Qabs (v * alpha) == V * alpha).
  { rewrite Qabs_Qmult, (Qabs_pos alpha) by lra. reflexivity. }
  pose proof (fl_standard (v * alpha)) as E3. rewrite Hva in E3.
  set (m2 := fl (v * alpha)) in *.
  pose proof (Qabs_shift m2 (v * alpha) _ E3) as M2. rewrite Hva in M2.
  (* the sum *)
  assert (T3 : Qabs (m1 + m2)
               <= P * A + (u * (P * (A + u * A)) + P * (u * A)) + (V * alpha + u * (V * alpha))).
  { eapply Qle_trans; [apply Qabs_triangle|]. lra. }
  pose proof (fl_standard (m1 + m2)) as E4.
  set (r := fl (m1 + m2)) in *.
  assert (E4' : Qabs (r - (m1 + m2))
                <= u * (P * A + (u * (P * (A + u * A)) + P * (u * A))
                        + (V * alpha + u * (V * alpha)))).
  { eapply Qle_trans; [exact E4|]. by apply Qmult_le_left. }
  assert (D3 : Qabs (m1 + m2 - (p * A + v * alpha))
               <= (u * (P * (A + u * A)) + P * (u * A)) + u * (V * alpha)).
  { assert (Hd : m1 + m2 - (p * A + v * alpha) == (m1 - p * A) + (m2 - v * alpha)) by ring.
    rewrite Hd. eapply Qle_trans; [apply Qabs_triangle|]. lra. }
  pose proof (Qabs_chain r (m1 + m2) (p * A + v * alpha) _ _ E4' D3) as Hfin.
  eapply Qle_trans; [exact Hfin|].
  assert (Hdiff : Rounded.gamma3 u * (A * P + alpha * V)
                  - (u * (P * A + (u * (P * (A + u * A)) + P * (u * A))
                          + (V * alpha + u * (V * alpha)))
                     + ((u * (P * (A + u * A)) + P * (u * A)) + u * (V * alpha)))
                  == V * alpha * (u * ((1 + u) * (1 + u)))).
  { unfold Rounded.gamma3. ring. }
  assert (Hpos : 0 <= V * alpha * (u * ((1 + u) * (1 + u)))).
  { apply Qmult_le_0_compat; [apply Qmult_le_0_compat; lra|].
    apply Qmult_le_0_compat; [done|]. apply Qmult_le_0_compat; lra. }
  clearbody P V x1 m1 m2 r. lra.
Qed.


(** One call on an initialised key: the error contracts, up to the
    rounding. *)
Lemma step_error (p : Q) :
  Qabs (Rounded.blend fl alpha v p - v)
  <= (1 - alpha) * (1 + Rounded.gamma3 u) * Qabs (p - v) + Rounded.gamma3 u * Qabs v.
Proof using alpha_pos alpha_lt_1 u_nonneg fl_standard.
  pose proof (blend_error p) as Hb. pose proof gamma3_nonneg as Hg.
  assert (Ht : Qabs (p * (1 - alpha) + v * alpha - v) == (1 - alpha) * Qabs (p - v)).
  { assert (Hd : p * (1 - alpha) + v * alpha - v == (1 - alpha) * (p - v)) by ring.
    rewrite Hd, Qabs_Qmult, (Qabs_pos (1 - alpha)) by lra. reflexivity. }
  assert (Ht' : Qabs (p * (1 - alpha) + v * alpha - v) <= (1 - alpha) * Qabs (p - v))
    by (rewrite Ht; apply Qle_refl).
  pose proof (Qabs_chain _ _ v _ _ Hb Ht') as Hc.
  pose proof (Qabs_shift p v _ (Qle_refl _)) as HP.
  pose proof (Qabs_nonneg (p - v)) as He. pose proof (Qabs_nonneg v) as HV.
  set (g := Rounded.gamma3 u) in *.
  set (e := Qabs (p - v)) in *. set (P := Qabs p) in *. set (V := Qabs v) in *.
  eapply Qle_trans; [exact Hc|]. clearbody g e P V.
  assert (H1 : 0 <= g * (1 - alpha)) by (apply Qmult_le_0_compat; lra).
  assert (H2 : g * (1 - alpha) * P <= g * (1 - alpha) * (V + e))
    by (by apply Qmult_le_left).
  lra.
Qed.

End RoundedFacts.

(** A sequence of errors that contracts up to a constant. *)
Section Contraction.

Local Open Scope Q_scope.

Variables (q c : Q) (e : nat -> Q).
Hypothesis q_nonneg : 0 <= q.
Hypothesis q_lt_1 : q < 1.
Hypothesis c_nonneg : 0 <= c.
Hypothesis e_nonneg : forall n, 0 <= e n.
Hypothesis e_step : forall n, e (S n) <= q * e n + c.

Local Abbreviation tol := (c / (1 - q)).

Lemma tol_eq : tol * (1 - q) == c.
Proof using q_lt_1. field. lra. Qed.

Lemma tol_nonneg : 0 <= tol.
Proof using q_lt_1 c_nonneg.
  apply Qle_shift_div_l; lra.
Qed.

(** A bound at least the tolerance is kept. *)
Lemma contraction_bound (M : Q) :
  tol <= M -> e 0%nat <= M -> forall n, e n <= M.
Proof using q_nonneg q_lt_1 e_step.
  intros HM H0 n. pose proof tol_eq as Ht.
  induction n as [|n IH]; [exact H0|].
  eapply Qle_trans; [apply e_step|].
  set (t := tol) in *. clearbody t. set (x := e n) in *. clearbody x. nra.
Qed.

(** Above the tolerance the error decreases. *)
Lemma contraction_decreases (n : nat) : tol < e n -> e (S n) < e n.
Proof using q_lt_1 e_step.
  intros Hn. pose proof tol_eq as Ht. pose proof (e_step n) as Hs.
  set (t := tol) in *. clearbody t. set (x := e n) in *. set (y := e (S n)) in *.
  clearbody x y. nra.
Qed.

Lemma contraction_bernoulli (n : nat) :
  (e n - tol) * (1 + inject_Z (Z.of_nat n) * (1 - q)) <= e 0%nat.
Proof using q_nonneg q_lt_1 c_nonneg e_nonneg e_step.
  pose proof tol_eq as Ht. pose proof tol_nonneg as Ht0.
  set (t := tol) in *. clearbody t.
  induction n as [|n IH].
  - change (inject_Z (Z.of_nat 0)) with 0. lra.
  - rewrite Nat2Z.inj_succ. unfold Z.succ. rewrite inject_Z_plus.
    change (inject_Z 1) with 1.
    pose proof (e_step n) as Hs. pose proof (e_nonneg 0%nat) as H0.
    set (m := inject_Z (Z.of_nat n)) in *.
    assert (Hm : 0 <= m).
    { subst m. change 0 with (inject_Z 0). rewrite <- Zle_Qle. lia. }
    set (x := e n) in *. set (y := e (S n)) in *. set (x0 := e 0%nat) in *.
    clearbody m x y x0.
    assert (Hy : y - t <= q * (x - t)).
    { assert (E : q * (x - t) == q * x + c - t) by (rewrite <- Ht; ring).
      rewrite E. lra. }
    destruct (Qlt_le_dec (x - t) 0) as [Hneg|Hpos].
    + assert (Hy0 : y - t <= 0) by nra.
      assert (Hk : 0 <= 1 + (m + 1) * (1 - q)) by nra.
      nra.
    + assert (Hk : 0 <= 1 + (m + 1) * (1 - q)) by nra.
      assert (H1 : (y - t) * (1 + (m + 1) * (1 - q))
                   <= q * (x - t) * (1 + (m + 1) * (1 - q))) by nra.
      assert (H2 : q * (1 + (m + 1) * (1 - q)) <= 1 + m * (1 - q)).
      { assert (E2 : 1 + m * (1 - q) - q * (1 + (m + 1) * (1 - q))
                     == (m + 1) * ((1 - q) * (1 - q))) by ring.
        assert (P2 : 0 <= (m + 1) * ((1 - q) * (1 - q)))
          by (apply Qmult_le_0_compat; nra).
        lra. }
      assert (H3 : q * (x - t) * (1 + (m + 1) * (1 - q))
                   <= (x - t) * (1 + m * (1 - q))) by nra.
      lra.
Qed.

(** The error ends within any margin of the tolerance. *)
Lemma contraction_converges (eps : Q) :
  0 < eps -> exists N : nat, forall n : nat, (N <= n)%nat -> e n < tol + eps.
Proof using q_nonneg q_lt_1 c_nonneg e_nonneg e_step.
  intros Heps.
  set (b := e 0%nat / (eps * (1 - q))).
  exists (Z.to_nat (Qfloor b + 1)).
  intros n Hn.
  pose proof (contraction_bernoulli n) as Hb.
  pose proof (e_nonneg 0%nat) as H0.
  assert (Hbn : b < inject_Z (Z.of_nat n)).
  { pose proof (Qlt_floor b) as Hlt.
    eapply Qlt_le_trans; [exact Hlt|].
    rewrite <- Zle_Qle. lia. }
  assert (Hprod : e 0%nat < inject_Z (Z.of_nat n) * (eps * (1 - q))).
  { assert (Hpos : 0 < eps * (1 - q)) by nra.
    assert (Heq : e 0%nat == b * (eps * (1 - q))).
    { subst b. field. nra. }
    rewrite Heq. nra. }
  set (m := inject_Z (Z.of_nat n)) in *.
  assert (Hm : 0 <= m).
  { subst m. change 0 with (inject_Z 0). rewrite <- Zle_Qle. lia. }
  set (t := tol) in *. set (x := e n) in *. set (x0 := e 0%nat) in *.
  clearbody m t x x0.
  apply Qnot_le_lt. intros Hge. nra.
Qed.

End Contraction.

(** ** Binary64 rounding obeys the standard model *)

Section Binary64Facts.

Import Binary64.
Local Open Scope Q_scope.

Lemma Qle_bool_lt (a b : Q) : Qle_bool a b = false -> b < a.
Proof.
  intros E. apply Qnot_le_lt. intros Hle. apply Qle_bool_iff in Hle. congruence.
Qed.

Lemma nearestEven_near (y : Q) :
  Qabs (inject_Z (nearestEven y) - y) <= 1 # 2.
Proof.
  unfold nearestEven.
  pose proof (Qfloor_le y) as Hlo. pose proof (Qlt_floor y) as Hhi.
  rewrite inject_Z_plus in Hhi. change (inject_Z 1) with 1 in Hhi.
  set (f := Qfloor y) in *. clearbody f.
  apply Qabs_Qle_condition.
  destruct (Qle_bool (y - inject_Z f) (1 # 2)) eqn:E2.
  - apply Qle_bool_iff in E2.
    destruct (Qle_bool (1 # 2) (y - inject_Z f)) eqn:E3.
    + apply Qle_bool_iff in E3.
      destruct (Z.even f); [split; lra|].
      rewrite inject_Z_plus. change (inject_Z 1) with 1. split; lra.
    + apply Qle_bool_lt in E3. split; lra.
  - apply Qle_bool_lt in E2.
    rewrite inject_Z_plus. change (inject_Z 1) with 1. split; lra.
Qed.

Lemma two_neq_0 : ~ 2 == 0.
Proof. discriminate. Qed.

Lemma pow2_pos (k : Z) : 0 < 2 ^ k.
Proof. apply Qpower_0_lt. reflexivity. Qed.

(** The leading bit is below the number. *)
Lemma ilog2_le (a : Q) : 0 < a -> 2 ^ ilog2 a <= a.
Proof.
  intros Ha. unfold ilog2.
  set (ln := Z.log2 (Qnum a)). set (ld := Z.log2 (Zpos (Qden a))).
  destruct (Qle_bool (2 ^ (ln - ld)) a) eqn:E; [by apply Qle_bool_iff|].
  assert (Hn : (0 < Qnum a)%Z).
  { destruct a as [n d]. unfold Qlt in Ha. cbn in *. lia. }
  destruct (Z.log2_spec (Qnum a) Hn) as [Hln _]. fold ln in Hln.
  destruct (Z.log2_spec (Zpos (Qden a)) ltac:(lia)) as [_ Hld]. fold ld in Hld.
  assert (Hln0 : (0 <= ln)%Z) by apply Z.log2_nonneg.
  assert (Hld0 : (0 <= ld)%Z) by apply Z.log2_nonneg.
  assert (Hsplit : 2 ^ ln == 2 ^ (ln - ld - 1) * 2 ^ (ld + 1)).
  { rewrite <- Qpower_plus by apply two_neq_0. by replace (ln - ld - 1 + (ld + 1))%Z with ln by lia. }
  assert (Hnq : 2 ^ ln <= inject_Z (Qnum a)).
  { change 2 with (inject_Z 2). rewrite <- Zpower_Qpower by done. by rewrite <- Zle_Qle. }
  assert (Hdq : inject_Z (Zpos (Qden a)) < 2 ^ (ld + 1)).
  { change 2 with (inject_Z 2). rewrite <- Zpower_Qpower by lia. by rewrite <- Zlt_Qlt. }
  assert (Had : a * inject_Z (Zpos (Qden a)) == inject_Z (Qnum a)).
  { destruct a as [n d]. unfold Qeq. cbn. lia. }
  pose proof (pow2_pos (ln - ld - 1)) as Hp1. pose proof (pow2_pos (ld + 1)) as Hp2.
  set (p1 := 2 ^ (ln - ld - 1)) in *. set (p2 := 2 ^ (ld + 1)) in *.
  set (n := inject_Z (Qnum a)) in *. set (d := inject_Z (Zpos (Qden a))) in *.
  set (pn := 2 ^ ln) in *.
  assert (Hd0 : 0 < d).
  { subst d. change 0 with (inject_Z 0). rewrite <- Zlt_Qlt. lia. }
  clearbody p1 p2 n d pn.
  apply Qnot_lt_le. intros Hlt. nra.
Qed.

(** Binary64 rounding obeys the standard model. *)
Lemma fl64_standard : Rounded.standard fl64 u64.
Proof.
  intros x. unfold fl64.
  destruct (Qeq_bool x 0) eqn:E0.
  { apply Qeq_bool_iff in E0.
    assert (Hz : 0 - x == 0) by (rewrite E0; ring).
    rewrite Hz, E0. discriminate. }
  assert (Hx : ~ x == 0).
  { intros Hx. apply Qeq_bool_iff in Hx. congruence. }
  assert (Ha : 0 < Qabs x).
  { pose proof (Qabs_nonneg x) as H0.
    destruct (Qlt_le_dec 0 (Qabs x)) as [|Hle]; [done|].
    exfalso. apply Hx.
    destruct (Qabs_Qle_condition x 0) as [Hc _].
    destruct Hc as [H1 H2]; [lra|lra]. }
  pose proof (ilog2_le (Qabs x) Ha) as He.
  set (e := ilog2 (Qabs x)) in *.
  pose proof (pow2_pos (e - 52)) as Hulp.
  assert (Hsplit : 2 ^ e == 2 ^ (e - 52) * 2 ^ 52).
  { rewrite <- Qpower_plus by apply two_neq_0. by replace (e - 52 + 52)%Z with e by lia. }
  set (ulp := 2 ^ (e - 52)) in *.
  pose proof (nearestEven_near (Qabs x / ulp)) as Hm.
  set (m := inject_Z (nearestEven (Qabs x / ulp))) in *.
  assert (Hy : Qabs x == (Qabs x / ulp) * ulp) by (field; lra).
  set (y := Qabs x / ulp) in *.
  apply Qabs_Qle_condition in Hm as [Hm1 Hm2].
  assert (Hu : u64 == 1 # 9007199254740992) by reflexivity.
  assert (H52 : 2 ^ 52 == 4503599627370496) by reflexivity.
  rewrite Hu. rewrite H52 in Hsplit.
  set (a := Qabs x) in *. set (pe := 2 ^ e) in *.
  assert (Hbound : ulp * (1 # 2) <= (1 # 9007199254740992) * a).
  { clearbody a pe ulp. lra. }
  assert (Hcore : - (ulp * (1 # 2)) <= m * ulp - a /\ m * ulp - a <= ulp * (1 # 2)).
  { clearbody m y a ulp. split; nra. }
  apply Qabs_Qle_condition.
  destruct (Qle_bool 0 x) eqn:Es.
  - apply Qle_bool_iff in Es.
    assert (Hax : a == x) by (subst a; by apply Qabs_pos).
    clearbody m y a ulp pe. split; lra.
  - apply Qle_bool_lt in Es.
    assert (Hax : a == - x) by (subst a; apply Qabs_neg; lra).
    clearbody m y a ulp pe. split; lra.
Qed.

End Binary64Facts.

Lemma nth_return_rounded (fl : Q -> Q) (alpha : Q) (n : nat) (key : string)
    (v prev : Q) (s : gmap string (option Q)) :
  s !! key = Some (Some prev) ->
  Rounded.nth_return fl alpha n key v s
  = Nat.iter (S n) (Rounded.blend fl alpha v) prev.
Proof. intros Hs. unfold Rounded.nth_return. by erewrite nth_return_iter. Qed.

(** C4, as it holds of the code: in an arithmetic whose every operation
    returns the exact result with a relative error of at most u (binary64
    away from overflow and underflow, u = 2^-53), for every factor alpha
    strictly between 0 and 1 with (1 - alpha) (1 + g) < 1, where
    g = (1 + u)^3 - 1, every key with a stored value and every constant
    input v, the values returned by repeated [smoothVal(key, v)] approach
    v to within a tolerance proportional to the rounding unit: at each
    call the error is at most q = (1 - alpha) (1 + g) times the error
    before, plus g |v|; it never exceeds the initial error plus the
    tolerance g |v| / (1 - q); it decreases for as long as it is above
    the tolerance and ends within any margin of it; and when the stored
    value is v, every returned value is v to within the tolerance.
    Without rounding (u = 0) the error is multiplied by at most
    (1 - alpha) at each call and v is a fixed point. *)
Theorem smoothing_converges_rounded (fl : Q -> Q) (u alpha : Q) (key : string)
    (v x0 : Q) (s : gmap string (option Q)) :
  (0 < alpha)%Q -> (alpha < 1)%Q -> (0 <= u)%Q -> Rounded.standard fl u ->
  ((1 - alpha) * (1 + Rounded.gamma3 u) < 1)%Q ->
  s !! key = Some (Some x0) ->
  let g := Rounded.gamma3 u in
  let q := ((1 - alpha) * (1 + g))%Q in
  let tol := (g * Qabs v / (1 - q))%Q in
  let r := fun n => Rounded.nth_return fl alpha n key v s in
  (Qabs (r 0%nat - v) <= q * Qabs (x0 - v) + g * Qabs v)%Q
  /\ (forall n, Qabs (r (S n) - v) <= q * Qabs (r n - v) + g * Qabs v)%Q
  /\ (forall n, Qabs (r n - v) <= Qabs (x0 - v) + tol)%Q
  /\ (forall n, tol < Qabs (r n - v) -> Qabs (r (S n) - v) < Qabs (r n - v))%Q
  /\ (forall eps, 0 < eps ->
        exists N, forall n, (N <= n)%nat -> Qabs (r n - v) < tol + eps)%Q
  /\ (x0 == v -> forall n, Qabs (r n - v) <= tol)%Q
  /\ (u == 0 ->
        (forall n, Qabs (r (S n) - v) <= (1 - alpha) * Qabs (r n - v))
        /\ (x0 == v -> forall n, r n == v))%Q.
Proof.
  intros Ha0 Ha1 Hu Hfl Hq Hs. cbv zeta.
  pose proof (gamma3_nonneg u Hu) as Hg.
  set (g := Rounded.gamma3 u) in *.
  set (q := ((1 - alpha) * (1 + g))%Q) in *.
  set (c := (g * Qabs v)%Q).
  set (E := fun n => Qabs (Nat.iter n (Rounded.blend fl alpha v) x0 - v)).
  assert (Hr : forall n, Qabs (Rounded.nth_return fl alpha n key v s - v) = E (S n)).
  { intros n. unfold E. by rewrite (nth_return_rounded fl alpha n key v x0 s Hs). }
  assert (Hq0 : (0 <= q)%Q).
  { unfold q. apply Qmult_le_0_compat; lra. }
  assert (Hc0 : (0 <= c)%Q).
  { unfold c. apply Qmult_le_0_compat; [done|apply Qabs_nonneg]. }
  assert (HE0 : forall n, (0 <= E n)%Q) by (intros n; apply Qabs_nonneg).
  assert (HEs : forall n, (E (S n) <= q * E n + c)%Q).
  { intros n. unfold E. rewrite Nat.iter_succ.
    apply (step_error fl u alpha v Ha0 Ha1 Hu Hfl). }
  assert (Htol : (0 <= c / (1 - q))%Q) by (by apply tol_nonneg).
  assert (Hfix : (x0 == v)%Q -> forall n, (E n <= c / (1 - q))%Q).
  { intros Hx. apply (contraction_bound q c E Hq0 Hq HEs); [apply Qle_refl|].
    unfold E. change (Nat.iter 0 (Rounded.blend fl alpha v) x0) with x0.
    assert (H0 : (Qabs (x0 - v) == 0)%Q).
    { assert (Hz : (x0 - v == 0)%Q) by (rewrite Hx; ring). by rewrite Hz. }
    rewrite H0. exact Htol. }
  split; [rewrite Hr; apply (HEs 0%nat)|].
  split; [intros n; rewrite !Hr; apply HEs|].
  split.
  { intros n. rewrite Hr.
    apply (contraction_bound q c E Hq0 Hq HEs).
    - pose proof (HE0 0%nat) as H0. change (Qabs (x0 - v)) with (E 0%nat). lra.
    - change (Qabs (x0 - v)) with (E 0%nat). lra. }
  split.
  { intros n. rewrite !Hr. apply (contraction_decreases q c E Hq HEs). }
  split.
  { intros eps Heps.
    destruct (contraction_converges q c E Hq0 Hq Hc0 HE0 HEs eps Heps) as [N HN].
    exists N. intros n Hn. rewrite Hr. apply HN. lia. }
  split.
  { intros Hx n. rewrite Hr. by apply Hfix. }
  intros Hu0.
  assert (Hg0 : (g == 0)%Q).
  { unfold g, Rounded.gamma3. rewrite Hu0. ring. }
  split.
  - intros n. rewrite !Hr. eapply Qle_trans; [apply HEs|].
    unfold q, c. rewrite Hg0.
    assert (Hz : ((1 - alpha) * (1 + 0) * E (S n) + 0 * Qabs v
                  == (1 - alpha) * E (S n))%Q) by ring.
    rewrite Hz. apply Qle_refl.
  - intros Hx n. pose proof (Hfix Hx (S n)) as Hle. rewrite <- Hr in Hle.
    assert (Hc00 : (c / (1 - q) == 0)%Q).
    { unfold c. rewrite Hg0. field. lra. }
    rewrite Hc00 in Hle.
    pose proof (Qabs_nonneg (Rounded.nth_return fl alpha n key v s - v)) as Hge.
    assert (Habs : (Qabs (Rounded.nth_return fl alpha n key v s - v) == 0)%Q)
      by (by apply Qle_antisym).
    destruct (Qabs_Qle_condition (Rounded.nth_return fl alpha n key v s - v) 0) as [Hc1 _].
    destruct Hc1 as [Hlo Hhi]; [rewrite Habs; apply Qle_refl|]. lra.
Qed.

(** Binary64 rounding, the factor 0.38 as binary64 holds it, 0 stored
    under "bx" and the constant input 0.9. *)
Lemma smoothing_converges_rounded_witness :
  let alpha := Binary64.fl64 0.38 in
  let v := Binary64.fl64 0.9 in
  let g := Rounded.gamma3 Binary64.u64 in
  let q := ((1 - alpha) * (1 + g))%Q in
  let tol := (g * Qabs v / (1 - q))%Q in
  let r := fun n => Rounded.nth_return Binary64.fl64 alpha n "bx" v
                      {[ "bx" := Some 0%Q ]} in
  (Qabs (r 0%nat - v) <= q * Qabs (0 - v) + g * Qabs v)%Q
  /\ (forall n, Qabs (r (S n) - v) <= q * Qabs (r n - v) + g * Qabs v)%Q
  /\ (forall n, Qabs (r n - v) <= Qabs (0 - v) + tol)%Q
  /\ (forall n, tol < Qabs (r n - v) -> Qabs (r (S n) - v) < Qabs (r n - v))%Q
  /\ (forall eps, 0 < eps ->
        exists N, forall n, (N <= n)%nat -> Qabs (r n - v) < tol + eps)%Q.
Proof.
  cbv zeta.
  destruct (smoothing_converges_rounded Binary64.fl64 Binary64.u64
              (Binary64.fl64 0.38) "bx" (Binary64.fl64 0.9) 0
              {[ "bx" := Some 0%Q ]})
    as (H1 & H2 & H3 & H4 & H5 & _);
    [vm_compute; reflexivity|vm_compute; reflexivity|discriminate
    |exact fl64_standard|vm_compute; reflexivity|reflexivity|].
  repeat split; assumption.
Defined.

(** The store rounded by [fl64] and the store on the primitive floats
    return the same numbers: the first 40 calls of a run from 0 towards
    0.9, call 100 of that run, which has stalled one unit in the last
    place below 0.9, the first 40 calls of a run from 312.7 towards
    181.25, and the call with 0.9 stored and 0.9 given. *)
Lemma rounded_runs_are_binary64 :
  forallb (fun n => Runs.agree (Runs.run64 n 0 0.9) (Runs.runR n 0 0.9)) (seq 0 40) = true
  /\ Runs.agree (Runs.run64 100 0 0.9) (Runs.runR 100 0 0.9) = true
  /\ (Runs.runR 100 0 0.9 - Binary64.fl64 0.9 == - Binary64.u64)%Q
  /\ forallb (fun n => Runs.agree (Runs.run64 n 312.7 181.25) (Runs.runR n 312.7 181.25))
       (seq 0 40) = true
  /\ Runs.agree (Runs.run64 0 0.9 0.9) (Runs.runR 0 0.9 0.9) = true
  /\ (Runs.runR 0 0.9 0.9 - Binary64.fl64 0.9 == Binary64.u64)%Q.
Proof. vm_compute. repeat split; reflexivity. Qed.

(** C4 as stated fails on the numbers the code runs on: with 0.9 stored
    under a key, [smoothVal(key, 0.9)] in binary64 returns a value that is
    not 0.9, so the error grows from zero and 0.9 is not an exact fixed
    point. *)
Lemma smoothVal_f64_not_fixed :
  fst (Smoothing.smoothVal_f64 "bx" 0.9%float {[ "bx" := Some 0.9%float ]})
  <> 0.9%float.
Proof.
  intros Heq.
  apply (f_equal (fun x => PrimFloat.eqb x 0.9%float)) in Heq.
  vm_compute in Heq. discriminate Heq.
Qed.

(** ** Crop and output size *)

(** Moves an integer inequality to the rationals, where [lra] decides
    it from the bounds of [Math_round]. *)
Ltac inj_consts :=
  repeat match goal with
  | |- context [inject_Z (Zpos ?p)] =>
      change (inject_Z (Zpos p)) with (Zpos p # 1)
  | |- context [inject_Z (Zneg ?p)] =>
      change (inject_Z (Zneg p)) with (Zneg p # 1)
  | |- context [inject_Z Z0] => change (inject_Z Z0) with 0%Q
  end.

Ltac to_Q :=
  unfold Z.sub;
  first [rewrite Zle_Qle | rewrite Zlt_Qlt];
  repeat first [rewrite inject_Z_plus | rewrite inject_Z_mult | rewrite inject_Z_opp];
  inj_consts.

Section CropFacts.

Import Js Capture.
Local Open Scope Q_scope.

Lemma inject_Z_pos (z : Z) : (0 < z)%Z -> 0 < inject_Z z.
Proof. intros Hz. change 0 with (inject_Z 0). by rewrite <- Zlt_Qlt. Qed.

Lemma Math_round_le (q : Q) (k : Z) : q <= inject_Z k -> (Math_round q <= k)%Z.
Proof.
  intros Hq. destruct (Math_round_bounds q) as [Hlo _].
  assert (Hlt : (Math_round q < k + 1)%Z) by (to_Q; lra). lia.
Qed.

Lemma Math_min_Qmin (a b : Q) : Math_min a b == Qmin a b.
Proof.
  destruct (Math_min_cases a b) as [[Hle ->]|[Hlt ->]].
  - symmetry. by apply Q.min_l.
  - symmetry. apply Q.min_r. lra.
Qed.

(** The test [videoAspect > targetAspect] on integers. *)
Lemma wider_than_target (videoW videoH : Z) :
  (0 < videoH)%Z ->
  negb (Qle_bool (inject_Z videoW / inject_Z videoH) targetAspect) = true
  <-> (4 * videoH < 3 * videoW)%Z.
Proof.
  intros HH. pose proof (inject_Z_pos _ HH) as HHq.
  assert (Hdiv : inject_Z videoW == (inject_Z videoW / inject_Z videoH) * inject_Z videoH)
    by (field; lra).
  set (a := inject_Z videoW / inject_Z videoH) in *. clearbody a.
  unfold targetAspect.
  rewrite negb_true_iff, <- not_true_iff_false, Qle_bool_iff.
  split.
  - intros Hn. apply Qnot_le_lt in Hn. to_Q. rewrite Hdiv.
    change (4 / 3) with (4 # 3) in Hn. nra.
  - intros Hlt Hle. rewrite Zlt_Qlt in Hlt.
    rewrite !inject_Z_mult in Hlt. rewrite Hdiv in Hlt.
    change (inject_Z 4) with 4 in Hlt. change (inject_Z 3) with 3 in Hlt.
    change (4 / 3) with (4 # 3) in Hle. nra.
Qed.

(** [Math.round(videoH * targetAspect)] *)
Lemma round_four_thirds (n : Z) :
  let k := Math_round (inject_Z n * targetAspect) in
  (6 * k <= 8 * n + 3 /\ 8 * n + 3 < 6 * k + 6)%Z.
Proof.
  cbv zeta. destruct (Math_round_bounds (inject_Z n * targetAspect)) as [Hlo Hhi].
  unfold targetAspect in *. change (4 / 3) with (4 # 3) in *.
  split; to_Q; lra.
Qed.

(** [Math.round(videoW / targetAspect)] *)
Lemma round_three_quarters (n : Z) :
  let k := Math_round (inject_Z n / targetAspect) in
  (4 * k <= 3 * n + 2 /\ 3 * n + 2 < 4 * k + 4)%Z.
Proof.
  cbv zeta. destruct (Math_round_bounds (inject_Z n / targetAspect)) as [Hlo Hhi].
  assert (Heq : inject_Z n / targetAspect == inject_Z n * (3 / 4))
    by (unfold targetAspect; field).
  set (k := Math_round (inject_Z n / targetAspect)) in *. clearbody k.
  rewrite Heq in Hlo, Hhi. change (3 / 4) with (3 # 4) in *.
  split; to_Q; lra.
Qed.

(** [Math.round((a - b) / 2)] *)
Lemma round_half_diff (a b : Z) :
  let k := Math_round ((inject_Z a - inject_Z b) / 2) in
  (2 * k <= a - b + 1 /\ a - b + 1 < 2 * k + 2)%Z.
Proof.
  cbv zeta. destruct (Math_round_bounds ((inject_Z a - inject_Z b) / 2)) as [Hlo Hhi].
  assert (Heq : (inject_Z a - inject_Z b) / 2 == (inject_Z a - inject_Z b) * (1 / 2))
    by field.
  set (k := Math_round ((inject_Z a - inject_Z b) / 2)) in *. clearbody k.
  rewrite Heq in Hlo, Hhi. change (1 / 2) with (1 # 2) in *.
  split; to_Q; lra.
Qed.

Lemma outputScale_bounds (c : Crop) :
  (0 < srcW c)%Z -> (0 < srcH c)%Z ->
  outputScale c <= 1
  /\ inject_Z (srcW c) * outputScale c <= 1920
  /\ inject_Z (srcH c) * outputScale c <= 1920
  /\ 0 < outputScale c.
Proof.
  intros HW HH. apply inject_Z_pos in HW, HH.
  set (w := inject_Z (srcW c)) in *. set (h := inject_Z (srcH c)) in *.
  assert (Hw : 1920 == (1920 / w) * w) by (field; lra).
  assert (Hh : 1920 == (1920 / h) * h) by (field; lra).
  assert (Hw0 : 0 < 1920 / w) by (apply Qlt_shift_div_l; lra).
  assert (Hh0 : 0 < 1920 / h) by (apply Qlt_shift_div_l; lra).
  unfold outputScale. fold w h.
  set (a := 1920 / w) in *. set (b := 1920 / h) in *.
  clearbody a b. clearbody w h.
  destruct (Math_min_cases a b) as [[H1 ->]|[H1 ->]];
    [destruct (Math_min_cases a 1) as [[H2 ->]|[H2 ->]]
    |destruct (Math_min_cases b 1) as [[H2 ->]|[H2 ->]]];
    repeat split; nra.
Qed.

End CropFacts.

(** C2: for a source frame with non-zero dimensions the crop rectangle is
    centred inside the frame, clips only the longer dimension, and has a
    width to height ratio of 4:3 up to the rounding of one side; the
    output size is the crop scaled by min(1920 / srcW, 1920 / srcH, 1) and
    rounded, so no output dimension exceeds 1920 or the crop's own.  A
    1920 by 1080 source gives a 1440 by 1080 output. *)
Theorem crop_then_scale (videoW videoH : Z) :
  (0 < videoW)%Z -> (0 < videoH)%Z ->
  let c := Capture.cropRect videoW videoH in
  let out := Capture.outputSize c in
  let scale := Capture.outputScale c in
  (if (4 * videoH <? 3 * videoW)%Z
   then Capture.srcH c = videoH /\ Capture.srcY c = 0%Z
   else Capture.srcW c = videoW /\ Capture.srcX c = 0%Z)
  /\ (Z.abs (3 * Capture.srcW c - 4 * Capture.srcH c) <= 2)%Z
  /\ (0 < Capture.srcW c <= videoW)%Z
  /\ (0 < Capture.srcH c <= videoH)%Z
  /\ (0 <= Capture.srcX c)%Z
  /\ (0 <= Capture.srcY c)%Z
  /\ (Capture.srcX c + Capture.srcW c <= videoW)%Z
  /\ (Capture.srcY c + Capture.srcH c <= videoH)%Z
  /\ (0 <= 2 * Capture.srcX c - (videoW - Capture.srcW c) <= 1)%Z
  /\ (0 <= 2 * Capture.srcY c - (videoH - Capture.srcH c) <= 1)%Z
  /\ (scale == Qmin (Qmin (1920 / inject_Z (Capture.srcW c))
                          (1920 / inject_Z (Capture.srcH c))) 1)%Q
  /\ out = (Js.Math_round (inject_Z (Capture.srcW c) * scale),
            Js.Math_round (inject_Z (Capture.srcH c) * scale))
  /\ (scale <= 1)%Q
  /\ (fst out <= 1920)%Z /\ (snd out <= 1920)%Z
  /\ (fst out <= Capture.srcW c)%Z /\ (snd out <= Capture.srcH c)%Z
  /\ Capture.outputSize (Capture.cropRect 1920 1080) = (1440%Z, 1080%Z).
Proof.
  intros HW HH. cbv zeta.
  set (c := Capture.cropRect videoW videoH).
  assert (Hcrop :
    (if (4 * videoH <? 3 * videoW)%Z
     then Capture.srcH c = videoH /\ Capture.srcY c = 0%Z
     else Capture.srcW c = videoW /\ Capture.srcX c = 0%Z)
    /\ (Z.abs (3 * Capture.srcW c - 4 * Capture.srcH c) <= 2)%Z
    /\ (0 < Capture.srcW c <= videoW)%Z
    /\ (0 < Capture.srcH c <= videoH)%Z
    /\ (0 <= Capture.srcX c)%Z
    /\ (0 <= Capture.srcY c)%Z
    /\ (Capture.srcX c + Capture.srcW c <= videoW)%Z
    /\ (Capture.srcY c + Capture.srcH c <= videoH)%Z
    /\ (0 <= 2 * Capture.srcX c - (videoW - Capture.srcW c) <= 1)%Z
    /\ (0 <= 2 * Capture.srcY c - (videoH - Capture.srcH c) <= 1)%Z).
  { subst c. unfold Capture.cropRect.
    pose proof (wider_than_target videoW videoH HH) as Hwide.
    destruct (negb (Qle_bool (inject_Z videoW / inject_Z videoH) Capture.targetAspect)).
    - assert (Hlt : (4 * videoH < 3 * videoW)%Z) by by apply Hwide.
      apply Z.ltb_lt in Hlt as Hb. rewrite Hb.
      cbn [Capture.srcX Capture.srcY Capture.srcW Capture.srcH].
      pose proof (round_four_thirds videoH) as Hk. cbv zeta in Hk.
      set (k := Js.Math_round (inject_Z videoH * Capture.targetAspect)) in *.
      pose proof (round_half_diff videoW k) as Hx. cbv zeta in Hx.
      set (x0 := Js.Math_round ((inject_Z videoW - inject_Z k) / 2)) in *.
      clearbody x0 k. lia.
    - assert (Hge : ~ (4 * videoH < 3 * videoW)%Z).
      { intros Hlt. apply Hwide in Hlt. discriminate. }
      apply Z.ltb_nlt in Hge as Hb. rewrite Hb.
      cbn [Capture.srcX Capture.srcY Capture.srcW Capture.srcH].
      pose proof (round_three_quarters videoW) as Hk. cbv zeta in Hk.
      set (k := Js.Math_round (inject_Z videoW / Capture.targetAspect)) in *.
      pose proof (round_half_diff videoH k) as Hy. cbv zeta in Hy.
      set (y0 := Js.Math_round ((inject_Z videoH - inject_Z k) / 2)) in *.
      clearbody y0 k. lia. }
  destruct Hcrop as (H1 & H2 & H3 & H4 & H5 & H6 & H7 & H8 & H9 & H10).
  destruct (outputScale_bounds c) as (Hs1 & HsW & HsH & Hs0); [lia|lia|].
  repeat (split; [assumption|]).
  split.
  { unfold Capture.outputScale. by rewrite !Math_min_Qmin. }
  split; [reflexivity|].
  split; [exact Hs1|].
  assert (HcW : (0 < inject_Z (Capture.srcW c))%Q) by (apply inject_Z_pos; lia).
  assert (HcH : (0 < inject_Z (Capture.srcH c))%Q) by (apply inject_Z_pos; lia).
  unfold Capture.outputSize. cbn [fst snd].
  repeat split.
  - by apply Math_round_le.
  - by apply Math_round_le.
  - apply Math_round_le.
    set (w := inject_Z (Capture.srcW c)) in *.
    set (q := Capture.outputScale c) in *. clearbody w q. nra.
  - apply Math_round_le.
    set (h := inject_Z (Capture.srcH c)) in *.
    set (q := Capture.outputScale c) in *. clearbody h q. nra.
Qed.

(** A 1280 by 720 camera. *)
Lemma crop_then_scale_witness :
  Capture.cropRect 1280 720
  = {| Capture.srcX := 160; Capture.srcY := 0;
       Capture.srcW := 960; Capture.srcH := 720 |}
  /\ (Z.abs (3 * Capture.srcW (Capture.cropRect 1280 720)
             - 4 * Capture.srcH (Capture.cropRect 1280 720)) <= 2)%Z.
Proof.
  split; [reflexivity|].
  apply (crop_then_scale 1280 720); reflexivity.
Defined.

(** ** Pixel passes: value range *)

Section PassRange.

Import Js Filter.
Local Open Scope Q_scope.

Variable Math_sqrt : Q -> Q.
Variable radialFill : Q -> Q -> Q -> Q -> Q -> nat -> nat -> nat -> Z -> Q.
Variable screenDraw : Q -> Q -> Q -> list Z -> nat -> nat -> nat -> Z -> Q.
Variable blurDraw : Q -> list Z -> nat -> nat -> nat -> Q.

Local Abbreviation runPass' := (runPass Math_sqrt radialFill screenDraw blurDraw).

Lemma wr_bytes (data : list Z) (i : nat) (q : Q) :
  Forall is_byte data -> Forall is_byte (wr data i q).
Proof. intros Hd. apply Forall_insert; [done|apply ToUint8Clamp_range]. Qed.

Lemma imap_clamp_bytes (f : nat -> Z -> Q) (data : list Z) :
  Forall is_byte (imap (fun i old => ToUint8Clamp (f i old)) data).
Proof.
  apply Forall_lookup_2. intros i z Hz.
  rewrite list_lookup_imap in Hz.
  destruct (data !! i); simplify_eq/=. apply ToUint8Clamp_range.
Qed.

Lemma foldl_bytes {A} (f : list Z -> A -> list Z) (l : list A) (data : list Z) :
  (forall d a, Forall is_byte d -> Forall is_byte (f d a)) ->
  Forall is_byte data -> Forall is_byte (foldl f data l).
Proof.
  intros Hf. revert data. induction l as [|a l IH]; intros data Hd; simpl; auto.
Qed.

Lemma grainPixel_bytes intensity colorGrain rnd (st : list Z * nat) (i : nat) :
  Forall is_byte (fst st) ->
  Forall is_byte (fst (grainPixel intensity colorGrain rnd st i)).
Proof.
  destruct st as [data cur]. intros Hd. unfold grainPixel.
  destruct colorGrain; cbn [fst]; by repeat apply wr_bytes.
Qed.

Lemma applyGrain_bytes intensity colorGrain rnd (st : list Z * nat) :
  Forall is_byte (fst st) ->
  Forall is_byte (fst (applyGrain intensity colorGrain rnd st)).
Proof.
  unfold applyGrain. generalize (pixelIndices (length (fst st))) as l.
  intros l. revert st. induction l as [|i l IH]; intros st Hst; simpl; [done|].
  apply IH. by apply grainPixel_bytes.
Qed.

Lemma applySketch_bytes (w h : nat) (data : list Z) :
  Forall is_byte data -> Forall is_byte (applySketch Math_sqrt w h data).
Proof.
  intros Hd. unfold applySketch. apply foldl_bytes; [|done].
  intros d xy Hb. unfold sketchPixel. by repeat apply wr_bytes.
Qed.

Lemma applyWatercolor_bytes (w h : nat) rnd (st : list Z * nat) :
  Forall is_byte (fst (applyWatercolor blurDraw w h rnd st)).
Proof.
  destruct st as [data cur]. unfold applyWatercolor.
  apply applyGrain_bytes. cbn [fst].
  apply foldl_bytes; [|apply imap_clamp_bytes].
  intros d i Hb. unfold saturatePixel. by repeat apply wr_bytes.
Qed.

(** Every pass maps byte buffers to byte buffers. *)
Lemma runPass_bytes (p : Pass) (w h : nat) rnd (st : list Z * nat) :
  Forall is_byte (fst st) -> Forall is_byte (fst (runPass' p w h rnd st)).
Proof.
  intros Hst. destruct p as [intensity colorGrain|strength| | |]; cbn [runPass fst].
  - by apply applyGrain_bytes.
  - apply imap_clamp_bytes.
  - unfold applyGlow, glowLayer. apply imap_clamp_bytes.
  - apply applyWatercolor_bytes.
  - by apply applySketch_bytes.
Qed.

(** So does every entry of the [FILTERS] table. *)
Lemma applyFilter_bytes (id : string) (w h : nat) rnd (st : list Z * nat) :
  Forall is_byte (fst st) ->
  Forall is_byte (fst (applyFilter Math_sqrt radialFill screenDraw blurDraw id w h rnd st)).
Proof.
  intros Hst. unfold applyFilter.
  destruct (list_find _ FILTERS) as [[i [name passes]]|]; [|done].
  clear i name. revert st Hst.
  induction passes as [|p passes IH]; intros st Hst; cbn [foldl]; [done|].
  apply IH. by apply runPass_bytes.
Qed.

Lemma uniform_bytes (w h : nat) (v : Z) :
  is_byte v -> Forall is_byte (uniform w h v).
Proof.
  intros Hv. unfold uniform. apply Forall_join, Forall_replicate.
  unfold is_byte in *. repeat constructor; lia.
Qed.

Lemma length_wr (data : list Z) (i : nat) (q : Q) :
  length (wr data i q) = length data.
Proof. apply length_insert. Qed.

Lemma foldl_length {A} (f : list Z -> A -> list Z) (l : list A) (data : list Z) :
  (forall d a, length (f d a) = length d) ->
  length (foldl f data l) = length data.
Proof.
  intros Hf. revert data. induction l as [|a l IH]; intros data; simpl; [done|].
  by rewrite IH, Hf.
Qed.

Lemma length_grainPixel intensity colorGrain rnd (st : list Z * nat) (i : nat) :
  length (fst (grainPixel intensity colorGrain rnd st i)) = length (fst st).
Proof.
  destruct st as [data cur]. unfold grainPixel.
  destruct colorGrain; cbn [fst]; by rewrite !length_wr.
Qed.

Lemma length_grainLoop intensity colorGrain rnd (l : list nat) (st : list Z * nat) :
  length (fst (foldl (grainPixel intensity colorGrain rnd) st l)) = length (fst st).
Proof.
  revert st. induction l as [|i l IH]; intros st; simpl; [done|].
  by rewrite IH, length_grainPixel.
Qed.

Lemma length_applyGrain intensity colorGrain rnd (st : list Z * nat) :
  length (fst (applyGrain intensity colorGrain rnd st)) = length (fst st).
Proof. apply length_grainLoop. Qed.

Lemma length_applySketch (w h : nat) (data : list Z) :
  length (applySketch Math_sqrt w h data) = length data.
Proof.
  unfold applySketch. apply foldl_length.
  intros d xy. unfold sketchPixel. by rewrite !length_wr.
Qed.

(** No pass changes the size of the buffer. *)
Lemma length_runPass (p : Pass) (w h : nat) rnd (st : list Z * nat) :
  length (fst (runPass' p w h rnd st)) = length (fst st).
Proof.
  destruct p as [intensity colorGrain|strength| | |]; cbn [runPass fst].
  - apply length_applyGrain.
  - unfold applyVignette. apply length_imap.
  - unfold applyGlow, glowLayer. by rewrite !length_imap.
  - destruct st as [data cur]. unfold applyWatercolor.
    rewrite length_applyGrain. cbn [fst].
    rewrite foldl_length; [apply length_imap|].
    intros d i. unfold saturatePixel. by rewrite !length_wr.
  - apply length_applySketch.
Qed.

End PassRange.

(** C7: whatever the browser's rasteriser and [Math.random] return, a
    pixel pass applied twice in succession to a uniformly black or
    uniformly white surface leaves every channel value of every pixel in
    the range 0 to 255, after the first application and after the
    second, and keeps the size of the buffer; the same holds of the
    [apply] callback of every entry of the [FILTERS] table. *)
Theorem pass_twice_in_range
    (Math_sqrt : Q -> Q)
    (radialFill : Q -> Q -> Q -> Q -> Q -> nat -> nat -> nat -> Z -> Q)
    (screenDraw : Q -> Q -> Q -> list Z -> nat -> nat -> nat -> Z -> Q)
    (blurDraw : Q -> list Z -> nat -> nat -> nat -> Q)
    (p : Filter.Pass) (id : string) (w h : nat) (rnd : nat -> Q) (cur : nat)
    (white : bool) :
  let surface := Filter.uniform w h (if white then 255 else 0)%Z in
  let once :=
    Filter.runPass Math_sqrt radialFill screenDraw blurDraw p w h rnd (surface, cur) in
  let twice :=
    Filter.runPass Math_sqrt radialFill screenDraw blurDraw p w h rnd once in
  let filtered :=
    Filter.applyFilter Math_sqrt radialFill screenDraw blurDraw id w h rnd (surface, cur) in
  let filteredTwice :=
    Filter.applyFilter Math_sqrt radialFill screenDraw blurDraw id w h rnd filtered in
  Forall Js.is_byte surface
  /\ Forall Js.is_byte (fst once) /\ Forall Js.is_byte (fst twice)
  /\ length (fst twice) = length surface
  /\ Forall Js.is_byte (fst filtered) /\ Forall Js.is_byte (fst filteredTwice).
Proof.
  cbv zeta.
  assert (Hs : Forall Js.is_byte (Filter.uniform w h (if white then 255 else 0)%Z)).
  { apply uniform_bytes. unfold Js.is_byte. destruct white; lia. }
  split; [exact Hs|]. split; [|split; [|split; [|split]]].
  - by apply runPass_bytes.
  - by do 2 apply runPass_bytes.
  - by rewrite !length_runPass.
  - by apply applyFilter_bytes.
  - by do 2 apply applyFilter_bytes.
Qed.

(** ** Pixel passes: which cells are written *)

Section SketchBorder.

Import Js Filter.

Variable Math_sqrt : Q -> Q.

Lemma elem_of_interior (w h x y : nat) :
  (x, y) ∈ interior w h <-> 1 <= x <= w - 2 /\ 1 <= y <= h - 2.
Proof.
  unfold interior. rewrite list_elem_of_bind. split.
  - intros (y' & Hx & Hy). apply list_elem_of_bind in Hx as (x' & Hret & Hx).
    apply list_elem_of_ret in Hret. simplify_eq.
    apply elem_of_seq in Hx, Hy. lia.
  - intros [Hx Hy]. exists y. split; [|apply elem_of_seq; lia].
    apply list_elem_of_bind. exists x. split; [by apply list_elem_of_ret|].
    apply elem_of_seq. lia.
Qed.

(** A cell that is not a colour channel of one of the visited pixels keeps
    its value through the loop. *)
Lemma sketchLoop_lookup_other (copy : list Z) (w : nat) (l : list (nat * nat))
    (data : list Z) (j : nat) :
  (forall xy, xy ∈ l ->
     let i := (snd xy * w + fst xy) * 4 in j <> i /\ j <> i + 1 /\ j <> i + 2) ->
  foldl (sketchPixel Math_sqrt copy w) data l !! j = data !! j.
Proof.
  revert data. induction l as [|xy l IH]; intros data Hl; simpl; [done|].
  rewrite IH.
  - destruct (Hl xy) as (H0 & H1 & H2); [left|].
    unfold sketchPixel, wr. by rewrite !list_lookup_insert_ne.
  - intros xy' Hin. apply Hl. by right.
Qed.

(** Distinct pixels have distinct cells. *)
Lemma cell_index_inj (w x y c x' y' c' : nat) :
  x < w -> x' < w -> c < 4 -> c' < 4 ->
  (y * w + x) * 4 + c = (y' * w + x') * 4 + c' ->
  x = x' /\ y = y' /\ c = c'.
Proof.
  intros Hx Hx' Hc Hc' Heq.
  assert (Hp : y * w + x = y' * w + x') by lia.
  assert (Hy : y = y').
  { destruct (Nat.lt_trichotomy y y') as [Hlt|[->|Hgt]]; [|done|]; exfalso; nia. }
  subst y'. lia.
Qed.

End SketchBorder.

(** C1, as it holds of the code: the sketch pass writes nothing but the
    three colour channels of interior pixels, so on any surface every
    channel of every pixel of the outermost ring (column 0, row 0, last
    column, last row) is unchanged, and so is the alpha channel of every
    pixel; the size of the buffer is kept. *)
Theorem sketch_border_unchanged (Math_sqrt : Q -> Q) (w h : nat)
    (data : list Z) (x y c : nat) :
  x < w -> y < h -> c < 4 ->
  x = 0 \/ y = 0 \/ x = w - 1 \/ y = h - 1 \/ c = 3 ->
  Filter.applySketch Math_sqrt w h data !! ((y * w + x) * 4 + c)
  = data !! ((y * w + x) * 4 + c)
  /\ length (Filter.applySketch Math_sqrt w h data) = length data.
Proof.
  intros Hx Hy Hc Hborder. split; [|apply length_applySketch].
  unfold Filter.applySketch. apply sketchLoop_lookup_other.
  intros [x' y'] Hin. apply elem_of_interior in Hin. cbn [fst snd].
  assert (Hne : forall c', c' < 3 ->
            (y * w + x) * 4 + c <> (y' * w + x') * 4 + c').
  { intros c' Hc' Heq.
    apply cell_index_inj in Heq as (-> & -> & ->); lia. }
  pose proof (Hne 0) as H0. pose proof (Hne 1) as H1. pose proof (Hne 2) as H2.
  rewrite Nat.add_0_r in H0. repeat split; auto with lia.
Qed.

(** The top left pixel and a pixel of the right column of a 4 by 3
    surface. *)
Lemma sketch_border_unchanged_witness :
  (Filter.applySketch (fun q => q) 4 3 (Filter.uniform 4 3 200) !! ((0 * 4 + 0) * 4 + 0)
   = Filter.uniform 4 3 200 !! ((0 * 4 + 0) * 4 + 0)
   /\ length (Filter.applySketch (fun q => q) 4 3 (Filter.uniform 4 3 200))
      = length (Filter.uniform 4 3 200))
  /\ (Filter.applySketch (fun q => q) 4 3 (Filter.uniform 4 3 200) !! ((1 * 4 + 3) * 4 + 1)
      = Filter.uniform 4 3 200 !! ((1 * 4 + 3) * 4 + 1)
      /\ length (Filter.applySketch (fun q => q) 4 3 (Filter.uniform 4 3 200))
         = length (Filter.uniform 4 3 200)).
Proof.
  split.
  - apply (sketch_border_unchanged (fun q => q) 4 3 (Filter.uniform 4 3 200) 0 0 0);
      [lia|lia|lia|left; reflexivity].
  - apply (sketch_border_unchanged (fun q => q) 4 3 (Filter.uniform 4 3 200) 3 1 1);
      [lia|lia|lia|right; right; left; reflexivity].
Defined.

(** C1 as stated fails for the grain pass: on a 3 by 3 black surface the
    'noise' filter's [applyGrain(ctx, w, h, 72, false)], with
    [Math.random()] returning 0.75, turns the red channel of the corner
    pixel (0, 0), a border pixel, from 0 into 36; every pixel of the
    surface is rewritten, the border ring included. *)
Lemma grain_writes_border :
  let surface := Filter.uniform 3 3 0 in
  let out := fst (Filter.applyGrain 72 false (fun _ => 0.75%Q) (surface, 0)) in
  surface !! ((0 * 3 + 0) * 4 + 0) = Some 0%Z
  /\ out !! ((0 * 3 + 0) * 4 + 0) = Some 36%Z
  /\ out = Filter.uniform 3 3 36.
Proof. vm_compute. repeat split; reflexivity. Qed.

(** ** The grain loop, pixel by pixel *)

Section GrainLoop.

Import Js Filter.

Variables (intensity : Q) (colorGrain : bool) (rnd : nat -> Q).

Lemma rd_wr_ne (data : list Z) (i j : nat) (q : Q) :
  i <> j -> rd (wr data i q) j = rd data j.
Proof. intros Hne. unfold rd, wr. by rewrite list_lookup_insert_ne. Qed.

Lemma wr_lookup_eq (data : list Z) (i : nat) (q : Q) :
  i < length data -> wr data i q !! i = Some (ToUint8Clamp q).
Proof. intros Hi. unfold wr. by rewrite list_lookup_insert_eq. Qed.

Lemma wr_lookup_ne (data : list Z) (i j : nat) (q : Q) :
  i <> j -> wr data i q !! j = data !! j.
Proof. intros Hne. unfold wr. by rewrite list_lookup_insert_ne. Qed.

(** One iteration: the three colour cells of the pixel at [i] are
    replaced, everything else is kept, the cursor advances. *)
Lemma grainPixel_spec (data : list Z) (cur i : nat) :
  i + 2 < length data ->
  let st := grainPixel intensity colorGrain rnd (data, cur) i in
  snd st = cur + drawsPerPixel colorGrain
  /\ (forall c, c < 3 ->
        fst st !! (i + c)
        = Some (ToUint8Clamp (grainCell intensity colorGrain rnd cur (rd data (i + c)) c)))
  /\ (forall j, j <> i -> j <> i + 1 -> j <> i + 2 -> fst st !! j = data !! j).
Proof.
  intros Hlen. cbv zeta. unfold grainPixel, grainCell, drawsPerPixel.
  destruct colorGrain; cbn [fst snd]; (split; [done|split]).
  - intros c Hc.
    assert (Hcases : c = 0 \/ c = 1 \/ c = 2) by lia.
    destruct Hcases as [-> | [-> | ->]]; rewrite ?Nat.add_0_r.
    + rewrite !wr_lookup_ne by lia. by rewrite wr_lookup_eq by lia.
    + rewrite wr_lookup_ne by lia.
      rewrite wr_lookup_eq by (rewrite length_wr; lia).
      rewrite rd_wr_ne by lia.
      by replace (cur + 1 + 1) with (cur + 2) by lia.
    + rewrite wr_lookup_eq by (rewrite !length_wr; lia).
      rewrite !rd_wr_ne by lia.
      by replace (cur + 1 + 2) with (cur + 3) by lia.
  - intros j H0 H1 H2. by rewrite !wr_lookup_ne by lia.
  - intros c Hc.
    assert (Hcases : c = 0 \/ c = 1 \/ c = 2) by lia.
    destruct Hcases as [-> | [-> | ->]]; rewrite ?Nat.add_0_r.
    + rewrite !wr_lookup_ne by lia. by rewrite wr_lookup_eq by lia.
    + rewrite wr_lookup_ne by lia.
      rewrite wr_lookup_eq by (rewrite length_wr; lia).
      by rewrite rd_wr_ne by lia.
    + rewrite wr_lookup_eq by (rewrite !length_wr; lia).
      by rewrite !rd_wr_ne by lia.
  - intros j H0 H1 H2. by rewrite !wr_lookup_ne by lia.
Qed.

(** The loop over the pixels [a], ..., [a + m - 1]. *)
Lemma grainLoop_spec (m a : nat) (data : list Z) (cur : nat) :
  4 * (a + m) <= length data ->
  let st := foldl (grainPixel intensity colorGrain rnd) (data, cur)
                  ((fun p => 4 * p) <$> seq a m) in
  snd st = cur + drawsPerPixel colorGrain * m
  /\ (forall p c, a <= p < a + m -> c < 3 ->
        fst st !! (4 * p + c)
        = Some (ToUint8Clamp
                  (grainCell intensity colorGrain rnd
                     (cur + drawsPerPixel colorGrain * (p - a))
                     (rd data (4 * p + c)) c)))
  /\ (forall j, j < 4 * a \/ 4 * (a + m) <= j \/ j mod 4 = 3 ->
        fst st !! j = data !! j).
Proof.
  revert a data cur. induction m as [|m IH]; intros a data cur Hlen; cbv zeta.
  - simpl. split; [lia|]. split; [intros; lia|done].
  - cbn [seq fmap list_fmap foldl].
    destruct (grainPixel_spec data cur (4 * a)) as (Hcur & Hnew & Hold); [lia|].
    destruct (grainPixel intensity colorGrain rnd (data, cur) (4 * a))
      as [d1 cur1] eqn:Hstep.
    cbn [fst snd] in Hcur, Hnew, Hold.
    assert (Hlen1 : length d1 = length data).
    { pose proof (length_grainPixel intensity colorGrain rnd (data, cur) (4 * a)) as Hl.
      by rewrite Hstep in Hl. }
    destruct (IH (S a) d1 cur1) as (IHcur & IHnew & IHold); [lia|].
    split; [lia|]. split.
    + intros p c Hp Hc.
      destruct (decide (p = a)) as [->|Hne].
      * rewrite IHold by lia. rewrite Hnew by done.
        by rewrite Nat.sub_diag, Nat.mul_0_r, Nat.add_0_r.
      * rewrite IHnew by lia.
        do 3 f_equal; [subst cur1; nia|].
        unfold rd. rewrite Hold by lia. done.
    + intros j Hj. rewrite IHold.
      * assert (Hmod : forall k, k < 3 -> (4 * a + k) mod 4 <> 3).
        { intros k Hk. replace (4 * a + k) with (k + a * 4) by lia.
          rewrite Nat.Div0.mod_add, Nat.mod_small; lia. }
        pose proof (Hmod 0) as Hm0. rewrite Nat.add_0_r in Hm0.
        apply Hold; intros ->; destruct Hj as [Hj|[Hj|Hj]];
          first [lia | by eapply Hmod; [|exact Hj]; lia | by apply Hm0; [lia|]].
      * lia.
Qed.

Lemma pixelIndices_whole (n : nat) :
  pixelIndices (4 * n) = (fun p => 4 * p) <$> seq 0 n.
Proof.
  unfold pixelIndices. do 2 f_equal.
  replace (4 * n + 3) with (3 + n * 4) by lia.
  rewrite Nat.div_add by lia. reflexivity.
Qed.

(** [applyGrain] on a buffer of [n] pixels. *)
Lemma applyGrain_spec (n : nat) (data : list Z) (cur : nat) :
  length data = 4 * n ->
  let st := applyGrain intensity colorGrain rnd (data, cur) in
  snd st = cur + drawsPerPixel colorGrain * n
  /\ (forall p c, p < n -> c < 3 ->
        fst st !! (4 * p + c)
        = Some (ToUint8Clamp
                  (grainCell intensity colorGrain rnd
                     (cur + drawsPerPixel colorGrain * p)
                     (rd data (4 * p + c)) c)))
  /\ (forall p, fst st !! (4 * p + 3) = data !! (4 * p + 3)).
Proof.
  intros Hlen. cbv zeta. unfold applyGrain. cbn [fst].
  rewrite Hlen, pixelIndices_whole.
  destruct (grainLoop_spec n 0 data cur) as (Hcur & Hnew & Hold); [lia|].
  split; [exact Hcur|]. split.
  - intros p c Hp Hc. rewrite Hnew by lia. by rewrite Nat.sub_0_r.
  - intros p. apply Hold. right. right.
    replace (4 * p + 3) with (3 + p * 4) by lia.
    by rewrite Nat.Div0.mod_add.
Qed.

End GrainLoop.

(** C6, as it holds of the code: on a buffer of n pixels, for every pixel p
    and colour channel c.  In the default mode one random draw per pixel
    gives one noise value in [-intensity, +intensity], and that same value
    is added to the red, green and blue channels of the pixel (clamped to
    0..255 and stored).  In colour-grain mode one draw gives a base value
    shared by the three channels, and each channel gets in addition a draw
    of its own, scaled into [-0.3 intensity, +0.3 intensity].  The alpha
    channel is never written. *)
Theorem grain_noise_per_pixel (intensity : Q) (rnd : nat -> Q) (n : nat)
    (data : list Z) (cur p c : nat) :
  length data = 4 * n -> p < n -> c < 3 ->
  (0 <= intensity)%Q -> (forall k, 0 <= rnd k /\ rnd k < 1)%Q ->
  let plain := Filter.applyGrain intensity false rnd (data, cur) in
  let colour := Filter.applyGrain intensity true rnd (data, cur) in
  let old := Filter.rd data (4 * p + c) in
  let noise := ((rnd (cur + p)%nat - 0.5) * intensity * 2)%Q in
  let base := ((rnd (cur + 4 * p)%nat - 0.5) * intensity * 2)%Q in
  let extra := ((rnd (cur + 4 * p + 1 + c)%nat - 0.5) * intensity * 0.6)%Q in
  fst plain !! (4 * p + c)
  = Some (Js.ToUint8Clamp (Js.Math_min 255 (Js.Math_max 0 (old + noise)%Q)))
  /\ fst plain !! (4 * p + 3) = data !! (4 * p + 3)
  /\ snd plain = cur + n
  /\ (- intensity <= noise /\ noise <= intensity)%Q
  /\ fst colour !! (4 * p + c)
     = Some (Js.ToUint8Clamp (Js.Math_min 255 (Js.Math_max 0 (old + base + extra)%Q)))
  /\ fst colour !! (4 * p + 3) = data !! (4 * p + 3)
  /\ snd colour = cur + 4 * n
  /\ (- intensity <= base /\ base <= intensity)%Q
  /\ (- (0.3 * intensity) <= extra /\ extra <= 0.3 * intensity)%Q.
Proof.
  intros Hlen Hp Hc HI Hrnd. cbv zeta.
  destruct (applyGrain_spec intensity false rnd n data cur Hlen)
    as (Pcur & Pnew & Palpha).
  destruct (applyGrain_spec intensity true rnd n data cur Hlen)
    as (Ccur & Cnew & Calpha).
  cbn [Filter.drawsPerPixel] in *.
  specialize (Pnew p c Hp Hc). specialize (Cnew p c Hp Hc).
  unfold Filter.grainCell in Pnew, Cnew.
  replace (cur + 1 * p) with (cur + p) in Pnew by lia.
  pose proof (Hrnd (cur + p)) as [R0 R1].
  pose proof (Hrnd (cur + 4 * p)) as [B0 B1].
  pose proof (Hrnd (cur + 4 * p + 1 + c)) as [E0 E1].
  split; [exact Pnew|]. split; [apply Palpha|]. split; [lia|].
  split; [split; nra|].
  split; [exact Cnew|]. split; [apply Calpha|]. split; [lia|].
  split; split; nra.
Qed.

(** The 'noise' filter ([applyGrain(ctx, w, h, 72, false)]) on one grey
    pixel with [Math.random()] returning 0.75. *)
Lemma grain_noise_per_pixel_witness :
  fst (Filter.applyGrain 72 false (fun _ => 0.75%Q) ([100; 100; 100; 255]%Z, 0))
    !! (4 * 0 + 1)
  = Some (Js.ToUint8Clamp
            (Js.Math_min 255
               (Js.Math_max 0
                  (Filter.rd [100; 100; 100; 255]%Z (4 * 0 + 1)
                   + (0.75 - 0.5) * 72 * 2)%Q))).
Proof.
  apply (grain_noise_per_pixel 72 (fun _ => 0.75%Q) 1 [100; 100; 100; 255]%Z 0 0 1).
  - reflexivity.
  - lia.
  - lia.
  - discriminate.
  - intros k. split; [discriminate|reflexivity].
Defined.

(** C6 as stated fails in the default mode: with the draws 0.75, 0.25,
    0.5 the code adds the same +36 to the three channels of a grey pixel,
    where noise drawn independently for each channel would add +36, -36
    and 0. *)
Lemma grain_default_shares_noise :
  let rnd := fun k : nat =>
    match k with 0 => 0.75%Q | 1 => 0.25%Q | _ => 0.5%Q end in
  let pixel := [100; 100; 100; 255]%Z in
  fst (Filter.applyGrain 72 false rnd (pixel, 0)) = [136; 136; 136; 255]%Z
  /\ fst (Filter.applyGrain_independent 72 rnd (pixel, 0)) = [136; 64; 100; 255]%Z
  /\ fst (Filter.applyGrain 72 false rnd (pixel, 0))
     <> fst (Filter.applyGrain_independent 72 rnd (pixel, 0)).
Proof. vm_compute. repeat split; try reflexivity. discriminate. Qed.

(** ** The detection callback *)

Section FaceFacts.

Import Face.
Local Open Scope Q_scope.

Local Abbreviation smoothed' :=
  (Smoothing.smoothed Q Qplus Qminus Qmult 1 Smoothing.SMOOTH_ALPHA).

Lemma smoothAll_cons (k : string) (v : Q) (rest : list (string * Q))
    (s : gmap string (option Q)) :
  smoothAll ((k, v) :: rest) s
  = (smoothed' s k v :: fst (smoothAll rest (<[k := Some (smoothed' s k v)]> s)),
     snd (smoothAll rest (<[k := Some (smoothed' s k v)]> s))).
Proof.
  cbn [smoothAll]. unfold bind, ret, smoothVal, Smoothing.smoothVal.
  by destruct (smoothAll rest _).
Qed.

Lemma smoothed_insert_ne (s : gmap string (option Q)) (k k' : string) (r : option Q) (v : Q) :
  k <> k' -> smoothed' (<[k := r]> s) k' v = smoothed' s k' v.
Proof. intros Hne. unfold Smoothing.smoothed. by rewrite lookup_insert_ne. Qed.

(** With distinct keys, every call sees the value its key had before the
    traversal, and leaves under its key what it returns. *)
Lemma smoothAll_spec (kvs : list (string * Q)) (s : gmap string (option Q)) :
  NoDup kvs.*1 ->
  fst (smoothAll kvs s) = (fun kv => smoothed' s kv.1 kv.2) <$> kvs
  /\ (forall k, k ∉ kvs.*1 -> snd (smoothAll kvs s) !! k = s !! k)
  /\ (forall kv, kv ∈ kvs ->
        snd (smoothAll kvs s) !! kv.1 = Some (Some (smoothed' s kv.1 kv.2))).
Proof.
  revert s. induction kvs as [|[k v] rest IH]; intros s Hnd.
  - split; [done|]. split; [done|]. intros kv Hin. by apply elem_of_nil in Hin.
  - rewrite smoothAll_cons. cbn [fst snd].
    rewrite fmap_cons in Hnd. apply NoDup_cons in Hnd as [Hk Hnd].
    destruct (IH (<[k := Some (smoothed' s k v)]> s) Hnd) as (IH1 & IH2 & IH3).
    split; [|split].
    + rewrite IH1, fmap_cons. f_equal.
      apply Forall_fmap_ext_1, Forall_forall; intros [k' v'] Hin. cbn [fst snd].
      apply smoothed_insert_ne. intros ->. apply Hk.
      apply list_elem_of_fmap. by exists (k', v').
    + intros k' Hk'. rewrite fmap_cons in Hk'. apply not_elem_of_cons in Hk' as [Hne Hk'].
      rewrite IH2 by done. by rewrite lookup_insert_ne.
    + intros [k' v'] Hin. cbn [fst snd]. apply elem_of_cons in Hin as [Heq|Hin].
      * simplify_eq. rewrite IH2 by done. by rewrite lookup_insert_eq.
      * pose proof (IH3 (k', v') Hin) as Hx. cbn [fst snd] in Hx.
        rewrite Hx. do 2 f_equal.
        apply smoothed_insert_ne. intros ->. apply Hk.
        apply list_elem_of_fmap. by exists (k', v').
Qed.


Lemma keys_NoDup : NoDup keys.
Proof. by apply (bool_decide_unpack _). Qed.

Lemma canonicalFrame_smoothAll (W H : Q) (det : Detection)
    (s : gmap string (option Q)) :
  smoothedFields (fst (canonicalFrame W H det s))
  = fst (smoothAll (zip keys (rawFields W H det)) s)
  /\ snd (canonicalFrame W H det s)
     = snd (smoothAll (zip keys (rawFields W H det)) s).
Proof. split; reflexivity. Qed.

(** The smoothed scalars of a frame come from the values the keys had
    before the frame was computed; afterwards the keys hold the scalars
    of the frame. *)
Lemma frame_fields (W H : Q) (det : Detection) (s : gmap string (option Q)) :
  let p := fst (canonicalFrame W H det s) in
  let s' := snd (canonicalFrame W H det s) in
  smoothedFields p
  = zip_with (fun k raw => smoothed' s k raw) keys (rawFields W H det)
  /\ (forall i k r, keys !! i = Some k -> smoothedFields p !! i = Some r ->
        s' !! k = Some (Some r)).
Proof.
  cbv zeta. destruct (canonicalFrame_smoothAll W H det s) as [-> ->].
  destruct (smoothAll_spec (zip keys (rawFields W H det)) s) as (H1 & _ & H3).
  { change ((zip keys (rawFields W H det)).*1) with keys. apply keys_NoDup. }
  split.
  - rewrite H1. reflexivity.
  - intros i k r Hk Hr. rewrite H1 in Hr.
    rewrite list_lookup_fmap in Hr.
    destruct (zip keys (rawFields W H det) !! i) as [[k' v']|] eqn:Hz; [|done].
    cbn in Hr. simplify_eq.
    assert (k' = k) as ->.
    { assert (Hfst : (zip keys (rawFields W H det)).*1 !! i = Some k')
        by (by rewrite list_lookup_fmap, Hz).
      change ((zip keys (rawFields W H det)).*1) with keys in Hfst. congruence. }
    apply (H3 (k, v')). by eapply list_elem_of_lookup_2.
Qed.

(** The frame of a face computed right after another one blends its raw
    coordinates with the smoothed scalars of that other face. *)
Lemma next_frame_blends (W H : Q) (d d' : Detection) (s : gmap string (option Q)) :
  let p := fst (canonicalFrame W H d s) in
  let s1 := snd (canonicalFrame W H d s) in
  let p' := fst (canonicalFrame W H d' s1) in
  smoothedFields p'
  = zip_with (fun prev raw => Smoothing.ema Smoothing.SMOOTH_ALPHA raw prev)
      (smoothedFields p) (rawFields W H d').
Proof.
  cbv zeta.
  destruct (frame_fields W H d s) as [_ Hstore].
  destruct (frame_fields W H d' (snd (canonicalFrame W H d s))) as [-> _].
  set (p := fst (canonicalFrame W H d s)) in *.
  set (s1 := snd (canonicalFrame W H d s)) in *.
  apply list_eq; intros i. rewrite !lookup_zip_with.
  destruct (keys !! i) as [k|] eqn:Hk.
  - assert (Hi : (i < 12)%nat) by (apply lookup_lt_Some in Hk; exact Hk).
    destruct (lookup_lt_is_Some_2 (smoothedFields p) i Hi) as [r Hr].
    rewrite Hr.
    destruct (rawFields W H d' !! i) as [raw|] eqn:Hraw; [|done].
    change (Some (smoothed' s1 k raw)
            = Some (Smoothing.ema Smoothing.SMOOTH_ALPHA raw r)).
    unfold Smoothing.smoothed. by rewrite (Hstore i k r Hk Hr).
  - apply lookup_ge_None in Hk.
    assert (Hnone : smoothedFields p !! i = None) by (apply lookup_ge_None; exact Hk).
    by rewrite Hnone.
Qed.

Lemma foldl_drawFace (id : string) (fl : bool) (W H : Q) (dets : list Detection)
    (acc : list Drawing) (s : gmap string (option Q)) :
  foldl (drawFace id fl W H) (acc, s) dets
  = (acc ++ ((fun p => {| decoration := id; frame := p; flipped := fl |})
               <$> framesFrom W H s dets),
     storeAfter W H s dets).
Proof.
  revert acc s. induction dets as [|d dets IH]; intros acc s.
  - cbn. by rewrite app_nil_r.
  - cbn [foldl framesFrom storeAfter]. unfold drawFace at 2. cbn [fst snd].
    destruct (canonicalFrame W H d s) as [p s'] eqn:Hp. cbn [fst snd].
    rewrite IH, fmap_cons, <- app_assoc. reflexivity.
Qed.

(** A cycle with at least one face and a decoration selected. *)
Lemma onFaceResults_faces (st : State) (fc : FaceCanvas) (d : Detection)
    (dets : list Detection) :
  faceCanvas st = Some fc ->
  String.eqb (currentDecorationId st) "none" = false ->
  let W := inject_Z (fc_width fc) in
  let H := inject_Z (fc_height fc) in
  let st' := onFaceResults {| detections := Some (d :: dets) |} st in
  frames st' = framesFrom W H (store st) (d :: dets)
  /\ store st' = storeAfter W H (store st) (d :: dets)
  /\ faceCanvas st'
     = Some {| fc_width := fc_width fc; fc_height := fc_height fc;
               drawn := (fun p => {| decoration := currentDecorationId st;
                                     frame := p; flipped := userFacing st |})
                        <$> framesFrom W H (store st) (d :: dets) |}
  /\ currentDecorationId st' = currentDecorationId st
  /\ userFacing st' = userFacing st.
Proof.
  intros Hfc Hdeco. cbv zeta. unfold onFaceResults, frames.
  rewrite Hfc. cbn [detections]. rewrite Hdeco, foldl_drawFace.
  cbn [app faceCanvas store currentDecorationId userFacing drawn].
  rewrite <- list_fmap_compose.
  repeat split. by rewrite list_fmap_id.
Qed.

(** In one cycle every frame after the first blends with the frame
    before it. *)
Lemma framesFrom_consecutive (W H : Q) (dets : list Detection)
    (s : gmap string (option Q)) (i : nat) (p p' : Frame) (d' : Detection) :
  framesFrom W H s dets !! i = Some p ->
  framesFrom W H s dets !! S i = Some p' ->
  dets !! S i = Some d' ->
  smoothedFields p'
  = zip_with (fun prev raw => Smoothing.ema Smoothing.SMOOTH_ALPHA raw prev)
      (smoothedFields p) (rawFields W H d').
Proof.
  revert s i. induction dets as [|d dets IH]; intros s i Hp Hp' Hd'; [done|].
  cbn [framesFrom] in Hp, Hp'.
  destruct (canonicalFrame W H d s) as [p0 s0] eqn:Hp0.
  destruct i as [|i].
  - cbn in Hp, Hp', Hd'. simplify_eq.
    destruct dets as [|d1 dets]; [done|]. cbn in Hd'. simplify_eq.
    cbn [framesFrom] in Hp'.
    destruct (canonicalFrame W H d' s0) as [p1 s1] eqn:Hp1.
    cbn in Hp'. simplify_eq.
    pose proof (next_frame_blends W H d d' s) as Hb. cbv zeta in Hb.
    rewrite Hp0 in Hb. cbn [fst snd] in Hb. by rewrite Hp1 in Hb.
  - cbn in Hp, Hp', Hd'. by eapply IH.
Qed.


(** A cycle without detections. *)
Lemma onFaceResults_zero (st : State) (fc : FaceCanvas) (r : Results) :
  faceCanvas st = Some fc -> noDetections r = true ->
  onFaceResults r st
  = {| faceCanvas := Some {| fc_width := fc_width fc; fc_height := fc_height fc;
                             drawn := [] |};
       store := resetSmoothing (store st);
       currentDecorationId := currentDecorationId st;
       userFacing := userFacing st |}.
Proof.
  intros Hfc Hr. unfold onFaceResults, noDetections in *. rewrite Hfc.
  by destruct (detections r) as [[|d dets]|].
Qed.

(** The overlay canvas stays in place, with its size, through any cycle. *)
Lemma onFaceResults_canvas (st : State) (fc : FaceCanvas) (r : Results) :
  faceCanvas st = Some fc ->
  exists ds, faceCanvas (onFaceResults r st)
             = Some {| fc_width := fc_width fc; fc_height := fc_height fc;
                       drawn := ds |}.
Proof.
  intros Hfc. unfold onFaceResults. rewrite Hfc.
  destruct (detections r) as [[|d dets]|]; cbn [faceCanvas]; eauto.
  destruct (String.eqb (currentDecorationId st) "none"); cbn [faceCanvas]; eauto.
  destruct (foldl _ _ _) as [drawings s']. cbn [faceCanvas]. eauto.
Qed.

Lemma cycles_canvas (rs : list Results) (st : State) (fc : FaceCanvas) :
  faceCanvas st = Some fc ->
  exists ds, faceCanvas (cycles rs st)
             = Some {| fc_width := fc_width fc; fc_height := fc_height fc;
                       drawn := ds |}.
Proof.
  revert st fc. induction rs as [|r rs IH]; intros st fc Hfc.
  - exists (drawn fc). cbn. rewrite Hfc. by destruct fc.
  - cbn [cycles foldl]. destruct (onFaceResults_canvas st fc r Hfc) as [ds Hds].
    destruct (IH _ _ Hds) as [ds' Hds']. by exists ds'.
Qed.

Lemma cycles_snoc (rs : list Results) (r : Results) (st : State) :
  cycles (rs ++ [r]) st = onFaceResults r (cycles rs st).
Proof. unfold cycles. by rewrite foldl_snoc. Qed.

(** One cycle with two faces, seen through the key "bx". *)
Lemma two_faces_bx (st : State) (fc : FaceCanvas) (d1 d2 : Detection) :
  faceCanvas st = Some fc ->
  String.eqb (currentDecorationId st) "none" = false ->
  let W := inject_Z (fc_width fc) in
  let st' := onFaceResults {| detections := Some [d1; d2] |} st in
  exists p1 p2,
    frames st' = [p1; p2]
    /\ bx p1 = smoothed' (store st) "bx" (xCenter (boundingBox d1) * W)
    /\ bx p2 = Smoothing.ema Smoothing.SMOOTH_ALPHA
                 (xCenter (boundingBox d2) * W) (bx p1)
    /\ store st' !! "bx" = Some (Some (bx p2))
    /\ (exists ds, faceCanvas st'
                   = Some {| fc_width := fc_width fc; fc_height := fc_height fc;
                             drawn := ds |})
    /\ currentDecorationId st' = currentDecorationId st.
Proof.
  intros Hfc Hdeco. cbv zeta.
  destruct (onFaceResults_faces st fc d1 [d2] Hfc Hdeco)
    as (Hframes & Hstore & Hcanvas & Hid & _).
  cbv zeta in Hframes, Hstore, Hcanvas.
  set (W := inject_Z (fc_width fc)) in *. set (H := inject_Z (fc_height fc)) in *.
  rewrite Hframes, Hstore, Hcanvas, Hid. cbn [framesFrom storeAfter].
  destruct (frame_fields W H d1 (store st)) as [F1 _].
  pose proof (next_frame_blends W H d1 d2 (store st)) as F2.
  destruct (frame_fields W H d2 (snd (canonicalFrame W H d1 (store st))))
    as [_ S2].
  cbv zeta in F1, F2, S2.
  destruct (canonicalFrame W H d1 (store st)) as [p1 s1].
  cbn [fst snd] in *.
  destruct (canonicalFrame W H d2 s1) as [p2 s2].
  cbn [fst snd] in *.
  exists p1, p2. split; [done|].
  apply (f_equal (fun l => l !! 0%nat)) in F1, F2.
  cbn in F1, F2. simplify_eq.
  repeat split; [done|done| |by eexists].
  by apply (S2 0%nat).
Qed.

End FaceFacts.

(** C9: on an existing overlay, a cycle without detections leaves the
    overlay cleared and every key of the smoothing store null; so after
    any earlier cycles followed by one or more cycles without detections
    (five, say) the overlay, of unchanged size, shows nothing of what
    earlier cycles drew, and the next [smoothVal] of any key of the
    store, or of any other key that [Object.prototype] does not define,
    returns its raw value. *)
Theorem zero_detections_clear (st : Face.State) (fc : Face.FaceCanvas)
    (before zero : list Face.Results) :
  Face.faceCanvas st = Some fc ->
  zero <> [] ->
  Forall (fun r => Face.noDetections r = true) zero ->
  let st' := Face.cycles (before ++ zero) st in
  Face.faceCanvas st'
  = Some {| Face.fc_width := Face.fc_width fc;
            Face.fc_height := Face.fc_height fc;
            Face.drawn := [] |}
  /\ Face.overlayEmpty st'
  /\ Face.frames st' = []
  /\ Face.storeCleared st'
  /\ (forall key v,
        is_Some (Face.store st' !! key)
        \/ key ∉ SmoothingJs.Object_prototype_names ->
        fst (Face.smoothVal key v (Face.store st')) = v).
Proof.
  intros Hfc Hne Hzero. cbv zeta.
  destruct zero as [|z zero' _] using rev_ind; [done|].
  apply Forall_app in Hzero as [_ Hz]. rewrite Forall_singleton in Hz.
  rewrite app_assoc, cycles_snoc.
  destruct (cycles_canvas (before ++ zero') st fc Hfc) as [ds Hds].
  rewrite (onFaceResults_zero _ _ z Hds Hz).
  unfold Face.overlayEmpty, Face.frames, Face.storeCleared.
  cbn [Face.faceCanvas Face.store Face.drawn Face.fc_width Face.fc_height].
  repeat split.
  - intros key. apply is_null_reset.
  - intros key v _. apply smoothed_null, is_null_reset.
Qed.

(** A crown drawn for one face on a 640 by 480 overlay, then five cycles
    without detections. *)
Lemma zero_detections_clear_witness :
  let st :=
    {| Face.faceCanvas :=
         Some {| Face.fc_width := 640; Face.fc_height := 480; Face.drawn := [] |};
       Face.store := ∅;
       Face.currentDecorationId := "crown";
       Face.userFacing := true |} in
  let face := {| Face.detections := Some [Face.boxOnly 0.5 0.4 0.3 0.3] |} in
  let none := {| Face.detections := Some [] |} in
  length (Face.frames (Face.cycles [face] st)) = 1
  /\ Face.frames (Face.cycles ([face] ++ replicate 5 none) st) = [].
Proof.
  cbv zeta. split; [reflexivity|].
  eapply (zero_detections_clear _ _ _ (replicate 5 _)).
  - reflexivity.
  - discriminate.
  - repeat constructor.
Defined.

Section TwoFaces.

Import Face.
Local Open Scope Q_scope.

(** Two faces at fixed places, seen again and again, starting with the key
    "bx" null: in every cycle the first frame lies left of the second, and
    both strictly between the faces from the second cycle on. *)
Lemma two_faces_invariant (st : State) (fc : FaceCanvas) (d1 d2 : Detection) (n : nat) :
  faceCanvas st = Some fc ->
  String.eqb (currentDecorationId st) "none" = false ->
  Smoothing.is_null Q (store st) "bx" = true ->
  let W := inject_Z (fc_width fc) in
  let a := xCenter (boundingBox d1) * W in
  let b := xCenter (boundingBox d2) * W in
  a < b ->
  let st' := cycles (replicate (S n) {| detections := Some [d1; d2] |}) st in
  exists p1 p2,
    frames st' = [p1; p2]
    /\ a <= bx p1 /\ bx p1 < bx p2 /\ bx p2 < b
    /\ store st' !! "bx" = Some (Some (bx p2))
    /\ (exists ds, faceCanvas st'
                   = Some {| fc_width := fc_width fc; fc_height := fc_height fc;
                             drawn := ds |})
    /\ String.eqb (currentDecorationId st') "none" = false.
Proof.
  intros Hfc Hdeco Hnull W a b Hab. cbv zeta.
  induction n as [|n IH].
  - change (cycles (replicate 1 {| detections := Some [d1; d2] |}) st)
      with (onFaceResults {| detections := Some [d1; d2] |} st).
    destruct (two_faces_bx st fc d1 d2 Hfc Hdeco)
      as (p1 & p2 & Hf & H1 & H2 & Hs & Hc & Hid).
    rewrite smoothed_null in H1 by done. fold W a in H1. fold W b in H2.
    exists p1, p2. rewrite Hid, H2, H1.
    unfold Smoothing.ema, Smoothing.SMOOTH_ALPHA.
    repeat split; try done; try lra.
    by rewrite Hs, H2, H1.
  - rewrite replicate_S_end, cycles_snoc.
    destruct IH as (p1 & p2 & Hf & Ha & H12 & Hb & Hs & [ds Hc] & Hid).
    set (stn := cycles (replicate (S n) {| detections := Some [d1; d2] |}) st) in *.
    destruct (two_faces_bx stn _ d1 d2 Hc Hid)
      as (q1 & q2 & Hf' & H1 & H2 & Hs' & Hc' & Hid').
    cbn [fc_width fc_height] in H1, H2, Hc'. fold W a in H1. fold W b in H2.
    unfold Smoothing.smoothed in H1. rewrite Hs in H1.
    exists q1, q2. rewrite Hid', Hs', H2, H1.
    unfold Smoothing.ema, Smoothing.SMOOTH_ALPHA.
    repeat split; try done; lra.
Qed.

End TwoFaces.

(** C10: with an overlay in place and a decoration selected, the faces of
    one cycle go through the same keys.  (1) In a cycle with two or more
    faces the smoothed scalars of every face after the first are the
    blend, with factor 0.38, of its own raw coordinates with the smoothed
    scalars of the face processed just before it.  (2) So the frame of the
    second face depends on the first face: two cycles with the same
    second face and first frames that differ in bx give second frames
    that differ in bx.  (3) With two faces at fixed places a < b, seen in
    every cycle from a null key on, the stored bx never settles on a face:
    in every cycle it is pulled down when the first face is processed and
    up when the second is, and from the second cycle on both frames lie
    strictly between the two faces. *)
Theorem simultaneous_faces_share_smoothing (st : Face.State) (fc : Face.FaceCanvas) :
  Face.faceCanvas st = Some fc ->
  String.eqb (Face.currentDecorationId st) "none" = false ->
  let W := inject_Z (Face.fc_width fc) in
  let H := inject_Z (Face.fc_height fc) in
  (forall d dets i p p' d',
      let st' := Face.onFaceResults {| Face.detections := Some (d :: dets) |} st in
      Face.frames st' !! i = Some p ->
      Face.frames st' !! S i = Some p' ->
      (d :: dets) !! S i = Some d' ->
      Face.smoothedFields p'
      = zip_with (fun prev raw => (prev * (1 - 0.38) + raw * 0.38)%Q)
          (Face.smoothedFields p) (Face.rawFields W H d'))
  /\ (forall d1 d1' d2 p1 p2 p1' p2',
        Face.frames (Face.onFaceResults {| Face.detections := Some [d1; d2] |} st)
        = [p1; p2] ->
        Face.frames (Face.onFaceResults {| Face.detections := Some [d1'; d2] |} st)
        = [p1'; p2'] ->
        ~ (Face.bx p1 == Face.bx p1')%Q -> ~ (Face.bx p2 == Face.bx p2')%Q)
  /\ (forall d1 d2 n,
        Smoothing.is_null Q (Face.store st) "bx" = true ->
        let a := (Face.xCenter (Face.boundingBox d1) * W)%Q in
        let b := (Face.xCenter (Face.boundingBox d2) * W)%Q in
        (a < b)%Q ->
        let r := {| Face.detections := Some [d1; d2] |} in
        exists p1 p2 q1 q2,
          Face.frames (Face.cycles (replicate (S n) r) st) = [p1; p2]
          /\ Face.frames (Face.cycles (replicate (S (S n)) r) st) = [q1; q2]
          /\ (a <= Face.bx p1 /\ Face.bx p1 < Face.bx p2 /\ Face.bx p2 < b)%Q
          /\ (a < Face.bx q1 /\ Face.bx q1 < Face.bx p2)%Q
          /\ (Face.bx q1 < Face.bx q2 /\ Face.bx q2 < b)%Q).
Proof.
  intros Hfc Hdeco. cbv zeta. split; [|split].
  - intros d dets i p p' d' Hp Hp' Hd'.
    destruct (onFaceResults_faces st fc d dets Hfc Hdeco) as (Hf & _).
    cbv zeta in Hf. rewrite Hf in Hp, Hp'.
    exact (framesFrom_consecutive _ _ _ _ _ _ _ _ Hp Hp' Hd').
  - intros d1 d1' d2 p1 p2 p1' p2' Hf Hf' Hne Heq.
    destruct (two_faces_bx st fc d1 d2 Hfc Hdeco)
      as (x1 & x2 & Hx & _ & H2 & _).
    destruct (two_faces_bx st fc d1' d2 Hfc Hdeco)
      as (y1 & y2 & Hy & _ & H2' & _).
    cbv zeta in Hx, Hy. rewrite Hf in Hx. rewrite Hf' in Hy. simplify_eq.
    apply Hne. rewrite H2, H2' in Heq.
    unfold Smoothing.ema, Smoothing.SMOOTH_ALPHA in Heq. lra.
  - intros d1 d2 n Hnull Hab.
    destruct (two_faces_invariant st fc d1 d2 n Hfc Hdeco Hnull Hab)
      as (p1 & p2 & Hf & Ha & H12 & Hb & Hs & [ds Hc] & Hid).
    rewrite (replicate_S_end (S n)), cycles_snoc.
    set (stn := Face.cycles (replicate (S n) {| Face.detections := Some [d1; d2] |}) st) in *.
    destruct (two_faces_bx stn _ d1 d2 Hc Hid)
      as (q1 & q2 & Hf' & H1 & H2 & _).
    cbn [Face.fc_width Face.fc_height] in H1, H2.
    unfold Smoothing.smoothed in H1. rewrite Hs in H1.
    exists p1, p2, q1, q2. rewrite H2, H1.
    unfold Smoothing.ema, Smoothing.SMOOTH_ALPHA.
    repeat split; try done; lra.
Qed.

(** Two faces at 20 and 80 on a 100 by 100 overlay: alone the second face
    would be drawn at 80 (800 / 10), after the first it is drawn at 42.8
    (214 / 5). *)
Lemma simultaneous_faces_share_smoothing_witness :
  let st :=
    {| Face.faceCanvas :=
         Some {| Face.fc_width := 100; Face.fc_height := 100; Face.drawn := [] |};
       Face.store := ∅;
       Face.currentDecorationId := "crown";
       Face.userFacing := false |} in
  let d1 := Face.boxOnly 0.2 0.5 0.3 0.3 in
  let d2 := Face.boxOnly 0.8 0.5 0.3 0.3 in
  (Face.bx <$> Face.frames (Face.onFaceResults {| Face.detections := Some [d2] |} st))
  = [Qmake 800 10]
  /\ (Qred <$> (Face.bx <$> Face.frames
                  (Face.onFaceResults {| Face.detections := Some [d1; d2] |} st)))
     = [20%Q; Qmake 214 5]
  /\ (forall p p',
        Face.frames (Face.onFaceResults {| Face.detections := Some [d1; d2] |} st) !! 0
        = Some p ->
        Face.frames (Face.onFaceResults {| Face.detections := Some [d1; d2] |} st) !! 1
        = Some p' ->
        Face.smoothedFields p'
        = zip_with (fun prev raw => (prev * (1 - 0.38) + raw * 0.38)%Q)
            (Face.smoothedFields p) (Face.rawFields 100 100 d2)).
Proof.
  cbv zeta. split; [reflexivity|]. split; [vm_compute; reflexivity|].
  intros p p' Hp Hp'.
  destruct (simultaneous_faces_share_smoothing
              {| Face.faceCanvas :=
                   Some {| Face.fc_width := 100; Face.fc_height := 100;
                           Face.drawn := [] |};
                 Face.store := ∅;
                 Face.currentDecorationId := "crown";
                 Face.userFacing := false |}
              {| Face.fc_width := 100; Face.fc_height := 100; Face.drawn := [] |}
              eq_refl eq_refl) as (Hblend & _).
  exact (Hblend (Face.boxOnly 0.2 0.5 0.3 0.3) [Face.boxOnly 0.8 0.5 0.3 0.3]
           0 p p' (Face.boxOnly 0.8 0.5 0.3 0.3) Hp Hp' eq_refl).
Defined.

(** ** Capture: failures and caption *)

Section CaptureFacts.

Import Capture.

Context {Surface : Type}.

Lemma compose_ready (caption : Z -> Z -> Surface -> Surface * outcome)
    (e : Env Surface) (app : App Surface) (videoW videoH : Z) :
  cameraVideo e = Some (videoW, videoH) -> videoW <> 0%Z -> videoH <> 0%Z ->
  let c := cropRect videoW videoH in
  let outW := fst (outputSize c) in
  let outH := snd (outputSize c) in
  compose caption e app
  = guarded (drawVideo e (userFacing e) (filterStr e) c outW outH (blank e outW outH)) app
      (fun canvas =>
         guarded (match filterApply e with
                  | Some f => f outW outH canvas
                  | None => (canvas, Done)
                  end) app
           (fun canvas =>
              let canvas := swallow (drawFaceFilterOnCanvas e outW outH canvas) in
              let canvas := if frameReady e
                            then swallow (drawFrame e outW outH canvas)
                            else canvas in
              let canvas := swallow (caption outW outH canvas) in
              guarded (drawToResult e canvas (blank e outW outH))
                {| resultCanvas := blank e outW outH; screen := screen app;
                   alerts := alerts app;
                   captureBtn_disabled := captureBtn_disabled app |}
                (fun result =>
                   {| resultCanvas := result; screen := "result";
                      alerts := alerts app;
                      captureBtn_disabled := captureBtn_disabled app |}))).
Proof.
  intros He HW HH. cbv zeta. unfold compose. rewrite He.
  apply Z.eqb_neq in HW, HH. rewrite HW, HH. cbn [orb].
  by destruct (outputSize (cropRect videoW videoH)) as [outW outH].
Qed.

Lemma runOps_nil (e : Env Surface) (s : Surface) : runOps e [] s = (s, Done).
Proof. reflexivity. Qed.

End CaptureFacts.

(** C5, as it holds of the code: when drawing the camera frame (layer 1)
    or the filter's pixel pass (layer 1b) throws, the capture is aborted:
    the failure alert is raised, the capture button is enabled again, the
    result canvas and the screen are as before.  When these two succeed
    and the transfer to the result canvas succeeds, the capture completes
    and the result screen is shown whether or not the decoration layer,
    the frame image or the caption threw: what such a layer drew before
    throwing is part of the result. *)
Theorem capture_failure_policy {Surface : Type}
    (caption : Z -> Z -> Surface -> Surface * Capture.outcome)
    (e : Capture.Env Surface) (app : Capture.App Surface) (videoW videoH : Z) :
  Capture.cameraVideo e = Some (videoW, videoH) ->
  videoW <> 0%Z -> videoH <> 0%Z ->
  let c := Capture.cropRect videoW videoH in
  let outW := fst (Capture.outputSize c) in
  let outH := snd (Capture.outputSize c) in
  let r1 := Capture.drawVideo e (Capture.userFacing e) (Capture.filterStr e)
              c outW outH (Capture.blank e outW outH) in
  let r1b := match Capture.filterApply e with
             | Some f => f outW outH (fst r1)
             | None => (fst r1, Capture.Done)
             end in
  let c2 := fst (Capture.drawFaceFilterOnCanvas e outW outH (fst r1b)) in
  let c3 := if Capture.frameReady e
            then fst (Capture.drawFrame e outW outH c2) else c2 in
  let c4 := fst (caption outW outH c3) in
  let rr := Capture.drawToResult e c4 (Capture.blank e outW outH) in
  let out := Capture.compose caption e app in
  (snd r1 = Capture.Thrown \/ snd r1b = Capture.Thrown ->
     out = Capture.onError app
     /\ Capture.resultCanvas out = Capture.resultCanvas app
     /\ Capture.screen out = Capture.screen app
     /\ Capture.alerts out = Capture.alerts app ++ [Capture.CaptureFailed]
     /\ Capture.captureBtn_disabled out = false)
  /\ (snd r1 = Capture.Done -> snd r1b = Capture.Done -> snd rr = Capture.Done ->
        Capture.resultCanvas out = fst rr
        /\ Capture.screen out = "result"
        /\ Capture.alerts out = Capture.alerts app
        /\ Capture.captureBtn_disabled out = Capture.captureBtn_disabled app).
Proof.
  intros He HW HH. cbv zeta.
  rewrite (compose_ready caption e app videoW videoH He HW HH). cbv zeta.
  set (c := Capture.cropRect videoW videoH).
  set (outW := fst (Capture.outputSize c)). set (outH := snd (Capture.outputSize c)).
  destruct (Capture.drawVideo e (Capture.userFacing e) (Capture.filterStr e)
              c outW outH (Capture.blank e outW outH)) as [s1 [|]];
    cbn [fst snd Capture.guarded].
  - destruct (match Capture.filterApply e with
              | Some f => f outW outH s1
              | None => (s1, Capture.Done)
              end) as [s1b [|]]; cbn [fst snd Capture.guarded Capture.swallow].
    + split; [intros [?|?]; discriminate|].
      intros _ _ Hrr.
      destruct (Capture.drawToResult e _ _) as [res o].
      cbn [snd] in Hrr. subst o. by cbn.
    + split; [by intros _|]. intros _ ?. discriminate.
  - split; [by intros _|]. intros ?. discriminate.
Qed.

(** A camera frame that cannot be drawn: the previous photo stays on the
    result canvas and the camera screen stays up. *)
Lemma capture_failure_policy_witness :
  let out := Capture.captureImage Scenario.newDate Scenario.formatDate true None
               Scenario.envCameraThrows Scenario.app0 in
  out = Capture.onError Scenario.app0
  /\ Capture.resultCanvas out = ["previous photo"]
  /\ Capture.screen out = "camera"
  /\ Capture.alerts out = [Capture.CaptureFailed]
  /\ Capture.captureBtn_disabled out = false.
Proof.
  cbv zeta.
  apply (capture_failure_policy
           (fun w h s => Capture.runOps Scenario.envCameraThrows
                           (Capture.drawMessageOnCanvas string Scenario.newDate
                              Scenario.formatDate true None w h) s)
           Scenario.envCameraThrows Scenario.app0 1920 1080 eq_refl).
  - discriminate.
  - discriminate.
  - left. reflexivity.
Defined.

(** C5 as stated fails for the later layers: when
    [drawFaceFilterOnCanvas] throws after its first strokes, no alert is
    raised, the result screen is shown, and the result canvas holds the
    composition with the partly drawn decoration under the frame image. *)
Lemma capture_surfaces_partial_layer :
  let out := Capture.captureImage Scenario.newDate Scenario.formatDate true None
               (Scenario.env true) Scenario.app0 in
  snd (Capture.drawFaceFilterOnCanvas (Scenario.env true) 1440 1080 ["camera frame"])
  = Capture.Thrown
  /\ Capture.screen out = "result"
  /\ Capture.alerts out = []
  /\ Capture.resultCanvas out
     = ["camera frame"; "decoration, first strokes only"; "frame image"]
  /\ Capture.resultCanvas out <> Capture.resultCanvas Scenario.app0.
Proof. vm_compute. repeat split; try reflexivity. discriminate. Qed.

Section CaptionFacts.

Import Capture.

Context {JsDate : Type}.
Variable newDate : string -> option JsDate.
Variable formatDate : JsDate -> string.
Variable hasRoundRect : bool.

Local Abbreviation draw := (drawMessageOnCanvas JsDate newDate formatDate hasRoundRect).
Local Abbreviation lines := (captionLines JsDate newDate formatDate).


(** No field present: no call on the context at all. *)
Lemma draw_nothing (cfg : MessageConfig) (width height : Z) :
  has (date cfg) = false -> has (text cfg) = false -> has (location cfg) = false ->
  draw (Some cfg) width height = [].
Proof. intros Hd Ht Hl. unfold drawMessageOnCanvas. by rewrite Hd, Ht, Hl. Qed.

(** Some field present but no line: the context is saved and restored. *)
Lemma draw_no_line (cfg : MessageConfig) (width height : Z) :
  has (date cfg) || has (text cfg) || has (location cfg) = true ->
  lines cfg = [] ->
  draw (Some cfg) width height = [Save; Restore].
Proof.
  intros Hany Hlines. unfold drawMessageOnCanvas.
  destruct (has (date cfg)), (has (text cfg)), (has (location cfg));
    try discriminate Hany; cbn [negb andb]; by rewrite Hlines.
Qed.



(** At least one line: the calls, in order. *)
Lemma draw_with_lines (cfg : MessageConfig) (width height : Z) :
  lines cfg <> [] ->
  draw (Some cfg) width height
  = (let baseFontSize := Js.Math_round (inject_Z height * 0.028) in
     let lineH := inject_Z baseFontSize * 1.7 in
     let totalH := inject_Z (Z.of_nat (length (lines cfg))) * lineH
                   + inject_Z baseFontSize * 1.4 in
     let boxW := inject_Z width * 0.88 in
     let boxH := totalH + inject_Z baseFontSize in
     let boxX := (inject_Z width - boxW) / 2 in
     let boxY := inject_Z height - boxH - inject_Z height * 0.04 in
     [ Save;
       FillStyle "rgba(26, 35, 50, 0.72)";
       BeginPath;
       (if hasRoundRect then RoundRect boxX boxY boxW boxH 14
        else Rect boxX boxY boxW boxH);
       Fill;
       StrokeStyle "rgba(212, 175, 55, 0.7)";
       LineWidth 1.5;
       Stroke;
       TextAlign "center";
       TextBaseline "middle" ]
     ++ mjoin (imap (drawLine (inject_Z width) baseFontSize boxY lineH) (lines cfg))
     ++ [Restore])%Q.
Proof.
  intros Hlines. unfold drawMessageOnCanvas.
  assert (Hany : negb (has (date cfg)) && negb (has (text cfg))
                 && negb (has (location cfg)) = false).
  { unfold captionLines in Hlines.
    destruct (has (date cfg)), (has (text cfg)), (has (location cfg)); done. }
  rewrite Hany.
  destruct (lines cfg) as [|l ls] eqn:Hl; [done|]. reflexivity.
Qed.

(** The text calls of the bodies of the [forEach], followed by
    [restore]: each line is written twice, first the shadow one pixel
    right and down in translucent black, then the text in its colour. *)
Lemma textCalls_forEach (width : Q) (baseFontSize : Z) (boxY lineH : Q)
    (ls : list string) (k : nat) (s0 : string) (saved : list string) (style : string) :
  CaptionOps.textCalls (s0 :: saved) style
    (mjoin (imap (fun i => drawLine width baseFontSize boxY lineH (k + i)) ls) ++ [Restore])
  = mjoin (imap (fun i line =>
             [ ("rgba(0,0,0,0.6)"%string, line, width / 2 + 1,
                boxY + inject_Z baseFontSize * 0.9
                + (inject_Z (Z.of_nat (k + i)) + 0.5) * lineH + 1);
               ((if Nat.eqb (k + i) 0 then "#D4AF37" else "#FAF9F6")%string, line,
                width / 2,
                boxY + inject_Z baseFontSize * 0.9
                + (inject_Z (Z.of_nat (k + i)) + 0.5) * lineH) ]%Q) ls).
Proof.
  revert k style. induction ls as [|line ls IH]; intros k style; [reflexivity|].
  rewrite !imap_cons.
  change (mjoin (?a :: ?l)) with (a ++ mjoin l).
  rewrite <- app_assoc. unfold drawLine at 1.
  cbn [app CaptionOps.textCalls]. do 2 f_equal.
  rewrite (imap_ext _ (fun i => drawLine width baseFontSize boxY lineH (S k + i)) ls).
  2: { intros i x _. unfold Basics.compose. f_equal. lia. }
  rewrite IH. f_equal. apply imap_ext. intros i x _. unfold Basics.compose.
  by replace (k + S i) with (S k + i) by lia.
Qed.

(** The lines of such a log, and the entries at the places of line [i]. *)
Lemma fmap_join_pairs {A B : Type} (b1 b2 : nat -> A -> B) (g : B -> A) (l : list A) :
  (forall j a, g (b1 j a) = a) -> (forall j a, g (b2 j a) = a) ->
  g <$> mjoin (imap (fun j a => [b1 j a; b2 j a]) l) = l ≫= (fun a => [a; a]).
Proof.
  revert b1 b2. induction l as [|a l IH]; intros b1 b2 H1 H2; [reflexivity|].
  rewrite imap_cons.
  change (mjoin (?x :: ?y)) with (x ++ mjoin y).
  cbn [app fmap list_fmap mbind list_bind]. rewrite H1, H2. do 2 f_equal.
  apply (IH (fun j => b1 (S j)) (fun j => b2 (S j))); auto.
Qed.

Lemma lookup_join_pairs {A B : Type} (b1 b2 : nat -> A -> B) (l : list A)
    (i : nat) (x : A) :
  l !! i = Some x ->
  mjoin (imap (fun j a => [b1 j a; b2 j a]) l) !! (2 * i) = Some (b1 i x)
  /\ mjoin (imap (fun j a => [b1 j a; b2 j a]) l) !! (2 * i + 1) = Some (b2 i x).
Proof.
  revert b1 b2 i. induction l as [|a l IH]; intros b1 b2 i Hi; [done|].
  rewrite imap_cons. change (mjoin (?u :: ?w)) with (u ++ mjoin w).
  destruct i as [|i].
  - cbn in Hi. injection Hi as ->. split; reflexivity.
  - cbn in Hi. replace (2 * S i) with (S (S (2 * i))) by lia.
    replace (S (S (2 * i)) + 1) with (S (S (2 * i + 1))) by lia.
    cbn [app lookup list_lookup].
    apply (IH (fun j => b1 (S j)) (fun j => b2 (S j)) i Hi).
Qed.

Lemma length_join_pairs {A B : Type} (b1 b2 : nat -> A -> B) (l : list A) :
  length (mjoin (imap (fun j a => [b1 j a; b2 j a]) l)) = 2 * length l.
Proof.
  revert b1 b2. induction l as [|a l IH]; intros b1 b2; [reflexivity|].
  rewrite imap_cons. change (mjoin (?u :: ?w)) with (u ++ mjoin w).
  cbn [app length]. transitivity (S (S (2 * length l))); [|lia].
  do 2 f_equal. apply (IH (fun j => b1 (S j)) (fun j => b2 (S j))).
Qed.

(** The text calls of a caption with at least one line. *)
Lemma textCalls_draw (cfg : MessageConfig) (width height : Z) :
  lines cfg <> [] ->
  exists boxY lineH : Q,
    CaptionOps.textCalls [] "#000000" (draw (Some cfg) width height)
    = mjoin (imap (fun i line =>
               [ ("rgba(0,0,0,0.6)"%string, line, inject_Z width / 2 + 1,
                  boxY + inject_Z (Js.Math_round (inject_Z height * 0.028)) * 0.9
                  + (inject_Z (Z.of_nat i) + 0.5) * lineH + 1);
                 ((if Nat.eqb i 0 then "#D4AF37" else "#FAF9F6")%string, line,
                  inject_Z width / 2,
                  boxY + inject_Z (Js.Math_round (inject_Z height * 0.028)) * 0.9
                  + (inject_Z (Z.of_nat i) + 0.5) * lineH) ]%Q) (lines cfg)).
Proof.
  intros Hlines. rewrite (draw_with_lines cfg width height Hlines). cbv zeta.
  do 2 eexists.
  destruct hasRoundRect; cbn [app CaptionOps.textCalls];
    apply (textCalls_forEach _ _ _ _ (lines cfg) 0).
Qed.


End CaptionFacts.



(* ====================================================================== *)
(** * Part III: further properties of the code around the claims *)
(* ====================================================================== *)

(** ** The smoothing store *)

Section StoreFurther.

Import Smoothing.

Context {num : Type} (add sub mul : num -> num -> num) (one alpha : num).

Local Abbreviation smoothedG := (smoothed num add sub mul one alpha).

Lemma smoothed_insert_other (s : gmap string (option num)) (k k' : string)
    (r : option num) (v : num) :
  k <> k' -> smoothedG (<[k := r]> s) k' v = smoothedG s k' v.
Proof. intros Hne. unfold smoothed. by rewrite lookup_insert_ne. Qed.

(** [smoothVal] on two different keys can be called in either order: the
    returned values and the final store are the same, for any number
    type. *)
Theorem smoothVal_commute (s : gmap string (option num)) (k1 k2 : string)
    (v1 v2 : num) :
  k1 <> k2 ->
  let a := smoothVal num add sub mul one alpha k1 v1 s in
  let ab := smoothVal num add sub mul one alpha k2 v2 (snd a) in
  let b := smoothVal num add sub mul one alpha k2 v2 s in
  let ba := smoothVal num add sub mul one alpha k1 v1 (snd b) in
  fst a = fst ba /\ fst ab = fst b /\ snd ab = snd ba.
Proof.
  intros Hne. cbv zeta. unfold smoothVal. cbn [fst snd].
  rewrite !smoothed_insert_other by done.
  repeat split. by apply insert_insert_ne.
Qed.

(** [resetSmoothing] keeps the set of keys (it stores null, it does not
    delete), makes every key null, and doing it twice is the same as
    doing it once. *)
Theorem resetSmoothing_keeps_keys (s : gmap string (option num)) :
  dom (resetSmoothing num s) = dom s
  /\ (forall k, resetSmoothing num s !! k = (fun _ => None) <$> s !! k)
  /\ (forall k, is_null num (resetSmoothing num s) k = true)
  /\ resetSmoothing num (resetSmoothing num s) = resetSmoothing num s.
Proof.
  unfold resetSmoothing. repeat split.
  - apply dom_fmap_L.
  - intros k. apply lookup_fmap.
  - intros k. apply is_null_reset.
  - rewrite <- map_fmap_compose. done.
Qed.

End StoreFurther.

(** Two keys smoothed in both orders, in the arithmetic of the code. *)
Lemma smoothVal_commute_witness :
  snd (Face.smoothVal "by" 7 (snd (Face.smoothVal "bx" 5 {[ "bx" := Some 1%Q ]})))
  = snd (Face.smoothVal "bx" 5 (snd (Face.smoothVal "by" 7 {[ "bx" := Some 1%Q ]}))).
Proof.
  apply (smoothVal_commute Qplus Qminus Qmult 1%Q Smoothing.SMOOTH_ALPHA
           {[ "bx" := Some 1%Q ]} "bx" "by" 5%Q 7%Q).
  discriminate.
Defined.

(** A smoothed value overshoots by no more than the rounding.  In an
    arithmetic whose operations have a relative error of at most u, with
    a previous value stored, [smoothVal] returns the blend
    [prev * (1 - alpha) + v * alpha] up to the accumulated error
    g = (1 + u)^3 - 1 of its three roundings in a row; so the result lies
    between the stored and the raw value up to that slack, and exactly
    between them when nothing is rounded.  What is returned is what is
    stored. *)
Theorem smoothVal_between (fl : Q -> Q) (u alpha : Q)
    (s : gmap string (option Q)) (key : string) (prev v : Q) :
  (0 < alpha)%Q -> (alpha < 1)%Q -> (0 <= u)%Q -> Rounded.standard fl u ->
  s !! key = Some (Some prev) ->
  let r := fst (Rounded.smoothVal fl alpha key v s) in
  let slack := (Rounded.gamma3 u * ((1 - alpha) * Qabs prev + alpha * Qabs v))%Q in
  snd (Rounded.smoothVal fl alpha key v s) !! key = Some (Some r)
  /\ (Qabs (r - (prev * (1 - alpha) + v * alpha)) <= slack)%Q
  /\ (Qmin prev v - slack <= r)%Q /\ (r <= Qmax prev v + slack)%Q
  /\ (u == 0 -> Qmin prev v <= r /\ r <= Qmax prev v)%Q.
Proof.
  intros Ha0 Ha1 Hu Hfl Hs. cbv zeta.
  split; [apply smoothVal_lookup|].
  assert (Hr : fst (Rounded.smoothVal fl alpha key v s) = Rounded.blend fl alpha v prev).
  { unfold Rounded.smoothVal, Smoothing.smoothVal, Smoothing.smoothed. cbn [fst].
    by rewrite Hs. }
  rewrite Hr.
  pose proof (blend_error fl u alpha v Ha0 Ha1 Hu Hfl prev) as Hb.
  set (r := Rounded.blend fl alpha v prev) in *.
  set (slack := (Rounded.gamma3 u * ((1 - alpha) * Qabs prev + alpha * Qabs v))%Q) in *.
  split; [exact Hb|].
  apply Qabs_Qle_condition in Hb as [Hlo Hhi].
  assert (Hbetween : (Qmin prev v <= prev * (1 - alpha) + v * alpha
                      /\ prev * (1 - alpha) + v * alpha <= Qmax prev v)%Q).
  { destruct (Qlt_le_dec prev v) as [Hlt|Hle].
    - rewrite Q.min_l, Q.max_r by lra. split; nra.
    - rewrite Q.min_r, Q.max_l by lra. split; nra. }
  destruct Hbetween as [Hb1 Hb2].
  split; [lra|]. split; [lra|].
  intros Hu0.
  assert (Hz : (slack == 0)%Q).
  { unfold slack, Rounded.gamma3. rewrite Hu0. ring. }
  rewrite Hz in Hlo, Hhi. split; lra.
Qed.

(** Binary64 rounding with 0.9 stored and 0.9 given, where the code
    returns 0.9000000000000001. *)
Lemma smoothVal_between_witness :
  let alpha := Binary64.fl64 0.38 in
  let x := Binary64.fl64 0.9 in
  let r := fst (Rounded.smoothVal Binary64.fl64 alpha "bx" x {[ "bx" := Some x ]}) in
  let slack := (Rounded.gamma3 Binary64.u64 * ((1 - alpha) * Qabs x + alpha * Qabs x))%Q in
  snd (Rounded.smoothVal Binary64.fl64 alpha "bx" x {[ "bx" := Some x ]}) !! "bx"
  = Some (Some r)
  /\ (Qabs (r - (x * (1 - alpha) + x * alpha)) <= slack)%Q
  /\ (Qmin x x - slack <= r)%Q /\ (r <= Qmax x x + slack)%Q.
Proof.
  cbv zeta.
  destruct (smoothVal_between Binary64.fl64 Binary64.u64 (Binary64.fl64 0.38)
              {[ "bx" := Some (Binary64.fl64 0.9) ]} "bx"
              (Binary64.fl64 0.9) (Binary64.fl64 0.9))
    as (H1 & H2 & H3 & H4 & _);
    [vm_compute; reflexivity|vm_compute; reflexivity|discriminate
    |exact fl64_standard|reflexivity|].
  repeat split; assumption.
Defined.

(** ** The detection callback: what is drawn *)

Section FramesFurther.

Import Face FaceLoop.
Local Open Scope Q_scope.

(** The frame is built from the twelve smoothed scalars alone. *)
Lemma canonicalFrame_shape (W H : Q) (det : Detection) (s : gmap string (option Q)) :
  exists bx by_ bw bh rex rey lex ley nx ny mx my,
    fst (canonicalFrame W H det s)
    = {| bx := bx; by_ := by_; bw := bw; bh := bh;
         rex := rex; rey := rey; lex := lex; ley := ley;
         nx := nx; ny := ny; mx := mx; my := my;
         eyeMidX := (rex + lex) / 2; eyeMidY := (rey + ley) / 2;
         eyeSep := Js.Math_abs (rex - lex);
         faceTop := by_ - bh * 0.5; faceBot := by_ + bh * 0.5;
         faceLeft := bx - bw * 0.5; faceRight := bx + bw * 0.5;
         W := W; H := H |}.
Proof. do 12 eexists. reflexivity. Qed.

Lemma canonicalFrame_consistent (W H : Q) (det : Detection)
    (s : gmap string (option Q)) :
  consistent W H (fst (canonicalFrame W H det s)).
Proof.
  destruct (canonicalFrame_shape W H det s)
    as (bx & by_ & bw & bh & rex & rey & lex & ley & nx & ny & mx & my & ->).
  unfold consistent.
  cbn [Face.bx Face.by_ Face.bw Face.bh Face.rex Face.rey Face.lex Face.ley
       Face.eyeMidX Face.eyeMidY Face.eyeSep Face.faceTop Face.faceBot
       Face.faceLeft Face.faceRight Face.W Face.H].
  unfold Js.Math_abs.
  assert (Hmid : forall a b : Q, Qmin a b <= (a + b) / 2 /\ (a + b) / 2 <= Qmax a b).
  { intros a b. unfold Qdiv. change (/ 2) with (1 # 2).
    destruct (Qlt_le_dec a b) as [Hlt|Hle].
    - rewrite Q.min_l, Q.max_r by lra. split; lra.
    - rewrite Q.min_r, Q.max_l by lra. split; lra. }
  split; [|split; reflexivity].
  split; [apply Qabs_nonneg|]. split; [apply Hmid|]. split; [apply Hmid|].
  split; [intros Hw; split; lra|]. split; [intros Hh; split; lra|].
  split.
  - intros Hle. rewrite Qabs_neg by lra. ring.
  - intros Hle. rewrite Qabs_pos by lra. ring.
Qed.

Lemma framesFrom_consistent (W H : Q) (dets : list Detection)
    (s : gmap string (option Q)) :
  Forall (consistent W H) (framesFrom W H s dets).
Proof.
  revert s. induction dets as [|d dets IH]; intros s; cbn [framesFrom]; [constructor|].
  pose proof (canonicalFrame_consistent W H d s) as Hc.
  destruct (canonicalFrame W H d s) as [p s']. constructor; [exact Hc|apply IH].
Qed.

Lemma length_framesFrom (W H : Q) (dets : list Detection) (s : gmap string (option Q)) :
  length (framesFrom W H s dets) = length dets.
Proof.
  revert s. induction dets as [|d dets IH]; intros s; cbn [framesFrom]; [done|].
  destruct (canonicalFrame W H d s) as [p s']. cbn. by rewrite IH.
Qed.

(** What a cycle draws, in every case. *)
Lemma frames_onFaceResults (r : Results) (st : State) (fc : FaceCanvas) :
  faceCanvas st = Some fc ->
  frames (onFaceResults r st) = []
  \/ exists d dets,
       detections r = Some (d :: dets)
       /\ String.eqb (currentDecorationId st) "none" = false
       /\ frames (onFaceResults r st)
          = framesFrom (inject_Z (fc_width fc)) (inject_Z (fc_height fc))
              (store st) (d :: dets).
Proof.
  intros Hfc. destruct r as [[[|d dets]|]].
  - left. unfold onFaceResults, frames. by rewrite Hfc.
  - destruct (String.eqb (currentDecorationId st) "none") eqn:Hid.
    + left. unfold onFaceResults, frames. rewrite Hfc. cbn [detections].
      by rewrite Hid.
    + right. exists d, dets. split; [done|]. split; [done|].
      by destruct (onFaceResults_faces st fc d dets Hfc Hid) as (Hf & _).
  - left. unfold onFaceResults, frames. by rewrite Hfc.
Qed.

End FramesFurther.

(** Every frame handed to [drawDecoration], in any cycle on an existing
    overlay, is placed coherently: W and H are the overlay's size, the
    eye separation is not negative and is the distance from the eye with
    the smaller x to the other, the eye midpoint lies between the two
    smoothed eyes in both coordinates, and when the smoothed box has a
    non-negative width (height) its centre lies between the left and
    right (top and bottom) edge. *)
Theorem drawn_frames_consistent (r : Face.Results) (st : Face.State)
    (fc : Face.FaceCanvas) (p : Face.Frame) :
  Face.faceCanvas st = Some fc ->
  p ∈ Face.frames (Face.onFaceResults r st) ->
  Face.W p = inject_Z (Face.fc_width fc)
  /\ Face.H p = inject_Z (Face.fc_height fc)
  /\ (0 <= Face.eyeSep p)%Q
  /\ (Face.rex p <= Face.lex p -> Face.eyeSep p == Face.lex p - Face.rex p)%Q
  /\ (Face.lex p <= Face.rex p -> Face.eyeSep p == Face.rex p - Face.lex p)%Q
  /\ (Qmin (Face.rex p) (Face.lex p) <= Face.eyeMidX p
      /\ Face.eyeMidX p <= Qmax (Face.rex p) (Face.lex p))%Q
  /\ (Qmin (Face.rey p) (Face.ley p) <= Face.eyeMidY p
      /\ Face.eyeMidY p <= Qmax (Face.rey p) (Face.ley p))%Q
  /\ (0 <= Face.bw p -> Face.faceLeft p <= Face.bx p /\ Face.bx p <= Face.faceRight p)%Q
  /\ (0 <= Face.bh p -> Face.faceTop p <= Face.by_ p /\ Face.by_ p <= Face.faceBot p)%Q.
Proof.
  intros Hfc Hin.
  destruct (frames_onFaceResults r st fc Hfc) as [Hnil|(d & dets & _ & _ & Hf)].
  - rewrite Hnil in Hin. by apply elem_of_nil in Hin.
  - rewrite Hf in Hin.
    pose proof (framesFrom_consistent (inject_Z (Face.fc_width fc))
                  (inject_Z (Face.fc_height fc)) (d :: dets) (Face.store st)) as Hall.
    rewrite Forall_forall in Hall. specialize (Hall p Hin).
    unfold FaceLoop.consistent in Hall. tauto.
Qed.

Lemma drawn_frames_consistent_witness :
  let st :=
    {| Face.faceCanvas :=
         Some {| Face.fc_width := 640; Face.fc_height := 480; Face.drawn := [] |};
       Face.store := ∅;
       Face.currentDecorationId := "glasses";
       Face.userFacing := true |} in
  let r := {| Face.detections := Some [Face.boxOnly 0.5 0.4 0.3 0.3] |} in
  length (Face.frames (Face.onFaceResults r st)) = 1
  /\ Forall (fun p => Face.W p = inject_Z 640
                      /\ (Qmin (Face.rex p) (Face.lex p) <= Face.eyeMidX p)%Q)
       (Face.frames (Face.onFaceResults r st)).
Proof.
  cbv zeta. split; [reflexivity|].
  apply Forall_forall. intros p Hp.
  pose proof (drawn_frames_consistent
                {| Face.detections := Some [Face.boxOnly 0.5 0.4 0.3 0.3] |}
                {| Face.faceCanvas :=
                     Some {| Face.fc_width := 640; Face.fc_height := 480;
                             Face.drawn := [] |};
                   Face.store := ∅;
                   Face.currentDecorationId := "glasses";
                   Face.userFacing := true |}
                {| Face.fc_width := 640; Face.fc_height := 480; Face.drawn := [] |}
                p eq_refl Hp) as H.
  split; [exact (proj1 H)|].
  exact (proj1 (proj1 (proj2 (proj2 (proj2 (proj2 (proj2 H))))))).
Defined.

(** With a decoration selected, a cycle with detections draws exactly one
    decoration per detection, in the order of the detections, each with
    the selected id and mirrored exactly when the front camera is active;
    the overlay keeps its size. *)
Theorem one_drawing_per_detection (st : Face.State) (fc : Face.FaceCanvas)
    (d : Face.Detection) (dets : list Face.Detection) :
  Face.faceCanvas st = Some fc ->
  String.eqb (Face.currentDecorationId st) "none" = false ->
  let st' := Face.onFaceResults {| Face.detections := Some (d :: dets) |} st in
  exists ds,
    Face.faceCanvas st'
    = Some {| Face.fc_width := Face.fc_width fc; Face.fc_height := Face.fc_height fc;
              Face.drawn := ds |}
    /\ length ds = length (d :: dets)
    /\ Forall (fun dr => Face.decoration dr = Face.currentDecorationId st
                         /\ Face.flipped dr = Face.userFacing st) ds
    /\ Face.frame <$> ds
       = Face.framesFrom (inject_Z (Face.fc_width fc)) (inject_Z (Face.fc_height fc))
           (Face.store st) (d :: dets).
Proof.
  intros Hfc Hid. cbv zeta.
  destruct (onFaceResults_faces st fc d dets Hfc Hid) as (_ & _ & Hc & _).
  cbv zeta in Hc. eexists. split; [exact Hc|].
  split; [by rewrite length_fmap, length_framesFrom|]. split.
  - apply Forall_fmap, Forall_forall. by intros p _.
  - rewrite <- list_fmap_compose. apply list_fmap_id.
Qed.

Lemma one_drawing_per_detection_witness :
  let st :=
    {| Face.faceCanvas :=
         Some {| Face.fc_width := 640; Face.fc_height := 480; Face.drawn := [] |};
       Face.store := ∅;
       Face.currentDecorationId := "crown";
       Face.userFacing := true |} in
  exists ds,
    Face.faceCanvas
      (Face.onFaceResults
         {| Face.detections := Some [Face.boxOnly 0.3 0.4 0.2 0.2;
                                     Face.boxOnly 0.7 0.4 0.2 0.2] |} st)
    = Some {| Face.fc_width := 640; Face.fc_height := 480; Face.drawn := ds |}
    /\ length ds = 2.
Proof.
  cbv zeta.
  destruct (one_drawing_per_detection
              {| Face.faceCanvas :=
                   Some {| Face.fc_width := 640; Face.fc_height := 480;
                           Face.drawn := [] |};
                 Face.store := ∅;
                 Face.currentDecorationId := "crown";
                 Face.userFacing := true |}
              {| Face.fc_width := 640; Face.fc_height := 480; Face.drawn := [] |}
              (Face.boxOnly 0.3 0.4 0.2 0.2) [Face.boxOnly 0.7 0.4 0.2 0.2]
              eq_refl eq_refl) as (ds & Hc & Hl & _).
  exists ds. split; [exact Hc|exact Hl].
Defined.

(** After a cycle without detections, the first face of the next cycle is
    drawn exactly at its raw coordinates: the twelve smoothed scalars of
    its frame are the raw ones, with no trace of where a face was
    before. *)
Theorem first_face_after_reset_is_raw (st : Face.State) (fc : Face.FaceCanvas)
    (z : Face.Results) (d : Face.Detection) (dets : list Face.Detection) :
  Face.faceCanvas st = Some fc ->
  String.eqb (Face.currentDecorationId st) "none" = false ->
  Face.noDetections z = true ->
  let st' := Face.onFaceResults {| Face.detections := Some (d :: dets) |}
               (Face.onFaceResults z st) in
  exists p ps,
    Face.frames st' = p :: ps
    /\ Face.smoothedFields p
       = Face.rawFields (inject_Z (Face.fc_width fc)) (inject_Z (Face.fc_height fc)) d.
Proof.
  intros Hfc Hid Hz. cbv zeta.
  rewrite (onFaceResults_zero st fc z Hfc Hz).
  set (st0 := {| Face.faceCanvas := _ |}).
  destruct (onFaceResults_faces st0
              {| Face.fc_width := Face.fc_width fc; Face.fc_height := Face.fc_height fc;
                 Face.drawn := [] |} d dets eq_refl Hid) as (Hf & _).
  cbv zeta in Hf. cbn [Face.fc_width Face.fc_height] in Hf. rewrite Hf.
  cbn [Face.framesFrom].
  destruct (frame_fields (inject_Z (Face.fc_width fc)) (inject_Z (Face.fc_height fc))
              d (Face.store st0)) as [Hfields _].
  cbv zeta in Hfields.
  destruct (Face.canonicalFrame _ _ d (Face.store st0)) as [p s'].
  cbn [fst] in Hfields. eexists _, _. split; [reflexivity|].
  rewrite Hfields. subst st0. cbn [Face.store].
  unfold Face.keys, Face.rawFields. cbn [zip_with].
  rewrite !smoothed_null by apply is_null_reset. reflexivity.
Qed.

Lemma first_face_after_reset_is_raw_witness :
  let st :=
    {| Face.faceCanvas :=
         Some {| Face.fc_width := 100; Face.fc_height := 100; Face.drawn := [] |};
       Face.store := {[ "bx" := Some 10%Q ]};
       Face.currentDecorationId := "crown";
       Face.userFacing := false |} in
  exists p ps,
    Face.frames (Face.onFaceResults {| Face.detections := Some [Face.boxOnly 0.8 0.5 0.3 0.3] |}
                   (Face.onFaceResults {| Face.detections := Some [] |} st))
    = p :: ps
    /\ Face.smoothedFields p = Face.rawFields 100 100 (Face.boxOnly 0.8 0.5 0.3 0.3).
Proof.
  cbv zeta.
  apply (first_face_after_reset_is_raw
           {| Face.faceCanvas :=
                Some {| Face.fc_width := 100; Face.fc_height := 100; Face.drawn := [] |};
              Face.store := {[ "bx" := Some 10%Q ]};
              Face.currentDecorationId := "crown";
              Face.userFacing := false |}
           {| Face.fc_width := 100; Face.fc_height := 100; Face.drawn := [] |}
           {| Face.detections := Some [] |} (Face.boxOnly 0.8 0.5 0.3 0.3) []);
    reflexivity.
Defined.

(** ** Tracking loop control *)

Section LoopFacts.

Import Face FaceLoop.

Lemma reset_idem (s : gmap string (option Q)) :
  resetSmoothing (resetSmoothing s) = resetSmoothing s.
Proof.
  unfold resetSmoothing, Smoothing.resetSmoothing.
  by rewrite <- map_fmap_compose.
Qed.

Lemma clearOverlay_frames (st : State) : frames (clearOverlay st) = [].
Proof.
  unfold clearOverlay, frames.
  destruct (faceCanvas st) as [fc|] eqn:Hfc; [reflexivity|by rewrite Hfc].
Qed.

(** With 'none' selected a cycle draws nothing, whatever the result
    holds, and keeps a cleared store cleared. *)
Lemma onFaceResults_none (r : Results) (st : State) :
  String.eqb (currentDecorationId st) "none" = true ->
  frames st = [] -> storeCleared st ->
  String.eqb (currentDecorationId (onFaceResults r st)) "none" = true
  /\ frames (onFaceResults r st) = []
  /\ storeCleared (onFaceResults r st).
Proof.
  intros Hid Hf Hs. unfold onFaceResults.
  destruct (faceCanvas st) as [fc|] eqn:Hfc; [|done].
  destruct (detections r) as [[|d dets]|].
  - repeat split; try done. intros k. apply is_null_reset.
  - rewrite Hid. repeat split; done.
  - repeat split; try done. intros k. apply is_null_reset.
Qed.

End LoopFacts.

(** What [stopFaceLoop] leaves behind. *)
Lemma stopFaceLoop_spec (l : FaceLoop.Loop) :
  let l' := FaceLoop.stopFaceLoop l in
  FaceLoop.faceFilterActive l' = false
  /\ FaceLoop.faceAnimFrame l' = None
  /\ Face.frames (FaceLoop.face l') = []
  /\ Face.storeCleared (FaceLoop.face l')
  /\ (Face.faceCanvas (FaceLoop.face l')
      = (fun fc => {| Face.fc_width := Face.fc_width fc;
                      Face.fc_height := Face.fc_height fc;
                      Face.drawn := [] |}) <$> Face.faceCanvas (FaceLoop.face l))
  /\ (forall h, FaceLoop.faceAnimFrame l = Some h -> h ∉ FaceLoop.pending l')
  /\ FaceLoop.stopFaceLoop l' = l'.
Proof.
  cbv zeta. unfold FaceLoop.stopFaceLoop, FaceLoop.clearOverlay, Face.frames,
    Face.storeCleared.
  destruct l as [[canvas s id facing] det active handle pend next].
  cbn [FaceLoop.face FaceLoop.faceFilterActive FaceLoop.faceAnimFrame
       FaceLoop.pending FaceLoop.hasDetector FaceLoop.nextHandle
       Face.faceCanvas Face.store Face.currentDecorationId Face.userFacing].
  destruct canvas as [fc|];
    cbn [Face.faceCanvas Face.store Face.currentDecorationId Face.userFacing
         Face.fc_width Face.fc_height Face.drawn fmap option_fmap option_map];
    rewrite ?reset_idem.
  - repeat split.
    + intros k. apply is_null_reset.
    + intros h ->. rewrite list_elem_of_filter. by intros [? _].
  - repeat split.
    + intros k. apply is_null_reset.
    + intros h ->. rewrite list_elem_of_filter. by intros [? _].
Qed.

(** [stopFaceLoop], from any state: tracking is off, no frame handle is
    kept, the overlay (if any) shows nothing and keeps its size, every key
    of the store is null, the cancelled handle is no longer pending; and
    stopping again changes nothing. *)
Theorem stopFaceLoop_clears (l : FaceLoop.Loop) :
  let l' := FaceLoop.stopFaceLoop l in
  FaceLoop.faceFilterActive l' = false
  /\ FaceLoop.faceAnimFrame l' = None
  /\ Face.frames (FaceLoop.face l') = []
  /\ Face.storeCleared (FaceLoop.face l')
  /\ (Face.faceCanvas (FaceLoop.face l')
      = (fun fc => {| Face.fc_width := Face.fc_width fc;
                      Face.fc_height := Face.fc_height fc;
                      Face.drawn := [] |}) <$> Face.faceCanvas (FaceLoop.face l))
  /\ (forall h, FaceLoop.faceAnimFrame l = Some h -> h ∉ FaceLoop.pending l')
  /\ FaceLoop.stopFaceLoop l' = l'.
Proof. exact (stopFaceLoop_spec l). Qed.

Lemma stopFaceLoop_keeps_id (l : FaceLoop.Loop) :
  Face.currentDecorationId (FaceLoop.face (FaceLoop.stopFaceLoop l))
  = Face.currentDecorationId (FaceLoop.face l).
Proof.
  destruct l as [[[fc|] s id facing] det active handle pend next]; reflexivity.
Qed.

(** Once 'none' has been selected, nothing is drawn any more: whatever
    results the detector still delivers, and however many, the overlay
    shows nothing, the store stays cleared, and [drawFaceFilterOnCanvas]
    adds no overlay to a capture. *)
Theorem nothing_drawn_after_none (l : FaceLoop.Loop) (late : list Face.Results) :
  let l' := foldl (fun l r => FaceLoop.deliver r l)
                  (FaceLoop.selectDecoration "none" l) late in
  FaceLoop.faceFilterActive l' = false
  /\ Face.frames (FaceLoop.face l') = []
  /\ Face.storeCleared (FaceLoop.face l')
  /\ FaceLoop.drawFaceFilterOnCanvas (FaceLoop.face l') = None.
Proof.
  cbv zeta.
  assert (Hinv : forall l0,
    FaceLoop.faceFilterActive l0 = false ->
    String.eqb (Face.currentDecorationId (FaceLoop.face l0)) "none" = true ->
    Face.frames (FaceLoop.face l0) = [] ->
    Face.storeCleared (FaceLoop.face l0) ->
    let l' := foldl (fun l r => FaceLoop.deliver r l) l0 late in
    FaceLoop.faceFilterActive l' = false
    /\ String.eqb (Face.currentDecorationId (FaceLoop.face l')) "none" = true
    /\ Face.frames (FaceLoop.face l') = []
    /\ Face.storeCleared (FaceLoop.face l')).
  { induction late as [|r late IH]; intros l0 Ha Hid Hf Hs; cbn [foldl]; [done|].
    destruct (onFaceResults_none r (FaceLoop.face l0) Hid Hf Hs) as (Hid' & Hf' & Hs').
    apply IH; done. }
  set (l0 := {| FaceLoop.face :=
                  {| Face.faceCanvas := Face.faceCanvas (FaceLoop.face l);
                     Face.store := Face.store (FaceLoop.face l);
                     Face.currentDecorationId := "none";
                     Face.userFacing := Face.userFacing (FaceLoop.face l) |};
                FaceLoop.hasDetector := FaceLoop.hasDetector l;
                FaceLoop.faceFilterActive := FaceLoop.faceFilterActive l;
                FaceLoop.faceAnimFrame := FaceLoop.faceAnimFrame l;
                FaceLoop.pending := FaceLoop.pending l;
                FaceLoop.nextHandle := FaceLoop.nextHandle l |}).
  destruct (stopFaceLoop_spec l0) as (Ha & _ & Hf & Hs & _).
  destruct (Hinv (FaceLoop.selectDecoration "none" l)) as (Ha' & Hid' & Hf' & Hs').
  - exact Ha.
  - change (FaceLoop.selectDecoration "none" l) with (FaceLoop.stopFaceLoop l0).
    by rewrite stopFaceLoop_keeps_id.
  - exact Hf.
  - exact Hs.
  - repeat split; try done.
    unfold FaceLoop.drawFaceFilterOnCanvas. rewrite Hid'.
    by case_match.
Qed.

(** [syncFaceCanvas] with the overlay and the video element in place: the
    overlay takes the size of the video, a zero video dimension leaving
    the corresponding overlay dimension as it is; what was drawn is kept
    exactly when the size does not change; the store and the selection are
    never touched; syncing again changes nothing. *)
Theorem syncFaceCanvas_follows_video (st : Face.State) (fc : Face.FaceCanvas)
    (videoWidth videoHeight : Z) :
  Face.faceCanvas st = Some fc ->
  let vw := if (videoWidth =? 0)%Z then Face.fc_width fc else videoWidth in
  let vh := if (videoHeight =? 0)%Z then Face.fc_height fc else videoHeight in
  let st' := FaceLoop.syncFaceCanvas (Some (videoWidth, videoHeight)) st in
  Face.faceCanvas st'
  = Some {| Face.fc_width := vw; Face.fc_height := vh;
            Face.drawn := if bool_decide (Face.fc_width fc = vw /\ Face.fc_height fc = vh)
                          then Face.drawn fc else [] |}
  /\ Face.store st' = Face.store st
  /\ Face.currentDecorationId st' = Face.currentDecorationId st
  /\ FaceLoop.syncFaceCanvas (Some (videoWidth, videoHeight)) st' = st'.
Proof.
  intros Hfc. cbv zeta.
  destruct st as [canvas s id facing]. cbn [Face.faceCanvas] in Hfc. subst canvas.
  destruct fc as [cw ch ds].
  unfold FaceLoop.syncFaceCanvas.
  cbn [Face.faceCanvas Face.store Face.currentDecorationId Face.userFacing
       Face.fc_width Face.fc_height Face.drawn].
  destruct (Z.eqb_spec videoWidth 0) as [Hw0|Hw0];
    destruct (Z.eqb_spec videoHeight 0) as [Hh0|Hh0];
    repeat (match goal with
            | |- context [Z.eqb ?a ?b] => destruct (Z.eqb_spec a b)
            end;
            cbn [negb orb Face.faceCanvas Face.store Face.currentDecorationId
                 Face.userFacing Face.fc_width Face.fc_height Face.drawn]);
    repeat case_bool_decide; subst; try tauto; try lia; done.
Qed.

Lemma syncFaceCanvas_follows_video_witness :
  let st :=
    {| Face.faceCanvas :=
         Some {| Face.fc_width := 300; Face.fc_height := 150; Face.drawn := [] |};
       Face.store := {[ "bx" := Some 10%Q ]};
       Face.currentDecorationId := "crown";
       Face.userFacing := true |} in
  Face.faceCanvas (FaceLoop.syncFaceCanvas (Some (1280, 0)%Z) st)
  = Some {| Face.fc_width := 1280; Face.fc_height := 150; Face.drawn := [] |}.
Proof.
  cbv zeta.
  apply (syncFaceCanvas_follows_video
           {| Face.faceCanvas :=
                Some {| Face.fc_width := 300; Face.fc_height := 150; Face.drawn := [] |};
              Face.store := {[ "bx" := Some 10%Q ]};
              Face.currentDecorationId := "crown";
              Face.userFacing := true |}
           {| Face.fc_width := 300; Face.fc_height := 150; Face.drawn := [] |}
           1280 0 eq_refl).
Defined.

(** With a detector in place, selecting a decoration registers one more
    animation-frame callback and never cancels the one already pending:
    after two selections in a row both handles are pending, and
    [stopFaceLoop] then cancels only the later one. *)
Theorem second_selection_adds_a_callback (l : FaceLoop.Loop) (id1 id2 : string) :
  FaceLoop.hasDetector l = true ->
  String.eqb id1 "none" = false -> String.eqb id2 "none" = false ->
  let h := FaceLoop.nextHandle l in
  let l2 := FaceLoop.selectDecoration id2 (FaceLoop.selectDecoration id1 l) in
  FaceLoop.pending l2 = FaceLoop.pending l ++ [h; Pos.succ h]
  /\ FaceLoop.faceAnimFrame l2 = Some (Pos.succ h)
  /\ (h ∈ FaceLoop.pending (FaceLoop.stopFaceLoop l2))
  /\ (Pos.succ h ∉ FaceLoop.pending (FaceLoop.stopFaceLoop l2))
  /\ FaceLoop.faceFilterActive (FaceLoop.stopFaceLoop l2) = false.
Proof.
  intros Hdet H1 H2. cbv zeta.
  destruct l as [st det act hd pend nxt]. cbn in Hdet. subst det.
  unfold FaceLoop.selectDecoration. rewrite H1. cbn. rewrite H2. cbn.
  split; [by rewrite <- app_assoc|]. split; [done|].
  split; [|split; [|done]].
  - apply list_elem_of_filter. split; [lia|].
    apply elem_of_app. left. apply elem_of_app. right. by apply list_elem_of_singleton.
  - rewrite list_elem_of_filter. by intros [? _].
Qed.

Lemma second_selection_adds_a_callback_witness :
  let l :=
    {| FaceLoop.face :=
         {| Face.faceCanvas :=
              Some {| Face.fc_width := 640; Face.fc_height := 480; Face.drawn := [] |};
            Face.store := ∅;
            Face.currentDecorationId := "none";
            Face.userFacing := true |};
       FaceLoop.hasDetector := true;
       FaceLoop.faceFilterActive := false;
       FaceLoop.faceAnimFrame := None;
       FaceLoop.pending := [];
       FaceLoop.nextHandle := 1%positive |} in
  FaceLoop.pending (FaceLoop.selectDecoration "crown" (FaceLoop.selectDecoration "halo" l))
  = [] ++ [1%positive; Pos.succ 1%positive].
Proof.
  cbv zeta.
  apply (second_selection_adds_a_callback
           {| FaceLoop.face :=
                {| Face.faceCanvas :=
                     Some {| Face.fc_width := 640; Face.fc_height := 480;
                             Face.drawn := [] |};
                   Face.store := ∅;
                   Face.currentDecorationId := "none";
                   Face.userFacing := true |};
              FaceLoop.hasDetector := true;
              FaceLoop.faceFilterActive := false;
              FaceLoop.faceAnimFrame := None;
              FaceLoop.pending := [];
              FaceLoop.nextHandle := 1%positive |} "halo" "crown");
    reflexivity.
Defined.

(** ** Pixel passes: further facts *)

Section ClampFacts.

Import Js Filter.
Local Open Scope Q_scope.

Lemma Qle_bool_false (a b : Q) : Qle_bool a b = false <-> b < a.
Proof.
  rewrite <- not_true_iff_false, Qle_bool_iff. split.
  - apply Qnot_le_lt.
  - intros Hlt Hle. lra.
Qed.

(** A number equal to a byte is stored as that byte. *)
Lemma ToUint8Clamp_Qeq (q : Q) (z : Z) :
  q == inject_Z z -> is_byte z -> ToUint8Clamp q = z.
Proof.
  intros Hq [Hz0 Hz1]. unfold ToUint8Clamp.
  assert (Hq0 : 0 <= q) by (rewrite Hq; change 0 with (inject_Z 0); by rewrite <- Zle_Qle).
  assert (Hq1 : q <= 255)
    by (rewrite Hq; change 255 with (inject_Z 255); by rewrite <- Zle_Qle).
  destruct (Qle_bool q 0) eqn:E0.
  { apply Qle_bool_iff in E0.
    assert (Hz : inject_Z z <= inject_Z 0) by (rewrite <- Hq; exact E0).
    rewrite <- Zle_Qle in Hz. lia. }
  destruct (Qle_bool 255 q) eqn:E1.
  { apply Qle_bool_iff in E1.
    assert (Hz : inject_Z 255 <= inject_Z z) by (rewrite <- Hq; exact E1).
    rewrite <- Zle_Qle in Hz. lia. }
  assert (Hf : Qfloor q = z) by (rewrite Hq; apply Qfloor_Z).
  rewrite Hf.
  assert (Hd : q - inject_Z z == 0) by (rewrite Hq; ring).
  assert (E2 : Qle_bool (q - inject_Z z) 0.5 = true)
    by (apply Qle_bool_iff; rewrite Hd; lra).
  assert (E3 : Qle_bool 0.5 (q - inject_Z z) = false)
    by (apply Qle_bool_false; rewrite Hd; lra).
  by rewrite E2, E3.
Qed.

(** The explicit clamp of the grain pass keeps a byte. *)
Lemma clamp_byte (q : Q) (z : Z) :
  q == inject_Z z -> is_byte z -> Math_min 255 (Math_max 0 q) == inject_Z z.
Proof.
  intros Hq [Hz0 Hz1].
  assert (Hq0 : 0 <= q) by (rewrite Hq; change 0 with (inject_Z 0); by rewrite <- Zle_Qle).
  assert (Hq1 : q <= 255)
    by (rewrite Hq; change 255 with (inject_Z 255); by rewrite <- Zle_Qle).
  destruct (Math_max_cases 0 q) as [[_ ->]|[Hlt _]]; [|lra].
  destruct (Math_min_cases 255 q) as [[Hle ->]|[_ ->]]; [|exact Hq].
  rewrite <- Hq. lra.
Qed.

Lemma rd_lookup (data : list Z) (j : nat) (z : Z) :
  data !! j = Some z -> rd data j = inject_Z z.
Proof. intros Hj. unfold rd. by rewrite Hj. Qed.

Lemma rd_byte (data : list Z) (j : nat) :
  Forall is_byte data -> 0 <= rd data j /\ rd data j <= 255.
Proof.
  intros Hb. unfold rd.
  destruct (data !! j) as [z|] eqn:Hj; cbn [default].
  - destruct (Forall_lookup_1 _ _ _ _ Hb Hj) as [H0 H1].
    change 0 with (inject_Z 0). change 255 with (inject_Z 255).
    rewrite <- !Zle_Qle. unfold id. lia.
  - split; discriminate.
Qed.

Lemma Math_round_ge (q : Q) (k : Z) : inject_Z k <= q -> (k <= Math_round q)%Z.
Proof.
  intros Hq. destruct (Math_round_bounds q) as [_ Hhi].
  assert (Hlt : (k < Math_round q + 1)%Z) by (to_Q; lra). lia.
Qed.

Lemma Math_round_Qeq (q : Q) (z : Z) : q == inject_Z z -> Math_round q = z.
Proof. intros Hq. apply Math_round_unique; rewrite Hq; lra. Qed.

(** The cells of a uniform surface. *)
Lemma lookup_uniform (w h : nat) (v : Z) (p c : nat) :
  (p < w * h)%nat -> (c < 4)%nat ->
  uniform w h v !! (4 * p + c)%nat = [v; v; v; 255%Z] !! c.
Proof.
  unfold uniform. generalize (w * h)%nat as n. intros n. revert p.
  induction n as [|n IH]; intros p Hp Hc; [lia|].
  change (mjoin (replicate (S n) [v; v; v; 255%Z]))
    with ([v; v; v; 255%Z] ++ mjoin (replicate n [v; v; v; 255%Z])).
  destruct p as [|p].
  - rewrite Nat.mul_0_r, Nat.add_0_l.
    by rewrite lookup_app_l by (cbn; lia).
  - rewrite lookup_app_r by (cbn; lia). cbn [length].
    replace (4 * S p + c - 4)%nat with (4 * p + c)%nat by lia.
    apply IH; lia.
Qed.

Lemma length_uniform (w h : nat) (v : Z) : length (uniform w h v) = (4 * (w * h))%nat.
Proof.
  unfold uniform. generalize (w * h)%nat as n. intros n.
  induction n as [|n IH]; [done|].
  change (mjoin (replicate (S n) [v; v; v; 255%Z]))
    with ([v; v; v; 255%Z] ++ mjoin (replicate n [v; v; v; 255%Z])).
  rewrite length_app, IH. cbn. lia.
Qed.

Lemma rd_uniform (w h : nat) (v : Z) (p c : nat) :
  (p < w * h)%nat -> (c < 3)%nat -> rd (uniform w h v) (4 * p + c) = inject_Z v.
Proof.
  intros Hp Hc. apply rd_lookup. rewrite lookup_uniform by lia.
  destruct c as [|[|[|c]]]; try done. lia.
Qed.

End ClampFacts.

Section InteriorLoops.

Import Js Filter.

(** A loop over pixel coordinates whose body stores [val xy c] in the
    colour cell [c] of the pixel and touches nothing else. *)
Variable w : nat.
Variable body : list Z -> nat * nat -> list Z.
Variable val : nat * nat -> nat -> Q.

Local Abbreviation cell := (fun xy : nat * nat => (snd xy * w + fst xy) * 4).

Hypothesis body_length : forall d xy, length (body d xy) = length d.
Hypothesis body_new : forall d xy c,
  c < 3 -> cell xy + 2 < length d ->
  body d xy !! (cell xy + c) = Some (ToUint8Clamp (val xy c)).
Hypothesis body_old : forall d xy j,
  j <> cell xy -> j <> cell xy + 1 -> j <> cell xy + 2 ->
  body d xy !! j = d !! j.

Lemma loop_length (l : list (nat * nat)) (data : list Z) :
  length (foldl body data l) = length data.
Proof using body_length.
  revert data. induction l as [|xy l IH]; intros data; cbn [foldl]; [done|].
  by rewrite IH, body_length.
Qed.

Lemma loop_other (l : list (nat * nat)) (data : list Z) (j : nat) :
  (forall xy, xy ∈ l -> j <> cell xy /\ j <> cell xy + 1 /\ j <> cell xy + 2) ->
  foldl body data l !! j = data !! j.
Proof using body_old.
  revert data. induction l as [|xy l IH]; intros data Hl; cbn [foldl]; [done|].
  rewrite IH.
  - destruct (Hl xy) as (H0 & H1 & H2); [left|]. by apply body_old.
  - intros xy' Hin. apply Hl. by right.
Qed.

(** Every visited pixel ends with the value of its own iteration. *)
Lemma loop_visited (l : list (nat * nat)) (data : list Z) (xy : nat * nat) (c : nat) :
  xy ∈ l -> (forall xy', xy' ∈ l -> fst xy' < w) ->
  cell xy + 2 < length data -> c < 3 ->
  foldl body data l !! (cell xy + c) = Some (ToUint8Clamp (val xy c)).
Proof using body_length body_new body_old.
  intros Hin Hw Hlen Hc.
  induction l as [|xy' l IH] using rev_ind; [by apply elem_of_nil in Hin|].
  rewrite foldl_snoc.
  destruct (decide (xy' = xy)) as [->|Hne].
  - apply body_new; [done|]. by rewrite loop_length.
  - apply elem_of_app in Hin as [Hin|Hin]; [|apply list_elem_of_singleton in Hin; done].
    assert (Hx : fst xy < w) by (apply Hw, elem_of_app; by left).
    assert (Hx' : fst xy' < w)
      by (apply Hw, elem_of_app; right; by apply list_elem_of_singleton).
    assert (Hdiff : forall c', c' < 3 ->
              cell xy + c <> cell xy' + c').
    { intros c' Hc' Heq. cbn beta in Heq.
      apply cell_index_inj in Heq as (Hxx & Hyy & _); [|lia..].
      apply Hne. destruct xy, xy'. cbn in *. by subst. }
    rewrite body_old.
    + apply IH; [done|]. intros z Hz. apply Hw, elem_of_app. by left.
    + pose proof (Hdiff 0) as H0. rewrite Nat.add_0_r in H0. apply H0. lia.
    + apply Hdiff. lia.
    + apply Hdiff. lia.
Qed.

End InteriorLoops.

Section PassFacts.

Import Js Filter.
Local Open Scope Q_scope.

(** Storing a number of the range [0, 255] moves it by at most a half. *)
Lemma ToUint8Clamp_near (q : Q) :
  0 <= q -> q <= 255 ->
  - (1 # 2) <= inject_Z (ToUint8Clamp q) - q /\ inject_Z (ToUint8Clamp q) - q <= 1 # 2.
Proof.
  intros H0 H1. unfold ToUint8Clamp.
  destruct (Qle_bool q 0) eqn:E0.
  { apply Qle_bool_iff in E0. change (inject_Z 0) with 0. lra. }
  destruct (Qle_bool 255 q) eqn:E1.
  { apply Qle_bool_iff in E1. change (inject_Z 255) with 255. lra. }
  pose proof (Qfloor_le q) as Hlo. pose proof (Qlt_floor q) as Hhi.
  rewrite inject_Z_plus in Hhi. change (inject_Z 1) with 1 in Hhi.
  set (f := Qfloor q) in *. clearbody f.
  destruct (Qle_bool (q - inject_Z f) 0.5) eqn:E2.
  - apply Qle_bool_iff in E2.
    destruct (Qle_bool 0.5 (q - inject_Z f)) eqn:E3.
    + apply Qle_bool_iff in E3.
      destruct (Z.even f); [lra|].
      rewrite inject_Z_plus. change (inject_Z 1) with 1. lra.
    + apply Qle_bool_false in E3. lra.
  - apply Qle_bool_false in E2.
    rewrite inject_Z_plus. change (inject_Z 1) with 1. lra.
Qed.

Lemma pixel_in_range (w h x y : nat) :
  (x < w)%nat -> (y < h)%nat -> (y * w + x < w * h)%nat.
Proof.
  intros Hx Hy.
  assert (S y * w <= h * w)%nat by (apply Nat.mul_le_mono_r; lia). lia.
Qed.

Lemma rd_uniform_mod (w h : nat) (v : Z) (j : nat) :
  (j < 4 * (w * h))%nat -> (j mod 4 <> 3)%nat ->
  rd (uniform w h v) j = inject_Z v.
Proof.
  intros Hj Hm.
  pose proof (Nat.div_mod_eq j 4) as Hdm.
  pose proof (Nat.mod_upper_bound j 4 ltac:(lia)) as Hub.
  rewrite Hdm. apply rd_uniform; lia.
Qed.

End PassFacts.

(** Grain of intensity 0 is the identity: every channel gets its own
    value back, whatever [Math.random] returns and in both modes. *)
Theorem grain_zero_identity (colorGrain : bool) (rnd : nat -> Q) (n : nat)
    (data : list Z) (cur : nat) :
  length data = 4 * n -> Forall Js.is_byte data ->
  fst (Filter.applyGrain 0 colorGrain rnd (data, cur)) = data.
Proof.
  intros Hlen Hb.
  destruct (applyGrain_spec 0 colorGrain rnd n data cur Hlen) as (_ & Hnew & Hold).
  apply list_eq. intros j.
  destruct (decide (j < 4 * n)) as [Hj|Hj].
  - pose proof (Nat.div_mod_eq j 4) as Hdm.
    pose proof (Nat.mod_upper_bound j 4 ltac:(lia)) as Hub.
    set (p := j / 4) in *. set (c := j mod 4) in *. clearbody p c. subst j.
    destruct (decide (c < 3)) as [Hc|Hc].
    + rewrite Hnew by lia.
      destruct (lookup_lt_is_Some_2 data (4 * p + c)) as [z Hz]; [lia|].
      rewrite Hz. f_equal.
      pose proof (Forall_lookup_1 _ _ _ _ Hb Hz) as Hbz.
      apply ToUint8Clamp_Qeq; [|done].
      rewrite (rd_lookup _ _ _ Hz). unfold Filter.grainCell.
      destruct colorGrain; (apply clamp_byte; [ring|done]).
    + replace c with 3 by lia. apply Hold.
  - rewrite !lookup_ge_None_2; [done|lia|].
    rewrite length_applyGrain. cbn [fst]. lia.
Qed.

Lemma grain_zero_identity_witness :
  fst (Filter.applyGrain 0 true (fun _ => 0.75%Q) (Filter.uniform 2 1 40, 0))
  = Filter.uniform 2 1 40.
Proof.
  apply (grain_zero_identity true (fun _ => 0.75%Q) 2 (Filter.uniform 2 1 40) 0).
  - reflexivity.
  - repeat constructor; cbv; discriminate.
Defined.

(** Single-noise grain keeps grey grey: a pixel whose three colour
    channels are equal has three equal channels afterwards. *)
Theorem grain_mono_keeps_grey (intensity : Q) (rnd : nat -> Q) (n : nat)
    (data : list Z) (cur p : nat) (v : Z) :
  length data = 4 * n -> p < n ->
  data !! (4 * p) = Some v -> data !! (4 * p + 1) = Some v ->
  data !! (4 * p + 2) = Some v ->
  let out := fst (Filter.applyGrain intensity false rnd (data, cur)) in
  out !! (4 * p + 1) = out !! (4 * p) /\ out !! (4 * p + 2) = out !! (4 * p).
Proof.
  intros Hlen Hp H0 H1 H2 out.
  destruct (applyGrain_spec intensity false rnd n data cur Hlen) as (_ & Hnew & _).
  pose proof (Hnew p 0 Hp ltac:(lia)) as N0. rewrite Nat.add_0_r in N0.
  pose proof (Hnew p 1 Hp ltac:(lia)) as N1.
  pose proof (Hnew p 2 Hp ltac:(lia)) as N2.
  subst out. rewrite N0, N1, N2.
  rewrite (rd_lookup _ _ _ H0), (rd_lookup _ _ _ H1), (rd_lookup _ _ _ H2).
  split; reflexivity.
Qed.

Lemma grain_mono_keeps_grey_witness :
  let out := fst (Filter.applyGrain 22 false (fun k => if Nat.even k then 0.9%Q else 0.2%Q)
                    (Filter.uniform 2 1 100, 0)) in
  out !! (4 * 1 + 1) = out !! (4 * 1) /\ out !! (4 * 1 + 2) = out !! (4 * 1).
Proof.
  apply (grain_mono_keeps_grey 22 (fun k => if Nat.even k then 0.9%Q else 0.2%Q)
           2 (Filter.uniform 2 1 100) 0 1 100); [reflexivity|lia|reflexivity..].
Defined.

(** Grain moves a channel by at most its amplitude: with [Math.random]
    in [0, 1), a channel changes by at most [intensity] in single-noise
    mode and [1.3 * intensity] in colour mode, plus the half unit of the
    rounding of the store. *)
Theorem grain_displacement_bounded (intensity : Q) (colorGrain : bool)
    (rnd : nat -> Q) (n : nat) (data : list Z) (cur p c : nat) (z z' : Z) :
  (forall k, 0 <= rnd k /\ rnd k < 1)%Q -> (0 <= intensity)%Q ->
  length data = 4 * n -> Forall Js.is_byte data -> p < n -> c < 3 ->
  data !! (4 * p + c) = Some z ->
  fst (Filter.applyGrain intensity colorGrain rnd (data, cur)) !! (4 * p + c) = Some z' ->
  (Qabs (inject_Z z' - inject_Z z)
   <= intensity * (if colorGrain then 1.3 else 1) + 0.5)%Q.
Proof.
  intros Hrnd HI Hlen Hb Hp Hc Hz Hz'.
  destruct (applyGrain_spec intensity colorGrain rnd n data cur Hlen) as (_ & Hnew & _).
  rewrite Hnew in Hz' by done. apply (inj Some) in Hz'. subst z'.
  rewrite (rd_lookup _ _ _ Hz).
  pose proof (Forall_lookup_1 _ _ _ _ Hb Hz) as [Hz0 Hz1].
  assert (Ho0 : (0 <= inject_Z z)%Q) by (change 0%Q with (inject_Z 0); by rewrite <- Zle_Qle).
  assert (Ho1 : (inject_Z z <= 255)%Q)
    by (change 255%Q with (inject_Z 255); by rewrite <- Zle_Qle).
  set (old := inject_Z z) in *. clearbody old.
  set (B := (intensity * (if colorGrain then 1.3 else 1))%Q).
  assert (Hq : exists x : Q,
            (- B <= x - old /\ x - old <= B)%Q
            /\ Filter.grainCell intensity colorGrain rnd
                 (cur + Filter.drawsPerPixel colorGrain * p) old c
               = Js.Math_min 255 (Js.Math_max 0 x)).
  { unfold Filter.grainCell, B.
    set (k := cur + Filter.drawsPerPixel colorGrain * p). clearbody k.
    destruct (Hrnd k) as [Ha0 Ha1]. destruct (Hrnd (k + 1 + c)) as [Hb0 Hb1].
    set (a := rnd k) in *. set (b := rnd (k + 1 + c)) in *. clearbody a b.
    destruct colorGrain; eexists; (split; [|reflexivity]); split; nra. }
  destruct Hq as (x & [Hd0 Hd1] & ->).
  clearbody B.
  assert (Hm : (0 <= Js.Math_min 255 (Js.Math_max 0 x)
                /\ Js.Math_min 255 (Js.Math_max 0 x) <= 255
                /\ - B <= Js.Math_min 255 (Js.Math_max 0 x) - old
                /\ Js.Math_min 255 (Js.Math_max 0 x) - old <= B)%Q).
  { destruct (Math_max_cases 0 x) as [[Hle ->]|[Hlt ->]];
      [destruct (Math_min_cases 255 x) as [[Hle' ->]|[Hlt' ->]]
      |destruct (Math_min_cases 255 0) as [[Hle' ->]|[Hlt' ->]]];
      repeat split; lra. }
  destruct Hm as (Hm0 & Hm1 & Hm2 & Hm3).
  set (q := Js.Math_min 255 (Js.Math_max 0 x)) in *. clearbody q.
  destruct (ToUint8Clamp_near q Hm0 Hm1) as [Hn0 Hn1].
  apply Qabs_Qle_condition. split; lra.
Qed.

Lemma grain_displacement_bounded_witness :
  (Qabs (inject_Z 136 - inject_Z 100) <= 72 * 1 + 0.5)%Q.
Proof.
  apply (grain_displacement_bounded 72 false (fun _ => 0.75%Q) 1
           (Filter.uniform 1 1 100) 0 0 0 100 136).
  - intros _. split; reflexivity || discriminate.
  - discriminate.
  - reflexivity.
  - repeat constructor; cbv; discriminate.
  - lia.
  - lia.
  - reflexivity.
  - vm_compute. reflexivity.
Defined.

Section SketchFacts.

Import Js Filter.

Variable Math_sqrt : Q -> Q.

Lemma sketchPixel_new (copy : list Z) (w : nat) (d : list Z) (xy : nat * nat) (c : nat) :
  c < 3 -> (snd xy * w + fst xy) * 4 + 2 < length d ->
  sketchPixel Math_sqrt copy w d xy !! ((snd xy * w + fst xy) * 4 + c)
  = Some (ToUint8Clamp (sketchVal Math_sqrt copy w xy)).
Proof.
  intros Hc Hlen. unfold sketchPixel. cbv zeta.
  set (i := (snd xy * w + fst xy) * 4) in *. clearbody i.
  destruct c as [|[|[|c]]]; [| | |lia].
  - rewrite Nat.add_0_r. apply wr_lookup_eq. rewrite !length_wr. lia.
  - rewrite wr_lookup_ne by lia. apply wr_lookup_eq. rewrite length_wr. lia.
  - rewrite !wr_lookup_ne by lia. apply wr_lookup_eq. lia.
Qed.

Lemma sketchPixel_old (copy : list Z) (w : nat) (d : list Z) (xy : nat * nat) (j : nat) :
  j <> (snd xy * w + fst xy) * 4 -> j <> (snd xy * w + fst xy) * 4 + 1 ->
  j <> (snd xy * w + fst xy) * 4 + 2 ->
  sketchPixel Math_sqrt copy w d xy !! j = d !! j.
Proof.
  intros H0 H1 H2. unfold sketchPixel. cbv zeta. by rewrite !wr_lookup_ne.
Qed.

Lemma length_sketchPixel (copy : list Z) (w : nat) (d : list Z) (xy : nat * nat) :
  length (sketchPixel Math_sqrt copy w d xy) = length d.
Proof. unfold sketchPixel. cbv zeta. by rewrite !length_wr. Qed.

Lemma interior_columns (w h : nat) (xy : nat * nat) :
  xy ∈ interior w h -> fst xy < w.
Proof. destruct xy as [x y]. intros Hin%elem_of_interior. cbn. lia. Qed.

End SketchFacts.

(** The value of an interior colour cell after the loop of [applySketch]. *)
Lemma applySketch_interior (Math_sqrt : Q -> Q) (w h : nat)
    (data : list Z) (x y c : nat) :
  length data = 4 * (w * h) ->
  1 <= x <= w - 2 -> 1 <= y <= h - 2 -> c < 3 ->
  Filter.applySketch Math_sqrt w h data !! ((y * w + x) * 4 + c)
  = Some (Js.ToUint8Clamp (Filter.sketchVal Math_sqrt data w (x, y))).
Proof.
  intros Hlen Hx Hy Hc. unfold Filter.applySketch.
  pose proof (pixel_in_range w h x y ltac:(lia) ltac:(lia)) as Hp.
  apply (loop_visited w (Filter.sketchPixel Math_sqrt data w)
           (fun xy _ => Filter.sketchVal Math_sqrt data w xy)
           (length_sketchPixel Math_sqrt data w)
           (fun d xy c Hc Hl => sketchPixel_new Math_sqrt data w d xy c Hc Hl)
           (sketchPixel_old Math_sqrt data w)
           (Filter.interior w h) data (x, y) c).
  - by apply elem_of_interior.
  - apply interior_columns.
  - cbn [fst snd]. lia.
  - done.
Qed.

(** Inside the ring the sketch pass draws from the original image only:
    each colour channel of an interior pixel ends as the stored value of
    the Sobel expression computed on the copy taken before the loop, the
    same for the three channels, so the pixel is grey. *)
Theorem sketch_interior_from_copy (Math_sqrt : Q -> Q) (w h : nat)
    (data : list Z) (x y : nat) :
  length data = 4 * (w * h) ->
  1 <= x <= w - 2 -> 1 <= y <= h - 2 ->
  let val := Js.ToUint8Clamp (Filter.sketchVal Math_sqrt data w (x, y)) in
  let out := Filter.applySketch Math_sqrt w h data in
  out !! ((y * w + x) * 4) = Some val
  /\ out !! ((y * w + x) * 4 + 1) = Some val
  /\ out !! ((y * w + x) * 4 + 2) = Some val.
Proof.
  intros Hlen Hx Hy val out. subst val out.
  pose proof (applySketch_interior Math_sqrt w h data x y 0 Hlen Hx Hy ltac:(lia)) as H0.
  rewrite Nat.add_0_r in H0.
  split; [exact H0|]. split; apply applySketch_interior; (done || lia).
Qed.

Lemma sketch_interior_from_copy_witness :
  let val := Js.ToUint8Clamp
               (Filter.sketchVal (fun q => q) (Filter.uniform 3 3 90) 3 (1, 1)) in
  let out := Filter.applySketch (fun q => q) 3 3 (Filter.uniform 3 3 90) in
  out !! ((1 * 3 + 1) * 4) = Some val
  /\ out !! ((1 * 3 + 1) * 4 + 1) = Some val
  /\ out !! ((1 * 3 + 1) * 4 + 2) = Some val.
Proof.
  apply (sketch_interior_from_copy (fun q => q) 3 3 (Filter.uniform 3 3 90) 1 1);
    [reflexivity|lia|lia].
Defined.

Section FlatSurface.

Import Js Filter.
Local Open Scope Q_scope.

Variables (w h : nat) (v : Z).

(** The grey value at any pixel of a uniform surface. *)
Lemma gray_uniform (p : nat) :
  (p < w * h)%nat -> gray (uniform w h v) (4 * p) == inject_Z v.
Proof.
  intros Hp. unfold gray.
  pose proof (rd_uniform w h v p 0 Hp ltac:(lia)) as H0. rewrite Nat.add_0_r in H0.
  rewrite H0, !rd_uniform by lia. field.
Qed.

(** The neighbours of an interior pixel are pixels of the surface. *)
Lemma neighbours_in_range (x y : nat) :
  (1 <= x <= w - 2)%nat -> (1 <= y <= h - 2)%nat ->
  (w <= y * w)%nat /\ (y * w + 2 * w <= w * h)%nat.
Proof. intros Hx Hy. split; nia. Qed.

End FlatSurface.

(** A flat image has no edges: on a surface of one colour the sketch
    pass paints every interior colour channel white, whenever
    [Math.sqrt] maps zero to zero. *)
Theorem sketch_flat_is_white (Math_sqrt : Q -> Q) (w h : nat) (v : Z)
    (x y c : nat) :
  (forall q, q == 0 -> Math_sqrt q == 0)%Q ->
  1 <= x <= w - 2 -> 1 <= y <= h - 2 -> c < 3 ->
  Filter.applySketch Math_sqrt w h (Filter.uniform w h v) !! ((y * w + x) * 4 + c)
  = Some 255%Z.
Proof.
  intros Hsqrt Hx Hy Hc.
  rewrite applySketch_interior by (done || apply length_uniform).
  f_equal. apply ToUint8Clamp_Qeq; [|unfold Js.is_byte; lia].
  destruct (neighbours_in_range w h x y Hx Hy) as [Hlo Hhi].
  unfold Filter.sketchVal. cbv zeta.
  set (i := (y * w + x) * 4). set (stride := w * 4).
  assert (Hg : forall k p, k = 4 * p -> p < w * h ->
            (Filter.gray (Filter.uniform w h v) k == inject_Z v)%Q)
    by (intros k p ->; apply gray_uniform).
  pose proof (Hg (i - stride - 4) (y * w + x - w - 1)
                ltac:(subst i stride; lia) ltac:(lia)) as Htl.
  pose proof (Hg (i - stride) (y * w + x - w)
                ltac:(subst i stride; lia) ltac:(lia)) as Htc.
  pose proof (Hg (i - stride + 4) (y * w + x - w + 1)
                ltac:(subst i stride; lia) ltac:(lia)) as Htr.
  pose proof (Hg (i - 4) (y * w + x - 1)
                ltac:(subst i stride; lia) ltac:(lia)) as Hml.
  pose proof (Hg (i + 4) (y * w + x + 1)
                ltac:(subst i stride; lia) ltac:(lia)) as Hmr.
  pose proof (Hg (i + stride - 4) (y * w + x + w - 1)
                ltac:(subst i stride; lia) ltac:(lia)) as Hbl.
  pose proof (Hg (i + stride) (y * w + x + w)
                ltac:(subst i stride; lia) ltac:(lia)) as Hbc.
  pose proof (Hg (i + stride + 4) (y * w + x + w + 1)
                ltac:(subst i stride; lia) ltac:(lia)) as Hbr.
  clear Hg.
  set (tl := Filter.gray _ (i - stride - 4)) in *.
  set (tc := Filter.gray _ (i - stride)) in *.
  set (tr := Filter.gray _ (i - stride + 4)) in *.
  set (ml := Filter.gray _ (i - 4)) in *.
  set (mr := Filter.gray _ (i + 4)) in *.
  set (bl := Filter.gray _ (i + stride - 4)) in *.
  set (bc := Filter.gray _ (i + stride)) in *.
  set (br := Filter.gray _ (i + stride + 4)) in *.
  clearbody tl tc tr ml mr bl bc br.
  assert (Hz : ((- tl - 2 * ml - bl + tr + 2 * mr + br)
                * (- tl - 2 * ml - bl + tr + 2 * mr + br)
                + (- tl - 2 * tc - tr + bl + 2 * bc + br)
                  * (- tl - 2 * tc - tr + bl + 2 * bc + br) == 0)%Q).
  { rewrite Htl, Htc, Htr, Hml, Hmr, Hbl, Hbc, Hbr. ring. }
  pose proof (Hsqrt _ Hz) as Hs.
  set (s := Math_sqrt _) in *. clearbody s.
  destruct (Math_min_cases 255 (s * 1.6)) as [[Hle ->]|[Hlt ->]]; [lra|].
  destruct (Math_max_cases 0 (255 - s * 1.6 * 2.8)) as [[Hle' ->]|[Hlt' ->]];
    change (inject_Z 255) with 255%Q; lra.
Qed.

Lemma sketch_flat_is_white_witness :
  Filter.applySketch (fun q => q) 4 3 (Filter.uniform 4 3 17) !! ((1 * 4 + 2) * 4 + 1)
  = Some 255%Z.
Proof.
  apply (sketch_flat_is_white (fun q => q) 4 3 17 2 1 1); [|lia|lia|lia].
  intros q Hq. exact Hq.
Defined.

Section BoxBlurFacts.

Import Js Filter.
Local Open Scope Q_scope.

Lemma blurPixel_new (copy : list Z) (w : nat) (d : list Z) (xy : nat * nat) (c : nat) :
  (c < 3)%nat -> ((snd xy * w + fst xy) * 4 + 2 < length d)%nat ->
  BoxBlur.blurPixel copy w d xy !! ((snd xy * w + fst xy) * 4 + c)%nat
  = Some (ToUint8Clamp
            (inject_Z (Math_round (BoxBlur.boxMean copy w ((snd xy * w + fst xy) * 4) c)))).
Proof.
  intros Hc Hlen. unfold BoxBlur.blurPixel. cbv zeta.
  set (i := ((snd xy * w + fst xy) * 4)%nat) in *. clearbody i.
  destruct c as [|[|[|c]]]; [| | |lia].
  - rewrite !wr_lookup_ne by lia. apply wr_lookup_eq. lia.
  - rewrite wr_lookup_ne by lia. apply wr_lookup_eq. rewrite length_wr. lia.
  - apply wr_lookup_eq. rewrite !length_wr. lia.
Qed.

Lemma blurPixel_old (copy : list Z) (w : nat) (d : list Z) (xy : nat * nat) (j : nat) :
  j <> ((snd xy * w + fst xy) * 4)%nat -> j <> ((snd xy * w + fst xy) * 4 + 1)%nat ->
  j <> ((snd xy * w + fst xy) * 4 + 2)%nat ->
  BoxBlur.blurPixel copy w d xy !! j = d !! j.
Proof.
  intros H0 H1 H2. unfold BoxBlur.blurPixel. cbv zeta.
  rewrite !wr_lookup_ne; [done|by rewrite Nat.add_0_r|done|done].
Qed.

Lemma length_blurPixel (copy : list Z) (w : nat) (d : list Z) (xy : nat * nat) :
  length (BoxBlur.blurPixel copy w d xy) = length d.
Proof. unfold BoxBlur.blurPixel. cbv zeta. by rewrite !length_wr. Qed.

(** The mean of nine bytes is within the byte range. *)
Lemma boxMean_range (copy : list Z) (w i c : nat) :
  Forall is_byte copy ->
  0 <= BoxBlur.boxMean copy w i c /\ BoxBlur.boxMean copy w i c <= 255.
Proof.
  intros Hb. unfold BoxBlur.boxMean. cbv zeta.
  repeat match goal with
         | |- context [rd copy ?k] =>
             let H := fresh "H" in
             pose proof (rd_byte copy k Hb) as H;
             let r := fresh "r" in set (r := rd copy k) in *; clearbody r
         end.
  unfold Qdiv. change (/ 9) with (1 # 9). lra.
Qed.

Lemma length_boxblur (w h : nat) (data : list Z) :
  length (BoxBlur.applyWatercolor w h data) = length data.
Proof.
  unfold BoxBlur.applyWatercolor. apply foldl_length. intros d xy.
  apply length_blurPixel.
Qed.

End BoxBlurFacts.

(** The value of an interior colour cell after the loops of the box
    blur. *)
Lemma boxblur_interior_cell (w h : nat) (data : list Z) (x y c : nat) :
  length data = 4 * (w * h) -> Forall Js.is_byte data ->
  1 <= x <= w - 2 -> 1 <= y <= h - 2 -> c < 3 ->
  BoxBlur.applyWatercolor w h data !! ((y * w + x) * 4 + c)
  = Some (Js.Math_round (BoxBlur.boxMean data w ((y * w + x) * 4) c)).
Proof.
  intros Hlen Hb Hx Hy Hc. unfold BoxBlur.applyWatercolor.
  pose proof (pixel_in_range w h x y ltac:(lia) ltac:(lia)) as Hp.
  transitivity (Some (Js.ToUint8Clamp (inject_Z (Js.Math_round
                  (BoxBlur.boxMean data w ((y * w + x) * 4) c))))).
  - apply (loop_visited w (BoxBlur.blurPixel data w)
             (fun xy c => inject_Z (Js.Math_round
                (BoxBlur.boxMean data w ((snd xy * w + fst xy) * 4) c)))
             (length_blurPixel data w)
             (fun d xy c Hc Hl => blurPixel_new data w d xy c Hc Hl)
             (blurPixel_old data w)
             (Filter.interior w h) data (x, y) c).
    + by apply elem_of_interior.
    + apply interior_columns.
    + cbn [fst snd]. lia.
    + done.
  - f_equal. apply ToUint8Clamp_inject.
    destruct (boxMean_range data w ((y * w + x) * 4) c Hb) as [H0 H1].
    split.
    + apply Math_round_ge. exact H0.
    + apply Math_round_le. exact H1.
Qed.

(** The box blur of the first watercolor pass: each colour channel of an
    interior pixel becomes the rounded mean of the nine original values
    of that channel around it; the values are read from the copy, not
    from cells the loop has already rewritten. *)
Theorem boxblur_interior_mean (w h : nat) (data : list Z) (x y c : nat) :
  length data = 4 * (w * h) -> Forall Js.is_byte data ->
  1 <= x <= w - 2 -> 1 <= y <= h - 2 -> c < 3 ->
  BoxBlur.applyWatercolor w h data !! ((y * w + x) * 4 + c)
  = Some (Js.Math_round (BoxBlur.boxMean data w ((y * w + x) * 4) c)).
Proof. apply boxblur_interior_cell. Qed.

Lemma boxblur_interior_mean_witness :
  BoxBlur.applyWatercolor 3 3 (Filter.uniform 3 3 90) !! ((1 * 3 + 1) * 4 + 0)
  = Some (Js.Math_round (BoxBlur.boxMean (Filter.uniform 3 3 90) 3 ((1 * 3 + 1) * 4) 0)).
Proof.
  apply (boxblur_interior_mean 3 3 (Filter.uniform 3 3 90) 1 1 0);
    [reflexivity| |lia|lia|lia].
  repeat constructor; cbv; discriminate.
Defined.

(** The box blur leaves the outermost ring of pixels and every alpha
    channel as they were, and keeps the size of the buffer. *)
Theorem boxblur_border_unchanged (w h : nat) (data : list Z) (x y c : nat) :
  x < w -> y < h -> c < 4 ->
  x = 0 \/ y = 0 \/ x = w - 1 \/ y = h - 1 \/ c = 3 ->
  BoxBlur.applyWatercolor w h data !! ((y * w + x) * 4 + c)
  = data !! ((y * w + x) * 4 + c)
  /\ length (BoxBlur.applyWatercolor w h data) = length data.
Proof.
  intros Hx Hy Hc Hborder. split; [|apply length_boxblur].
  unfold BoxBlur.applyWatercolor.
  apply (loop_other w (BoxBlur.blurPixel data w) (blurPixel_old data w)).
  intros [x' y'] Hin. apply elem_of_interior in Hin. cbn [fst snd].
  assert (Hne : forall c', c' < 3 ->
            (y * w + x) * 4 + c <> (y' * w + x') * 4 + c').
  { intros c' Hc' Heq.
    apply cell_index_inj in Heq as (-> & -> & ->); lia. }
  pose proof (Hne 0) as H0. pose proof (Hne 1) as H1. pose proof (Hne 2) as H2.
  rewrite Nat.add_0_r in H0. repeat split; auto with lia.
Qed.

Lemma boxblur_border_unchanged_witness :
  BoxBlur.applyWatercolor 4 3 (Filter.uniform 4 3 200) !! ((1 * 4 + 3) * 4 + 1)
  = Filter.uniform 4 3 200 !! ((1 * 4 + 3) * 4 + 1)
  /\ length (BoxBlur.applyWatercolor 4 3 (Filter.uniform 4 3 200))
     = length (Filter.uniform 4 3 200).
Proof.
  apply (boxblur_border_unchanged 4 3 (Filter.uniform 4 3 200) 3 1 1);
    [lia|lia|lia|right; right; left; reflexivity].
Defined.

Section BoxBlurFlat.

Import Js Filter.
Local Open Scope Q_scope.

(** The mean around an interior pixel of a uniform surface. *)
Lemma boxMean_uniform (w h : nat) (v : Z) (x y c : nat) :
  (1 <= x <= w - 2)%nat -> (1 <= y <= h - 2)%nat -> (c < 3)%nat ->
  BoxBlur.boxMean (uniform w h v) w ((y * w + x) * 4) c == inject_Z v.
Proof.
  intros Hx Hy Hc.
  destruct (neighbours_in_range w h x y Hx Hy) as [Hlo Hhi].
  unfold BoxBlur.boxMean. cbv zeta.
  set (i := ((y * w + x) * 4)%nat). set (stride := (w * 4)%nat).
  assert (Hr : forall k p, k = (4 * p + c)%nat -> (p < w * h)%nat ->
            rd (uniform w h v) k = inject_Z v)
    by (intros k p -> Hp; by apply rd_uniform).
  rewrite (Hr (i - stride - 4 + c)%nat (y * w + x - w - 1)%nat) by (subst i stride; lia).
  rewrite (Hr (i - stride + c)%nat (y * w + x - w)%nat) by (subst i stride; lia).
  rewrite (Hr (i - stride + 4 + c)%nat (y * w + x - w + 1)%nat) by (subst i stride; lia).
  rewrite (Hr (i - 4 + c)%nat (y * w + x - 1)%nat) by (subst i stride; lia).
  rewrite (Hr (i + c)%nat (y * w + x)%nat) by (subst i stride; lia).
  rewrite (Hr (i + 4 + c)%nat (y * w + x + 1)%nat) by (subst i stride; lia).
  rewrite (Hr (i + stride - 4 + c)%nat (y * w + x + w - 1)%nat) by (subst i stride; lia).
  rewrite (Hr (i + stride + c)%nat (y * w + x + w)%nat) by (subst i stride; lia).
  rewrite (Hr (i + stride + 4 + c)%nat (y * w + x + w + 1)%nat) by (subst i stride; lia).
  field.
Qed.

End BoxBlurFlat.

(** Blurring a flat image changes nothing: a surface of one colour is a
    fixed point of the box blur. *)
Theorem boxblur_flat_fixed (w h : nat) (v : Z) :
  Js.is_byte v ->
  BoxBlur.applyWatercolor w h (Filter.uniform w h v) = Filter.uniform w h v.
Proof.
  intros Hv. apply list_eq. intros j.
  destruct (decide (j < 4 * (w * h))) as [Hj|Hj].
  2: { rewrite !lookup_ge_None_2; [done|rewrite length_uniform; lia|].
       rewrite length_boxblur, length_uniform. lia. }
  pose proof (Nat.div_mod_eq j 4) as Hdm.
  pose proof (Nat.mod_upper_bound j 4 ltac:(lia)) as Hub.
  set (p := j / 4) in *. set (c := j mod 4) in *. clearbody p c. subst j.
  assert (Hw : w <> 0) by nia.
  pose proof (Nat.div_mod_eq p w) as Hp.
  pose proof (Nat.mod_upper_bound p w Hw) as Hx.
  set (y := p / w) in *. set (x := p mod w) in *. clearbody x y.
  assert (Hy : y < h) by nia.
  replace (4 * p + c) with ((y * w + x) * 4 + c) by lia.
  destruct (decide (1 <= x <= w - 2 /\ 1 <= y <= h - 2 /\ c < 3))
    as [(Hx1 & Hy1 & Hc)|Hout].
  - rewrite boxblur_interior_cell
      by (done || apply length_uniform || by apply uniform_bytes).
    rewrite (Math_round_Qeq _ v) by (by apply boxMean_uniform).
    replace ((y * w + x) * 4 + c) with (4 * (y * w + x) + c) by lia.
    rewrite lookup_uniform by (try apply pixel_in_range; lia).
    destruct c as [|[|[|c]]]; (done || lia).
  - unfold BoxBlur.applyWatercolor.
    apply (loop_other w (BoxBlur.blurPixel (Filter.uniform w h v) w)
             (blurPixel_old (Filter.uniform w h v) w)).
    intros [x' y'] Hin. apply elem_of_interior in Hin. cbn [fst snd].
    assert (Hne : forall c', c' < 3 ->
              (y * w + x) * 4 + c <> (y' * w + x') * 4 + c').
    { intros c' Hc' Heq.
      apply cell_index_inj in Heq as (-> & -> & ->); [|lia..].
      apply Hout. lia. }
    pose proof (Hne 0) as H0. pose proof (Hne 1) as H1. pose proof (Hne 2) as H2.
    rewrite Nat.add_0_r in H0. repeat split; auto with lia.
Qed.

Lemma boxblur_flat_fixed_witness :
  BoxBlur.applyWatercolor 4 4 (Filter.uniform 4 4 120) = Filter.uniform 4 4 120.
Proof. apply (boxblur_flat_fixed 4 4 120). cbv. split; discriminate. Defined.

(** ** The filter table *)

Section TableFacts.

Import FilterTable.

(** The table of pixel passes used by [applyFilter] is the [apply] column
    of the table of definitions. *)
Lemma FILTERS_of_defs :
  Filter.FILTERS = (fun f => (id f, apply f)) <$> FILTER_DEFS.
Proof. reflexivity. Qed.

Lemma find_none_of {A} (p : A -> bool) (l : list A) :
  Forall (fun a => p a = false) l -> find p l = None.
Proof.
  induction 1 as [|a l Ha _ IH]; [done|]. cbn [find]. by rewrite Ha.
Qed.

Lemma find_some_of {A} (p : A -> bool) (l : list A) (a : A) :
  find p l = Some a -> a ∈ l /\ p a = true.
Proof.
  induction l as [|b l IH]; [done|]. cbn [find].
  destruct (p b) eqn:Hb.
  - intros [= ->]. split; [left|done].
  - intros [Hin Hp]%IH. split; [by right|done].
Qed.

End TableFacts.

(** An id that is not in the table selects the first entry: the filter
    in force is 'none', the canvas filter string is 'none', the preview
    style is cleared, and no pixel pass runs. *)
Theorem unknown_filter_falls_back (Math_sqrt : Q -> Q)
    (radialFill : Q -> Q -> Q -> Q -> Q -> nat -> nat -> nat -> Z -> Q)
    (screenDraw : Q -> Q -> Q -> list Z -> nat -> nat -> nat -> Z -> Q)
    (blurDraw : Q -> list Z -> nat -> nat -> nat -> Q)
    (s : string) (w h : nat) (rnd : nat -> Q) (st : list Z * nat) :
  Forall (fun f => FilterTable.id f <> s) FilterTable.FILTER_DEFS ->
  FilterTable.id (FilterTable.getCurrentFilter s) = "none"
  /\ FilterTable.apply (FilterTable.getCurrentFilter s) = []
  /\ FilterTable.getCanvasFilterString s = "none"
  /\ FilterTable.previewFilter s = ""
  /\ Filter.applyFilter Math_sqrt radialFill screenDraw blurDraw s w h rnd st = st.
Proof.
  intros Hs.
  assert (Hfind : find (fun f => String.eqb (FilterTable.id f) s) FilterTable.FILTER_DEFS
                  = None).
  { apply find_none_of. eapply Forall_impl; [exact Hs|].
    intros f Hf. by apply String.eqb_neq. }
  unfold FilterTable.getCanvasFilterString, FilterTable.previewFilter,
    FilterTable.getCurrentFilter. rewrite Hfind. cbn.
  repeat split; try done.
  unfold Filter.applyFilter.
  assert (Hnone : list_find (fun f : string * list Filter.Pass => bool_decide (fst f = s))
                    Filter.FILTERS = None).
  { apply list_find_None. rewrite FILTERS_of_defs. apply Forall_fmap.
    eapply Forall_impl; [exact Hs|]. intros f Hf Hb. cbn in Hb.
    apply bool_decide_unpack in Hb. done. }
  by rewrite Hnone.
Qed.

Lemma unknown_filter_falls_back_witness :
  FilterTable.id (FilterTable.getCurrentFilter "vintage") = "none"
  /\ FilterTable.apply (FilterTable.getCurrentFilter "vintage") = []
  /\ FilterTable.getCanvasFilterString "vintage" = "none"
  /\ FilterTable.previewFilter "vintage" = ""
  /\ Filter.applyFilter (fun q => q) (fun _ _ _ _ _ _ _ _ z => inject_Z z)
       (fun _ _ _ _ _ _ _ z => inject_Z z) (fun _ _ _ _ _ => 0%Q)
       "vintage" 2 2 (fun _ => 0.5%Q) (Filter.uniform 2 2 9, 0)
     = (Filter.uniform 2 2 9, 0).
Proof.
  apply (unknown_filter_falls_back (fun q => q) (fun _ _ _ _ _ _ _ _ z => inject_Z z)
           (fun _ _ _ _ _ _ _ z => inject_Z z) (fun _ _ _ _ _ => 0%Q)
           "vintage" 2 2 (fun _ => 0.5%Q) (Filter.uniform 2 2 9, 0)).
  repeat constructor; cbv; discriminate.
Defined.

(** The filter in force is always an entry of the table, and it carries
    the selected id whenever some entry does; the canvas filter string
    is its [cssFilter] in every case, and the preview style is cleared
    exactly when it is the 'none' entry. *)
Theorem current_filter_in_table (s : string) :
  let f := FilterTable.getCurrentFilter s in
  f ∈ FilterTable.FILTER_DEFS
  /\ ((exists g, g ∈ FilterTable.FILTER_DEFS /\ FilterTable.id g = s)
      -> FilterTable.id f = s)
  /\ FilterTable.getCanvasFilterString s = FilterTable.cssFilter f
  /\ (FilterTable.previewFilter s = "" <-> FilterTable.id f = "none")
  /\ (FilterTable.previewFilter s <> "" -> FilterTable.previewFilter s = FilterTable.cssFilter f).
Proof.
  cbv zeta.
  assert (Hcss : forall f, f ∈ FilterTable.FILTER_DEFS ->
            (String.eqb (FilterTable.cssFilter f) "none" = true
             <-> FilterTable.id f = "none")
            /\ FilterTable.cssFilter f <> "").
  { intros f Hf. unfold FilterTable.FILTER_DEFS in Hf.
    repeat (apply elem_of_cons in Hf as [->|Hf]; [by vm_compute; split; [split|]|]).
    by apply elem_of_nil in Hf. }
  assert (Hin : FilterTable.getCurrentFilter s ∈ FilterTable.FILTER_DEFS).
  { unfold FilterTable.getCurrentFilter.
    destruct (find _ _) as [f|] eqn:Hfind.
    - by apply find_some_of in Hfind as [Hin _].
    - left. }
  split; [exact Hin|]. split.
  { intros (g & Hg & Hid). unfold FilterTable.getCurrentFilter.
    destruct (find _ _) as [f|] eqn:Hfind.
    - apply find_some_of in Hfind as [_ Heq]. by apply String.eqb_eq in Heq.
    - exfalso. revert Hfind. generalize FilterTable.FILTER_DEFS Hg.
      intros l Hl. induction Hl as [g l|g g' l _ IH]; cbn [find].
      + rewrite Hid, String.eqb_refl. done.
      + destruct (String.eqb (FilterTable.id g') s); [done|exact (IH Hg Hid)]. }
  destruct (Hcss _ Hin) as [Hnone Hne].
  unfold FilterTable.getCanvasFilterString, FilterTable.previewFilter. cbv zeta.
  destruct (String.eqb (FilterTable.cssFilter (FilterTable.getCurrentFilter s)) "none")
    eqn:E.
  - split; [symmetry; by apply String.eqb_eq|].
    split; [split; [intros _; by apply Hnone|done]|done].
  - split; [done|]. split; [|done]. split; [done|].
    intros Hid. apply Hnone in Hid. congruence.
Qed.

(** ** Capture: further facts on the crop and the output size *)

Section CropFurther.

Import Js Capture.
Local Open Scope Q_scope.

(** The crop is inside the frame and 4:3 up to rounding. *)
Lemma cropRect_aspect (videoW videoH : Z) :
  (0 < videoW)%Z -> (0 < videoH)%Z ->
  let c := cropRect videoW videoH in
  (Z.abs (3 * srcW c - 4 * srcH c) <= 2)%Z
  /\ (0 < srcW c <= videoW)%Z /\ (0 < srcH c <= videoH)%Z.
Proof.
  intros HW HH. cbv zeta. unfold cropRect.
  pose proof (wider_than_target videoW videoH HH) as Hwide.
  destruct (negb (Qle_bool (inject_Z videoW / inject_Z videoH) targetAspect)).
  - assert (Hlt : (4 * videoH < 3 * videoW)%Z) by by apply Hwide.
    cbn [srcX srcY srcW srcH].
    pose proof (round_four_thirds videoH) as Hk. cbv zeta in Hk.
    set (k := Math_round (inject_Z videoH * targetAspect)) in *.
    clearbody k. lia.
  - assert (Hge : ~ (4 * videoH < 3 * videoW)%Z).
    { intros Hlt. apply Hwide in Hlt. discriminate. }
    cbn [srcX srcY srcW srcH].
    pose proof (round_three_quarters videoW) as Hk. cbv zeta in Hk.
    set (k := Math_round (inject_Z videoW / targetAspect)) in *.
    clearbody k. lia.
Qed.

(** The scale when nothing exceeds 1920. *)
Lemma outputScale_small (c : Crop) :
  (0 < srcW c <= 1920)%Z -> (0 < srcH c <= 1920)%Z -> outputScale c == 1.
Proof.
  intros [HW0 HW1] [HH0 HH1].
  assert (Hw : 0 < inject_Z (srcW c)) by by apply inject_Z_pos.
  assert (Hh : 0 < inject_Z (srcH c)) by by apply inject_Z_pos.
  assert (Hw1 : inject_Z (srcW c) <= 1920)
    by (change 1920 with (inject_Z 1920); by rewrite <- Zle_Qle).
  assert (Hh1 : inject_Z (srcH c) <= 1920)
    by (change 1920 with (inject_Z 1920); by rewrite <- Zle_Qle).
  unfold outputScale.
  set (w := inject_Z (srcW c)) in *. set (h := inject_Z (srcH c)) in *.
  assert (Ha : 1 <= 1920 / w) by (apply Qle_shift_div_l; lra).
  assert (Hb : 1 <= 1920 / h) by (apply Qle_shift_div_l; lra).
  set (a := 1920 / w) in *. set (b := 1920 / h) in *. clearbody a b.
  destruct (Math_min_cases a b) as [[H1 ->]|[H1 ->]];
    [destruct (Math_min_cases a 1) as [[H2 ->]|[H2 ->]]
    |destruct (Math_min_cases b 1) as [[H2 ->]|[H2 ->]]]; lra.
Qed.

(** The scale when the width exceeds 1920 and the height does not exceed
    the width. *)
Lemma outputScale_wide (c : Crop) :
  (1920 < srcW c)%Z -> (0 < srcH c <= srcW c)%Z ->
  outputScale c * inject_Z (srcW c) == 1920.
Proof.
  intros HW [HH0 HH1].
  assert (Hw : 1920 < inject_Z (srcW c))
    by (change 1920 with (inject_Z 1920); by rewrite <- Zlt_Qlt).
  assert (Hh : 0 < inject_Z (srcH c)) by by apply inject_Z_pos.
  assert (Hhw : inject_Z (srcH c) <= inject_Z (srcW c)) by by rewrite <- Zle_Qle.
  unfold outputScale.
  set (w := inject_Z (srcW c)) in *. set (h := inject_Z (srcH c)) in *.
  assert (Ea : (1920 / w) * w == 1920) by (field; lra).
  assert (Eb : (1920 / h) * h == 1920) by (field; lra).
  set (a := 1920 / w) in *. set (b := 1920 / h) in *. clearbody a b. clearbody w h.
  destruct (Math_min_cases a b) as [[H1 ->]|[H1 ->]];
    [destruct (Math_min_cases a 1) as [[H2 ->]|[H2 ->]]
    |destruct (Math_min_cases b 1) as [[H2 ->]|[H2 ->]]]; nra.
Qed.

End CropFurther.

(** The output size in closed form: a crop at most 1920 wide is kept at
    its own size (no resampling), and every wider crop comes out as
    exactly 1920 by 1440. *)
Theorem output_size_closed_form (videoW videoH : Z) :
  (0 < videoW)%Z -> (0 < videoH)%Z ->
  let c := Capture.cropRect videoW videoH in
  Capture.outputSize c
  = if (Capture.srcW c <=? 1920)%Z then (Capture.srcW c, Capture.srcH c)
    else (1920%Z, 1440%Z).
Proof.
  intros HW HH. cbv zeta.
  destruct (cropRect_aspect videoW videoH HW HH) as (Hasp & HcW & HcH).
  set (c := Capture.cropRect videoW videoH) in *. clearbody c.
  unfold Capture.outputSize. cbv zeta.
  destruct (Z.leb_spec (Capture.srcW c) 1920) as [Hle|Hgt].
  - pose proof (outputScale_small c ltac:(lia) ltac:(lia)) as Hs.
    f_equal; apply Math_round_Qeq; rewrite Hs; ring.
  - pose proof (outputScale_wide c Hgt ltac:(lia)) as Hs.
    assert (Hw : (1920 < inject_Z (Capture.srcW c))%Q)
      by (change 1920%Q with (inject_Z 1920); by rewrite <- Zlt_Qlt).
    assert (Hlo : (3 * inject_Z (Capture.srcW c) - 2 <= 4 * inject_Z (Capture.srcH c))%Q).
    { assert (H : (3 * Capture.srcW c - 2 <= 4 * Capture.srcH c)%Z) by lia.
      revert H. to_Q. lra. }
    assert (Hhi : (4 * inject_Z (Capture.srcH c) <= 3 * inject_Z (Capture.srcW c) + 2)%Q).
    { assert (H : (4 * Capture.srcH c <= 3 * Capture.srcW c + 2)%Z) by lia.
      revert H. to_Q. lra. }
    set (w := inject_Z (Capture.srcW c)) in *. set (h := inject_Z (Capture.srcH c)) in *.
    set (q := Capture.outputScale c) in *. clearbody w h q.
    f_equal.
    + apply Math_round_Qeq. change (inject_Z 1920) with 1920%Q. lra.
    + apply Math_round_unique; change (inject_Z 1440) with 1440%Q.
      * assert (H : (1439.5 * w <= (h * q) * w)%Q) by nra. nra.
      * assert (H : ((h * q) * w < 1440.5 * w)%Q) by nra. nra.
Qed.

(** A 4032 by 3024 camera and a 640 by 360 camera. *)
Lemma output_size_closed_form_witness :
  Capture.outputSize (Capture.cropRect 4032 3024) = (1920%Z, 1440%Z)
  /\ Capture.outputSize (Capture.cropRect 640 360) = (480%Z, 360%Z).
Proof.
  split.
  - apply (output_size_closed_form 4032 3024); reflexivity.
  - apply (output_size_closed_form 640 360); reflexivity.
Defined.

(** A source that is already 4:3 is not cropped at all. *)
Theorem four_thirds_source_uncropped (videoW videoH : Z) :
  (0 < videoH)%Z -> (3 * videoW = 4 * videoH)%Z ->
  Capture.cropRect videoW videoH
  = {| Capture.srcX := 0; Capture.srcY := 0;
       Capture.srcW := videoW; Capture.srcH := videoH |}.
Proof.
  intros HH Heq. unfold Capture.cropRect.
  pose proof (wider_than_target videoW videoH HH) as Hwide.
  destruct (negb (Qle_bool (inject_Z videoW / inject_Z videoH) Capture.targetAspect)).
  - assert (Hlt : (4 * videoH < 3 * videoW)%Z) by by apply Hwide.
    lia.
  - cbv zeta.
    pose proof (round_three_quarters videoW) as Hk. cbv zeta in Hk.
    assert (Ek : Js.Math_round (inject_Z videoW / Capture.targetAspect) = videoH) by lia.
    rewrite Ek.
    pose proof (round_half_diff videoH videoH) as Hy. cbv zeta in Hy.
    assert (Ey : Js.Math_round ((inject_Z videoH - inject_Z videoH) / 2) = 0%Z) by lia.
    by rewrite Ey.
Qed.

Lemma four_thirds_source_uncropped_witness :
  Capture.cropRect 640 480
  = {| Capture.srcX := 0; Capture.srcY := 0;
       Capture.srcW := 640; Capture.srcH := 480 |}.
Proof. apply (four_thirds_source_uncropped 640 480); reflexivity. Defined.

(** ** Capture: what a run leaves behind *)

(** Every run of [captureImage] answers the user: either the result
    screen is shown, with no alert and the button as it was, or the
    screen stays, exactly one alert is raised and the capture button is
    enabled. *)
Theorem capture_always_answers {Surface : Type}
    (caption : Z -> Z -> Surface -> Surface * Capture.outcome)
    (e : Capture.Env Surface) (app : Capture.App Surface) :
  let out := Capture.compose caption e app in
  (Capture.screen out = "result"
   /\ Capture.alerts out = Capture.alerts app
   /\ Capture.captureBtn_disabled out = Capture.captureBtn_disabled app)
  \/ (Capture.screen out = Capture.screen app
      /\ (exists a, Capture.alerts out = Capture.alerts app ++ [a])
      /\ Capture.captureBtn_disabled out = false).
Proof.
  cbv zeta. unfold Capture.compose.
  destruct (Capture.cameraVideo e) as [[videoW videoH]|]; [|right; cbn; eauto].
  destruct ((videoW =? 0)%Z || (videoH =? 0)%Z); [right; cbn; eauto|].
  destruct (Capture.outputSize (Capture.cropRect videoW videoH)) as [outW outH].
  destruct (Capture.drawVideo _ _ _ _ _ _ _) as [s1 [|]]; cbn [Capture.guarded];
    [|right; cbn; eauto].
  destruct (match Capture.filterApply e with
            | Some f => f outW outH s1
            | None => (s1, Capture.Done)
            end) as [s2 [|]]; cbn [Capture.guarded]; [|right; cbn; eauto].
  destruct (Capture.drawToResult _ _ _) as [s3 [|]]; cbn [Capture.guarded].
  - left. cbn. done.
  - right. cbn. eauto.
Qed.

(** When the final transfer throws, the previous photo is already gone:
    the result canvas was resized before the draw, so it is left blank at
    the new size, while the screen stays and the failure alert is
    raised. *)
Theorem transfer_failure_blanks_result {Surface : Type}
    (caption : Z -> Z -> Surface -> Surface * Capture.outcome)
    (e : Capture.Env Surface) (app : Capture.App Surface) (videoW videoH : Z) :
  Capture.cameraVideo e = Some (videoW, videoH) ->
  videoW <> 0%Z -> videoH <> 0%Z ->
  let c := Capture.cropRect videoW videoH in
  let outW := fst (Capture.outputSize c) in
  let outH := snd (Capture.outputSize c) in
  let r1 := Capture.drawVideo e (Capture.userFacing e) (Capture.filterStr e)
              c outW outH (Capture.blank e outW outH) in
  let r1b := match Capture.filterApply e with
             | Some f => f outW outH (fst r1)
             | None => (fst r1, Capture.Done)
             end in
  let c2 := fst (Capture.drawFaceFilterOnCanvas e outW outH (fst r1b)) in
  let c3 := if Capture.frameReady e
            then fst (Capture.drawFrame e outW outH c2) else c2 in
  let c4 := fst (caption outW outH c3) in
  let rr := Capture.drawToResult e c4 (Capture.blank e outW outH) in
  let out := Capture.compose caption e app in
  snd r1 = Capture.Done -> snd r1b = Capture.Done -> snd rr = Capture.Thrown ->
  Capture.resultCanvas out = Capture.blank e outW outH
  /\ Capture.screen out = Capture.screen app
  /\ Capture.alerts out = Capture.alerts app ++ [Capture.CaptureFailed]
  /\ Capture.captureBtn_disabled out = false.
Proof.
  intros He HW HH. cbv zeta.
  rewrite (compose_ready caption e app videoW videoH He HW HH). cbv zeta.
  set (c := Capture.cropRect videoW videoH).
  set (outW := fst (Capture.outputSize c)). set (outH := snd (Capture.outputSize c)).
  destruct (Capture.drawVideo e (Capture.userFacing e) (Capture.filterStr e)
              c outW outH (Capture.blank e outW outH)) as [s1 [|]];
    cbn [fst snd Capture.guarded]; [|discriminate].
  intros _.
  destruct (match Capture.filterApply e with
            | Some f => f outW outH s1
            | None => (s1, Capture.Done)
            end) as [s2 [|]]; cbn [fst snd Capture.guarded]; [|discriminate].
  intros _. unfold Capture.swallow.
  destruct (Capture.drawToResult e _ (Capture.blank e outW outH)) as [s3 [|]];
    cbn [fst snd Capture.guarded]; [discriminate|].
  intros _. cbn. done.
Qed.

Lemma transfer_failure_blanks_result_witness :
  let out := Capture.captureImage Scenario.newDate Scenario.formatDate true None
               Scenario.envTransferThrows Scenario.app0 in
  Capture.resultCanvas Scenario.app0 = ["previous photo"]
  /\ Capture.resultCanvas out = []
  /\ Capture.screen out = "camera"
  /\ Capture.alerts out = [Capture.CaptureFailed]
  /\ Capture.captureBtn_disabled out = false.
Proof.
  cbv zeta. split; [reflexivity|].
  apply (transfer_failure_blanks_result
           (fun w h s => Capture.runOps Scenario.envTransferThrows
                           (Capture.drawMessageOnCanvas string Scenario.newDate
                              Scenario.formatDate true None w h) s)
           Scenario.envTransferThrows Scenario.app0 1920 1080 eq_refl).
  - discriminate.
  - discriminate.
  - reflexivity.
  - reflexivity.
  - reflexivity.
Defined.

(** ** Caption: the shape and the geometry of what is drawn *)

Section CaptionShape.

Import Js Capture CaptionOps.
Local Open Scope Q_scope.

Context {JsDate : Type}.
Variable newDate : string -> option JsDate.
Variable formatDate : JsDate -> string.
Variable hasRoundRect : bool.

Lemma count_app (p : CtxOp -> bool) (l1 l2 : list CtxOp) :
  count p (l1 ++ l2) = (count p l1 + count p l2)%nat.
Proof. unfold count. by rewrite List.filter_app, length_app. Qed.

(** Calls counted over the bodies of a [forEach]. *)
Lemma count_forEach (p : CtxOp -> bool) (k : nat)
    (body : nat -> string -> list CtxOp) (lines : list string) :
  (forall i line, count p (body i line) = k) ->
  count p (mjoin (imap body lines)) = (k * length lines)%nat.
Proof.
  revert body. induction lines as [|line lines IH]; intros body Hbody.
  - cbn. lia.
  - rewrite imap_cons.
    change (mjoin (body 0%nat line :: imap (body ∘ S) lines))
      with (body 0%nat line ++ mjoin (imap (body ∘ S) lines)).
    rewrite count_app, Hbody, IH by (intros i l; apply Hbody).
    cbn [length]. lia.
Qed.

Lemma captionLines_length (cfg : MessageConfig) :
  (length (captionLines JsDate newDate formatDate cfg) <= 3)%nat.
Proof.
  unfold captionLines.
  destruct (has (date cfg)), (has (text cfg)), (has (location cfg)),
    (newDate (from_option value "" (date cfg))); cbn; lia.
Qed.

Lemma baseFontSize_pos (height : Z) :
  (18 <= height)%Z -> (1 <= Math_round (inject_Z height * 0.028))%Z.
Proof.
  intros Hh. destruct (Math_round_bounds (inject_Z height * 0.028)) as [_ Hhi].
  assert (H18 : 18 <= inject_Z height)
    by (change 18 with (inject_Z 18); by rewrite <- Zle_Qle).
  assert (Hlt : (0 < Math_round (inject_Z height * 0.028) + 1 - 1)%Z); [|lia].
  assert (Hq : 0 < inject_Z (Math_round (inject_Z height * 0.028))) by lra.
  change 0 with (inject_Z 0) in Hq. rewrite <- Zlt_Qlt in Hq. lia.
Qed.

End CaptionShape.

(** The caption never leaves the drawing state unbalanced and never
    writes more than three lines: [save] and [restore] are called the
    same number of times, at most once; every line is written exactly
    twice, first its shadow in translucent black one pixel right of and
    below the text, then the text at the same place without the offset,
    the first line in gold and the others in off-white; the lines are
    written in their order, and nothing else is written. *)
Theorem caption_calls_balanced {JsDate : Type}
    (newDate : string -> option JsDate) (formatDate : JsDate -> string)
    (hasRoundRect : bool) (cfg : Capture.MessageConfig) (width height : Z) :
  let ops := Capture.drawMessageOnCanvas JsDate newDate formatDate hasRoundRect
               (Some cfg) width height in
  let lines := Capture.captionLines JsDate newDate formatDate cfg in
  let calls := CaptionOps.textCalls [] "#000000" ops in
  CaptionOps.count CaptionOps.isSave ops = CaptionOps.count CaptionOps.isRestore ops
  /\ CaptionOps.count CaptionOps.isSave ops <= 1
  /\ CaptionOps.count CaptionOps.isFillText ops = 2 * length lines
  /\ length lines <= 3
  /\ (ops = [] \/ (head ops = Some Capture.Save /\ last ops = Some Capture.Restore))
  /\ length calls = 2 * length lines
  /\ CaptionOps.written ops = lines ≫= (fun line => [line; line])
  /\ (forall (i : nat) (line : string),
        lines !! i = Some line ->
        exists x y : Q,
          calls !! (2 * i) = Some ("rgba(0,0,0,0.6)", line, (x + 1)%Q, (y + 1)%Q)
          /\ calls !! (2 * i + 1)
             = Some (if Nat.eqb i 0 then "#D4AF37" else "#FAF9F6", line, x, y)).
Proof.
  cbv zeta. pose proof (captionLines_length newDate formatDate cfg) as Hlen.
  assert (Htext :
    let ops := Capture.drawMessageOnCanvas JsDate newDate formatDate hasRoundRect
                 (Some cfg) width height in
    let lines := Capture.captionLines JsDate newDate formatDate cfg in
    let calls := CaptionOps.textCalls [] "#000000" ops in
    length calls = 2 * length lines
    /\ CaptionOps.written ops = lines ≫= (fun line => [line; line])
    /\ (forall (i : nat) (line : string),
          lines !! i = Some line ->
          exists x y : Q,
            calls !! (2 * i) = Some ("rgba(0,0,0,0.6)", line, (x + 1)%Q, (y + 1)%Q)
            /\ calls !! (2 * i + 1)
               = Some (if Nat.eqb i 0 then "#D4AF37" else "#FAF9F6", line, x, y))).
  { cbv zeta.
    destruct (decide (Capture.captionLines JsDate newDate formatDate cfg = []))
      as [Hnil|Hne].
    - rewrite Hnil.
      assert (Hw : CaptionOps.textCalls [] "#000000"
                     (Capture.drawMessageOnCanvas JsDate newDate formatDate hasRoundRect
                        (Some cfg) width height) = []).
      { destruct (Capture.has (Capture.date cfg) || Capture.has (Capture.text cfg)
                  || Capture.has (Capture.location cfg)) eqn:Hany.
        + by rewrite (draw_no_line newDate formatDate hasRoundRect cfg width height
                        Hany Hnil).
        + apply orb_false_iff in Hany as [Hany Hl].
          apply orb_false_iff in Hany as [Hd Ht].
          by rewrite (draw_nothing newDate formatDate hasRoundRect cfg width height
                        Hd Ht Hl). }
      unfold CaptionOps.written. rewrite Hw. repeat split; try done.
    - destruct (textCalls_draw newDate formatDate hasRoundRect cfg width height Hne)
        as (boxY & lineH & Htc).
      unfold CaptionOps.written. rewrite Htc.
      split; [apply length_join_pairs|]. split; [by apply fmap_join_pairs|].
      intros i line Hi. do 2 eexists.
      apply (lookup_join_pairs
               (fun i line => ("rgba(0,0,0,0.6)"%string, line, _, _))
               (fun i line => ((if Nat.eqb i 0 then "#D4AF37" else "#FAF9F6")%string,
                               line, _, _))
               _ i line Hi). }
  cbv zeta in Htext. destruct Htext as (Ht1 & Ht2 & Ht3).
  assert (Hcalls :
    let ops := Capture.drawMessageOnCanvas JsDate newDate formatDate hasRoundRect
                 (Some cfg) width height in
    let lines := Capture.captionLines JsDate newDate formatDate cfg in
    CaptionOps.count CaptionOps.isSave ops = CaptionOps.count CaptionOps.isRestore ops
    /\ CaptionOps.count CaptionOps.isSave ops <= 1
    /\ CaptionOps.count CaptionOps.isFillText ops = 2 * length lines
    /\ length lines <= 3
    /\ (ops = [] \/ (head ops = Some Capture.Save /\ last ops = Some Capture.Restore))).
  { clear Ht1 Ht2 Ht3. cbv zeta. unfold Capture.drawMessageOnCanvas.
    destruct (negb (Capture.has (Capture.date cfg)) && negb (Capture.has (Capture.text cfg))
              && negb (Capture.has (Capture.location cfg))) eqn:Hnone.
    { assert (Hl : Capture.captionLines JsDate newDate formatDate cfg = []).
      { unfold Capture.captionLines.
        destruct (Capture.has (Capture.date cfg)), (Capture.has (Capture.text cfg)),
          (Capture.has (Capture.location cfg)); done. }
      rewrite Hl. cbn. repeat split; auto. }
    cbv zeta.
    set (lines := Capture.captionLines JsDate newDate formatDate cfg) in *.
    destruct (Nat.eqb_spec (length lines) 0) as [H0|Hpos].
    { rewrite H0. cbn. repeat split; auto. }
    set (body := Capture.drawLine _ _ _ _).
    assert (Hs : CaptionOps.count CaptionOps.isSave (mjoin (imap body lines)) = 0 * length lines)
      by (by apply count_forEach).
    assert (Hr : CaptionOps.count CaptionOps.isRestore (mjoin (imap body lines))
                 = 0 * length lines) by (by apply count_forEach).
    assert (Ht : CaptionOps.count CaptionOps.isFillText (mjoin (imap body lines))
                 = 2 * length lines) by (by apply count_forEach).
    rewrite !count_app, Hs, Hr, Ht.
    split; [by destruct hasRoundRect|].
    split; [destruct hasRoundRect; cbn; lia|].
    split; [destruct hasRoundRect; cbn; lia|].
    split; [done|].
    right. split; [done|]. by rewrite app_assoc, last_snoc. }
  cbv zeta in Hcalls. destruct Hcalls as (H1 & H2 & H3 & H4 & H5).
  exact (conj H1 (conj H2 (conj H3 (conj H4 (conj H5 (conj Ht1 (conj Ht2 Ht3))))))).
Qed.

(** The panel and its text: the panel lies strictly inside the canvas,
    centred between its left and right edges; every text call, the
    shadow included, is anchored strictly inside the panel, on the
    vertical centre line of the canvas or one pixel right of it. *)
Theorem caption_text_inside_panel {JsDate : Type}
    (newDate : string -> option JsDate) (formatDate : JsDate -> string)
    (hasRoundRect : bool) (cfg : Capture.MessageConfig) (width height : Z)
    (line : string) (x y : Q) :
  (3 <= width)%Z -> (18 <= height)%Z ->
  let ops := Capture.drawMessageOnCanvas JsDate newDate formatDate hasRoundRect
               (Some cfg) width height in
  Capture.FillText line x y ∈ ops ->
  exists bx by' bw bh,
    CaptionOps.panel ops = Some (bx, by', bw, bh)
    /\ (0 < bx /\ bx + bw < inject_Z width)%Q
    /\ (bx + bw / 2 == inject_Z width / 2)%Q
    /\ (0 < by' /\ by' + bh < inject_Z height)%Q
    /\ (bx < x /\ x < bx + bw)%Q
    /\ (by' < y /\ y < by' + bh)%Q
    /\ (x == inject_Z width / 2 \/ x == inject_Z width / 2 + 1)%Q.
Proof.
  intros Hw Hh. cbv zeta. unfold Capture.drawMessageOnCanvas.
  destruct (negb (Capture.has (Capture.date cfg)) && negb (Capture.has (Capture.text cfg))
            && negb (Capture.has (Capture.location cfg)));
    [by intros ?%elem_of_nil|].
  cbv zeta.
  pose proof (captionLines_length newDate formatDate cfg) as Hn3.
  set (lines := Capture.captionLines JsDate newDate formatDate cfg) in *.
  destruct (Nat.eqb_spec (length lines) 0) as [H0|Hpos].
  { intros Hin. repeat (apply elem_of_cons in Hin as [Hin|Hin]; [discriminate|]).
    by apply elem_of_nil in Hin. }
  pose proof (baseFontSize_pos height Hh) as Hf.
  destruct (Math_round_bounds (inject_Z height * 0.028)) as [Hfhi _].
  set (f := Js.Math_round (inject_Z height * 0.028)) in *. clearbody f.
  assert (Hfq : (1 <= inject_Z f)%Q)
    by (change 1%Q with (inject_Z 1); by rewrite <- Zle_Qle).
  assert (Hwq : (3 <= inject_Z width)%Q)
    by (change 3%Q with (inject_Z 3); by rewrite <- Zle_Qle).
  assert (Hhq : (18 <= inject_Z height)%Q)
    by (change 18%Q with (inject_Z 18); by rewrite <- Zle_Qle).
  set (n := length lines) in *.
  assert (Hnq : (inject_Z (Z.of_nat n) <= 3)%Q).
  { change 3%Q with (inject_Z 3). rewrite <- Zle_Qle. lia. }
  intros Hin. do 4 eexists. split.
  { destruct hasRoundRect; reflexivity. }
  apply elem_of_app in Hin as [Hin|Hin].
  { exfalso. destruct hasRoundRect;
      repeat (apply elem_of_cons in Hin as [Hin|Hin]; [discriminate|]);
      by apply elem_of_nil in Hin. }
  apply elem_of_app in Hin as [Hin|Hin].
  2: { apply list_elem_of_singleton in Hin. discriminate. }
  apply list_elem_of_join in Hin as (ops & Hop & Hops).
  apply elem_of_lookup_imap_1 in Hops as (i & l & -> & Hi).
  apply lookup_lt_Some in Hi. fold n in Hi.
  assert (Hiq : (inject_Z (Z.of_nat i) + 1 <= inject_Z (Z.of_nat n))%Q).
  { change 1%Q with (inject_Z 1). rewrite <- inject_Z_plus, <- Zle_Qle. lia. }
  assert (Hi0 : (0 <= inject_Z (Z.of_nat i))%Q).
  { change 0%Q with (inject_Z 0). rewrite <- Zle_Qle. lia. }
  unfold Capture.drawLine in Hop. cbv zeta in Hop.
  set (iq := inject_Z (Z.of_nat i)) in *. set (nq := inject_Z (Z.of_nat n)) in *.
  set (fq := inject_Z f) in *. set (wq := inject_Z width) in *.
  set (hq := inject_Z height) in *. clearbody iq nq fq wq hq.
  assert (P1 : (0 <= iq * fq)%Q) by nra.
  assert (P2 : (0 <= (nq - iq - 1) * (fq - 1))%Q) by nra.
  assert (P3 : (0 <= (3 - nq) * fq)%Q) by nra.
  assert (P4 : (0 <= nq * fq)%Q) by nra.
  repeat (apply elem_of_cons in Hop as [Hop|Hop]; [try discriminate|]);
    [| |by apply elem_of_nil in Hop].
  - injection Hop as -> -> ->.
    split; [split; unfold Qdiv; change (/ 2) with (1 # 2); lra|].
    split; [field|]. split; [split; lra|].
    split; [split; unfold Qdiv; change (/ 2) with (1 # 2); lra|].
    split; [split; nra|]. right. reflexivity.
  - injection Hop as -> -> ->.
    split; [split; unfold Qdiv; change (/ 2) with (1 # 2); lra|].
    split; [field|]. split; [split; lra|].
    split; [split; unfold Qdiv; change (/ 2) with (1 # 2); lra|].
    split; [split; nra|]. left. reflexivity.
Qed.

Lemma caption_text_inside_panel_witness :
  exists bx by' bw bh,
    CaptionOps.panel
      (Capture.drawMessageOnCanvas string Scenario.newDate Scenario.formatDate true
         (Some {| Capture.date := None;
                  Capture.text := Some {| Capture.enabled := true;
                                          Capture.value := "Happy Anniversary" |};
                  Capture.location := None |}) 1440 1080)
    = Some (bx, by', bw, bh)
    /\ (0 < bx /\ bx + bw < inject_Z 1440)%Q
    /\ (bx + bw / 2 == inject_Z 1440 / 2)%Q
    /\ (0 < by' /\ by' + bh < inject_Z 1080)%Q
    /\ (bx < 1440 # 2 /\ 1440 # 2 < bx + bw)%Q
    /\ (by' < 966.3000000 /\ 966.3000000 < by' + bh)%Q
    /\ (1440 # 2 == inject_Z 1440 / 2 \/ 1440 # 2 == inject_Z 1440 / 2 + 1)%Q.
Proof.
  refine (caption_text_inside_panel Scenario.newDate Scenario.formatDate true
            {| Capture.date := None;
               Capture.text := Some {| Capture.enabled := true;
                                       Capture.value := "Happy Anniversary" |};
               Capture.location := None |} 1440 1080 "Happy Anniversary"
            (1440 # 2)%Q 966.3000000%Q _ _ _); [lia|lia|].
  vm_compute. do 14 right. left.
Defined.

(** ** Saving *)

(** What a run of [downloadImage] shows, by case: without a result image
    the only effect is the alert and the button is not touched; the
    failure alert is raised exactly when no blob is delivered; the
    download link is used exactly when a blob exists and sharing is
    unavailable or failed with something else than a cancellation; a
    cancelled share gives neither alert nor download; and whenever the
    button was put in its saving state, restoring it is the last thing
    done. *)
Theorem download_outcomes (e : Save.SaveEnv) (stored : option string) (now : Save.Now) :
  let eff := Save.downloadImage e stored now in
  (Save.hasResult e = false -> eff = [Save.AlertNoImage])
  /\ (Save.AlertNoImage ∈ eff <-> Save.hasResult e = false)
  /\ (Save.AlertSaveFailed ∈ eff <-> Save.hasResult e = true /\ Save.blobOk e = false)
  /\ (forall name, Save.DownloadLink name ∈ eff
        <-> name = Save.filename stored now
            /\ Save.hasResult e = true /\ Save.blobOk e = true
            /\ (Save.canShare e = false \/ Save.shareOutcome e = Save.OtherError))
  /\ (forall name, Save.ShareSheet name ∈ eff
        <-> name = Save.filename stored now
            /\ Save.hasResult e = true /\ Save.blobOk e = true
            /\ Save.canShare e = true)
  /\ (Save.BtnSaving ∈ eff <-> Save.hasResult e = true /\ Save.hasBtn e = true)
  /\ (Save.BtnSaving ∈ eff ->
      head eff = Some Save.BtnSaving /\ last eff = Some Save.BtnReady).
Proof.
  cbv zeta. unfold Save.downloadImage.
  set (name := Save.filename stored now). clearbody name.
  destruct e as [[] [] [] [] []]; cbn;
    repeat split; intros;
    repeat match goal with
      | H : _ ∈ _ :: _ |- _ => apply elem_of_cons in H as [H|H]
      | H : _ ∈ [] |- _ => by apply elem_of_nil in H
      | H : _ /\ _ |- _ => destruct H
      | H : _ \/ _ |- _ => destruct H
      end;
    simplify_eq; try done; auto;
    repeat (first [left; done | right]); try (left; done).
Qed.

Section NumeralFacts.

Import Save Parse.

Lemma length_append (s t : string) :
  String.length (s +:+ t) = String.length s + String.length t.
Proof.
  induction s as [|a s IH]; [done|].
  change (String a s +:+ t) with (String a (s +:+ t)). cbn [String.length].
  by rewrite IH.
Qed.

(** Two concatenations with first parts of one length. *)
Lemma append_split (a b c d : string) :
  a +:+ b = c +:+ d -> String.length a = String.length c -> a = c /\ b = d.
Proof.
  revert c. induction a as [|x a IH]; intros [|y c] Heq Hlen; cbn in *; try done.
  injection Heq as -> Heq. destruct (IH c Heq) as [-> ->]; [lia|done].
Qed.

Lemma append_assoc (x y z : string) : (x +:+ y) +:+ z = x +:+ (y +:+ z).
Proof.
  induction x as [|ch x IH]; [done|].
  change ((String ch x +:+ y) +:+ z) with (String ch ((x +:+ y) +:+ z)).
  change (String ch x +:+ (y +:+ z)) with (String ch (x +:+ (y +:+ z))).
  by rewrite IH.
Qed.

(** Two concatenations with second parts of one length. *)
Lemma append_split_r (a b c d : string) :
  a +:+ b = c +:+ d -> String.length b = String.length d -> a = c /\ b = d.
Proof.
  intros Heq Hlen. apply append_split; [done|].
  assert (Hl : String.length (a +:+ b) = String.length (c +:+ d)) by by rewrite Heq.
  rewrite !length_append in Hl. lia.
Qed.

Lemma String_of_nat_parse (n : nat) : parseNat (String_of_nat n) = Some n.
Proof.
  unfold parseNat, String_of_nat.
  pose proof (DecimalNat.Unsigned.of_to n) as Hn.
  destruct (Nat.to_uint n) as [| | | | | | | | | |] eqn:Hd;
    [cbn in *; by subst|..];
    rewrite <- Hd, DecimalString.NilZero.usu by (rewrite Hd; discriminate);
    cbn [fmap option_fmap option_map]; by rewrite Hd, Hn.
Qed.

Lemma String_of_nat_inj (n m : nat) : String_of_nat n = String_of_nat m -> n = m.
Proof.
  intros Heq. pose proof (String_of_nat_parse n) as Hn.
  rewrite Heq, String_of_nat_parse in Hn. by injection Hn.
Qed.

(** A numeral is not empty. *)
Lemma String_of_nat_length (n : nat) : 1 <= String.length (String_of_nat n).
Proof.
  pose proof (String_of_nat_parse n) as Hn.
  destruct (String_of_nat n); [discriminate|cbn; lia].
Qed.

(** A zero in front does not change the number read. *)
Lemma parseNat_leading_zero (s : string) (n : nat) :
  parseNat s = Some n -> parseNat ("0" +:+ s) = Some n.
Proof.
  unfold parseNat. destruct s as [|a s]; [done|].
  change ("0" +:+ String a s) with (String (Ascii.Ascii false false false false true true false false) (String a s)).
  unfold DecimalString.NilZero.uint_of_string.
  change (DecimalString.NilEmpty.uint_of_string (String (Ascii.Ascii false false false false true true false false) (String a s)))
    with (match DecimalString.NilEmpty.uint_of_string (String a s) with
          | Some d => Some (Decimal.D0 d)
          | None => None
          end).
  destruct (DecimalString.NilEmpty.uint_of_string (String a s)) as [d|]; [|done].
  cbn [fmap option_fmap option_map]. intros [= <-]. reflexivity.
Qed.

Lemma pad2_cases (n : nat) :
  (String.length (String_of_nat n) = 1 /\ pad2 n = "0" +:+ String_of_nat n)
  \/ (2 <= String.length (String_of_nat n) /\ pad2 n = String_of_nat n).
Proof.
  unfold pad2, padStart0. pose proof (String_of_nat_length n) as Hlen.
  destruct (String.length (String_of_nat n)) as [|[|k]] eqn:Hl; [lia|left|right].
  - done.
  - split; [lia|]. by replace (2 - S (S k)) with 0 by lia.
Qed.

Lemma two_digits (n : nat) : n < 100 -> String.length (String_of_nat n) <= 2.
Proof.
  intros Hn.
  assert (Hall : forallb (fun k => String.length (String_of_nat k) <=? 2) (seq 0 100) = true)
    by (vm_compute; reflexivity).
  rewrite forallb_forall in Hall. apply Nat.leb_le, Hall.
  apply in_seq. lia.
Qed.

Lemma pad2_parse (n : nat) : parseNat (pad2 n) = Some n.
Proof.
  destruct (pad2_cases n) as [[_ ->]|[_ ->]].
  - apply parseNat_leading_zero, String_of_nat_parse.
  - apply String_of_nat_parse.
Qed.

Lemma pad2_length (n : nat) : n < 100 -> String.length (pad2 n) = 2.
Proof.
  intros Hn. pose proof (two_digits n Hn) as H2.
  destruct (pad2_cases n) as [[Hl ->]|[Hl ->]]; [|lia].
  rewrite length_append, Hl. done.
Qed.

Lemma pad2_inj (n m : nat) : pad2 n = pad2 m -> n = m.
Proof.
  intros Heq. pose proof (pad2_parse n) as Hn.
  rewrite Heq, pad2_parse in Hn. by injection Hn.
Qed.

End NumeralFacts.

(** [pad2] never loses a digit: the padded string reads back as the
    number, it has at least two characters, exactly two below 100, and
    from 10 on it is the plain numeral. *)
Theorem pad2_round_trip (n : nat) :
  Parse.parseNat (Save.pad2 n) = Some n
  /\ 2 <= String.length (Save.pad2 n)
  /\ (n < 100 -> String.length (Save.pad2 n) = 2)
  /\ (2 <= String.length (Save.String_of_nat n) -> Save.pad2 n = Save.String_of_nat n).
Proof.
  split; [apply pad2_parse|]. split; [|split; [apply pad2_length|]].
  - destruct (pad2_cases n) as [[Hl ->]|[Hl ->]]; [|done].
    rewrite length_append, Hl. done.
  - intros Hl. destruct (pad2_cases n) as [[Hl' _]|[_ ->]]; [lia|done].
Qed.

Lemma pad2_round_trip_witness :
  Parse.parseNat (Save.pad2 7) = Some 7
  /\ 2 <= String.length (Save.pad2 7)
  /\ String.length (Save.pad2 7) = 2
  /\ Save.pad2 123 = Save.String_of_nat 123.
Proof.
  destruct (pad2_round_trip 7) as (H1 & H2 & H3 & _).
  destruct (pad2_round_trip 123) as (_ & _ & _ & H4).
  split; [exact H1|]. split; [exact H2|]. split; [apply H3; lia|].
  apply H4. vm_compute. lia.
Defined.

(** File names do not collide: for one restaurant name, two instants
    whose month, day, hour, minute and second are in their calendar
    ranges give the same file name only if they agree in every field. *)
Theorem filename_injective (stored : option string) (n1 n2 : Save.Now) :
  Save.month n1 < 12 -> Save.date n1 <= 31 -> Save.hours n1 < 24 ->
  Save.minutes n1 < 60 -> Save.seconds n1 < 60 ->
  Save.month n2 < 12 -> Save.date n2 <= 31 -> Save.hours n2 < 24 ->
  Save.minutes n2 < 60 -> Save.seconds n2 < 60 ->
  Save.filename stored n1 = Save.filename stored n2 -> n1 = n2.
Proof.
  intros Hm1 Hd1 Hh1 Hi1 Hs1 Hm2 Hd2 Hh2 Hi2 Hs2 Heq.
  destruct n1 as [y1 m1 d1 h1 i1 s1], n2 as [y2 m2 d2 h2 i2 s2].
  cbn [Save.month Save.date Save.hours Save.minutes Save.seconds] in *.
  unfold Save.filename, Save.dateStr, Save.timeStr in Heq.
  cbn [Save.fullYear Save.month Save.date Save.hours Save.minutes Save.seconds] in Heq.
  do 3 apply (inj (String.append _)) in Heq.
  pose proof (pad2_length (m1 + 1) ltac:(lia)) as Lm1.
  pose proof (pad2_length (m2 + 1) ltac:(lia)) as Lm2.
  pose proof (pad2_length d1 ltac:(lia)) as Ld1.
  pose proof (pad2_length d2 ltac:(lia)) as Ld2.
  pose proof (pad2_length h1 ltac:(lia)) as Lh1.
  pose proof (pad2_length h2 ltac:(lia)) as Lh2.
  pose proof (pad2_length i1 ltac:(lia)) as Li1.
  pose proof (pad2_length i2 ltac:(lia)) as Li2.
  pose proof (pad2_length s1 ltac:(lia)) as Ls1.
  pose proof (pad2_length s2 ltac:(lia)) as Ls2.
  rewrite !append_assoc in Heq.
  apply append_split_r in Heq as [Hy Heq];
    [|rewrite !length_append; lia].
  apply append_split in Heq as [Hm Heq]; [|lia].
  apply append_split in Heq as [Hd Heq]; [|lia].
  apply (inj (String.append _)) in Heq.
  apply append_split in Heq as [Hh Heq]; [|lia].
  apply append_split in Heq as [Hi Heq]; [|lia].
  apply append_split in Heq as [Hs _]; [|lia].
  apply String_of_nat_inj in Hy. apply pad2_inj in Hm, Hd, Hh, Hi, Hs.
  f_equal; lia.
Qed.

(** One instant given twice, and two photos taken one second apart. *)
Lemma filename_injective_witness :
  {| Save.fullYear := 2026; Save.month := 1; Save.date := 19;
     Save.hours := 14; Save.minutes := 30; Save.seconds := 2 + 3 |}
  = {| Save.fullYear := 2026; Save.month := 1; Save.date := 19;
       Save.hours := 14; Save.minutes := 30; Save.seconds := 5 |}
  /\ Save.filename (Some "Hapuna")
       {| Save.fullYear := 2026; Save.month := 1; Save.date := 19;
          Save.hours := 14; Save.minutes := 30; Save.seconds := 5 |}
     <> Save.filename (Some "Hapuna")
          {| Save.fullYear := 2026; Save.month := 1; Save.date := 19;
             Save.hours := 14; Save.minutes := 30; Save.seconds := 6 |}.
Proof.
  split.
  - apply (filename_injective (Some "Hapuna")
             {| Save.fullYear := 2026; Save.month := 1; Save.date := 19;
                Save.hours := 14; Save.minutes := 30; Save.seconds := 2 + 3 |}
             {| Save.fullYear := 2026; Save.month := 1; Save.date := 19;
                Save.hours := 14; Save.minutes := 30; Save.seconds := 5 |});
      [cbn; lia..|reflexivity].
  - intros Heq.
    apply (filename_injective (Some "Hapuna")
             {| Save.fullYear := 2026; Save.month := 1; Save.date := 19;
                Save.hours := 14; Save.minutes := 30; Save.seconds := 5 |}
             {| Save.fullYear := 2026; Save.month := 1; Save.date := 19;
                Save.hours := 14; Save.minutes := 30; Save.seconds := 6 |}) in Heq;
      [discriminate Heq|cbn; lia..].
Defined.

(** ** The saturation loop of the watercolor pass *)

Section SaturateFacts.

Import Js Filter.
Local Open Scope Q_scope.

(** The value stored for a channel of a grey pixel. *)
Lemma saturate_grey_value (v : Z) :
  is_byte v ->
  let avg := (inject_Z v + inject_Z v + inject_Z v) / 3 in
  ToUint8Clamp (Math_min 255 (inject_Z (Math_round (avg + (inject_Z v - avg) * 1.9)))) = v.
Proof.
  intros Hv. cbv zeta.
  assert (Hr : Math_round ((inject_Z v + inject_Z v + inject_Z v) / 3
                           + (inject_Z v - (inject_Z v + inject_Z v + inject_Z v) / 3) * 1.9)
               = v).
  { apply Math_round_Qeq. field. }
  rewrite Hr. apply ToUint8Clamp_Qeq; [|done].
  destruct Hv as [_ Hv1].
  assert (Hq : inject_Z v <= 255)
    by (change 255 with (inject_Z 255); by rewrite <- Zle_Qle).
  destruct (Math_min_cases 255 (inject_Z v)) as [[Hle ->]|[_ ->]]; [lra|reflexivity].
Qed.

Lemma saturatePixel_grey (data : list Z) (i : nat) (v : Z) :
  is_byte v ->
  data !! i = Some v -> data !! (i + 1)%nat = Some v -> data !! (i + 2)%nat = Some v ->
  saturatePixel data i = data.
Proof.
  intros Hv H0 H1 H2. unfold saturatePixel. cbv zeta.
  rewrite (rd_lookup _ _ _ H0), (rd_lookup _ _ _ H1), (rd_lookup _ _ _ H2).
  unfold wr. rewrite (saturate_grey_value v Hv).
  rewrite (list_insert_id data i v H0).
  rewrite (list_insert_id data (i + 1) v H1).
  by rewrite (list_insert_id data (i + 2) v H2).
Qed.

End SaturateFacts.

(** The saturation loop of the watercolor pass has nothing to amplify
    in a grey image: when the three colour channels of every pixel are
    equal, the loop returns the buffer as it was. *)
Theorem saturation_keeps_grey (n : nat) (data : list Z) :
  length data = 4 * n -> Forall Js.is_byte data ->
  (forall p, p < n ->
     data !! (4 * p + 1) = data !! (4 * p) /\ data !! (4 * p + 2) = data !! (4 * p)) ->
  foldl Filter.saturatePixel data (Filter.pixelIndices (length data)) = data.
Proof.
  intros Hlen Hb Hgrey. rewrite Hlen, pixelIndices_whole.
  assert (Hstep : forall p, p ∈ seq 0 n -> Filter.saturatePixel data (4 * p) = data).
  { intros p Hp. apply elem_of_seq in Hp.
    destruct (lookup_lt_is_Some_2 data (4 * p)) as [v Hv]; [lia|].
    destruct (Hgrey p ltac:(lia)) as [H1 H2]. rewrite Hv in H1, H2.
    apply (saturatePixel_grey data (4 * p) v); [|done..].
    by eapply Forall_lookup_1. }
  revert Hstep. generalize (seq 0 n). intros l Hl.
  induction l as [|p l IH]; [done|].
  cbn [fmap list_fmap foldl]. rewrite Hl by left.
  apply IH. intros q Hq. apply Hl. by right.
Qed.

Lemma saturation_keeps_grey_witness :
  foldl Filter.saturatePixel (Filter.uniform 2 2 140)
    (Filter.pixelIndices (length (Filter.uniform 2 2 140)))
  = Filter.uniform 2 2 140.
Proof.
  apply (saturation_keeps_grey 4 (Filter.uniform 2 2 140)).
  - reflexivity.
  - repeat constructor; cbv; discriminate.
  - intros p Hp.
    destruct p as [|[|[|[|p]]]]; [split; reflexivity..|lia].
Defined.
